(** * Image sequencing engine: edge analysis and ordering

    A shallow embedding of the image-analysis module (BLANK_TOLERANCE,
    colorDistance, isRowBlank, getEdgePixels, calculatePixelDifference,
    getPermutations, findOptimalOrder) and of the older inline copy of
    calculatePixelDifference kept in content.js.

    Conventions.
    - Array indices and row coordinates are JavaScript numbers holding
      integers; they are modelled by [Z] (the sentinel [-1] included).
    - Pixel components are integers (bytes of a Uint8ClampedArray); their
      differences, squares and sums are exact in double precision and are
      modelled by [Z].
    - Scores are JavaScript numbers, that is binary64 values.  Where the
      code divides, adds and compares scores the model does so on the
      primitive binary64 numbers [float], with the rounding of IEEE 754:
      the quotient of calculatePixelDifference is rounded once, every [+]
      and [+=] on scores once more.
    - The value of a single quotient before it is rounded is the subject of
      the statements on calculatePixelDifference alone; there it is an
      exact rational extended with the IEEE special values, [jsnum].
    - An exception (reading a property of [undefined]) is modelled by
      [None] in the option monad.
    - Calls to the logger [_log] only produce diagnostics and are left out. *)

From Stdlib Require Import ZArith QArith Lia Reals Lra.
From Stdlib Require PrimFloat Uint63 FloatAxioms SpecFloat FloatOps Ascii String.
From stdpp Require Import base tactics option list list_numbers sorting.
From Equations Require Import Equations.

Import PrimFloat.PrimFloatNotations.

Open Scope Z_scope.

(** A JavaScript number: a binary64 value. *)
Abbreviation float := PrimFloat.float.

(** ** The exact value of a quotient *)

Module JsNum.

Inductive jsnum : Type :=
  | Fin (q : Q)
  | PInf
  | NInf
  | NaN.

Definition Qltb (x y : Q) : bool := negb (Qle_bool y x).

(** [x < y] *)
Definition ltb (x y : jsnum) : bool :=
  match x, y with
  | NaN, _ | _, NaN => false
  | _, NInf => false
  | NInf, _ => true
  | PInf, _ => false
  | Fin _, PInf => true
  | Fin a, Fin b => Qltb a b
  end.

(** [x <= y] *)
Definition leb (x y : jsnum) : bool :=
  match x, y with
  | NaN, _ | _, NaN => false
  | NInf, _ => true
  | _, NInf => false
  | _, PInf => true
  | PInf, _ => false
  | Fin a, Fin b => Qle_bool a b
  end.

(** [a / n] for an integer [a] and an array length [n].  A zero divisor
    gives a signed infinity, and [0 / 0] is [NaN]. *)
Definition div_len (a : Z) (n : nat) : jsnum :=
  match n with
  | O => if a =? 0 then NaN else if 0 <? a then PInf else NInf
  | S _ => Fin (a # Pos.of_nat n)
  end.

Definition is_nan (x : jsnum) : bool :=
  match x with NaN => true | _ => false end.

(** A number in the ordinary sense: neither [NaN] nor an infinity. *)
Definition finite (x : jsnum) : Prop :=
  match x with Fin _ => True | _ => False end.

End JsNum.

Import JsNum.

(** ** calculatePixelDifference

    The loop is modelled once, on integers.  The quotient that ends the
    function comes in two forms: [calculatePixelDifference] is its exact
    value, [Double.calculatePixelDifference] further down is the double
    that the function returns and that findOptimalOrder adds up and
    compares. *)

(** The loop [for (i = 0; i < len; i++) totalDiff += diff * diff].  Every
    read is at an index below [len], hence inside both arrays. *)
Definition squaredDiffLoop (pixels1 pixels2 : list Z) (len : nat) : Z :=
  fold_left
    (fun totalDiff i =>
       let diff := pixels1 !!! i - pixels2 !!! i in
       totalDiff + diff * diff)
    (seq 0 len) 0.

Definition calculatePixelDifference (pixels1 pixels2 : list Z) : jsnum :=
  let len := Nat.min (length pixels1) (length pixels2) in
  let totalDiff := squaredDiffLoop pixels1 pixels2 len in
  div_len totalDiff len.

(** The inline copy of content.js: same loop shape, but the summand is
    [Math.abs(pixels1[i] - pixels2[i])]. *)
Module ContentJs.

Definition absDiffLoop (pixels1 pixels2 : list Z) (len : nat) : Z :=
  fold_left
    (fun totalDiff i => totalDiff + Z.abs (pixels1 !!! i - pixels2 !!! i))
    (seq 0 len) 0.

Definition calculatePixelDifference (pixels1 pixels2 : list Z) : jsnum :=
  let len := Nat.min (length pixels1) (length pixels2) in
  let totalDiff := absDiffLoop pixels1 pixels2 len in
  div_len totalDiff len.

End ContentJs.

(** The metric as the specification words it: over the first [n] aligned
    components, the sum of the squared differences. *)
Definition spec_sumSquares (n : nat) (a b : list Z) : Z :=
  foldr Z.add 0 (zip_with (fun x y => (x - y) * (x - y)) (take n a) (take n b)).

Definition spec_sumAbs (n : nat) (a b : list Z) : Z :=
  foldr Z.add 0 (zip_with (fun x y => Z.abs (x - y)) (take n a) (take n b)).

(** ** colorDistance and isRowBlank *)

Definition BLANK_TOLERANCE : Z := 35.

(** The value of [Math.sqrt] at an exact integer, kept symbolically, or
    [NaN] when an operand was [undefined]. *)
Inductive jsroot : Type :=
  | Root (s : Z)
  | RootNaN.

(** Components read from a row are numbers or [undefined] ([None]). *)
Definition colorDistance (r1 g1 b1 r2 g2 b2 : option Z) : jsroot :=
  match r1, g1, b1, r2, g2, b2 with
  | Some r1, Some g1, Some b1, Some r2, Some g2, Some b2 =>
      let dr := r1 - r2 in
      let dg := g1 - g2 in
      let db := b1 - b2 in
      Root (dr * dr + dg * dg + db * db)
  | _, _, _, _, _, _ => RootNaN
  end.

(** [dist > t] for an integer threshold [t]: a square root exceeds a
    non-negative [t] exactly when its radicand exceeds [t * t]; every
    comparison with [NaN] is false. *)
Definition root_gtb (dist : jsroot) (t : Z) : bool :=
  match dist with
  | Root s => if t <? 0 then true else t * t <? s
  | RootNaN => false
  end.

Equations isRowBlank_from (rowData : list Z) (firstR firstG firstB : option Z)
    (i : nat) : bool by wf (length rowData - i)%nat lt :=
  isRowBlank_from rowData firstR firstG firstB i
    with decide (i < length rowData)%nat := {
    | left _ =>
        if root_gtb
             (colorDistance firstR firstG firstB
                (rowData !! i) (rowData !! (i + 1)%nat) (rowData !! (i + 2)%nat))
             BLANK_TOLERANCE
        then false
        else isRowBlank_from rowData firstR firstG firstB (i + 4)%nat;
    | right _ => true }.
Next Obligation. lia. Qed.

Definition isRowBlank (rowData : list Z) : bool :=
  let firstR := rowData !! 0%nat in
  let firstG := rowData !! 1%nat in
  let firstB := rowData !! 2%nat in
  isRowBlank_from rowData firstR firstG firstB 4.

(** The colour of pixel [k] of a row of RGBA bytes, and the Euclidean
    distance of two colours as a real number: the notions in which the
    specification words the blank test. *)
Definition pixelAt (rowData : list Z) (k : nat) : Z * Z * Z :=
  (rowData !!! (4 * k)%nat, rowData !!! (4 * k + 1)%nat,
   rowData !!! (4 * k + 2)%nat).

Definition squaredDistance (p q : Z * Z * Z) : Z :=
  let '(r1, g1, b1) := p in
  let '(r2, g2, b2) := q in
  (r1 - r2) * (r1 - r2) + (g1 - g2) * (g1 - g2) + (b1 - b2) * (b1 - b2).

Definition spec_distance (p q : Z * Z * Z) : R :=
  sqrt (IZR (squaredDistance p q)).

(** The test that the loop of isRowBlank makes on pixel [k]. *)
Definition exceeds (rowData : list Z) (k : nat) : bool :=
  root_gtb
    (colorDistance (rowData !! 0%nat) (rowData !! 1%nat) (rowData !! 2%nat)
       (rowData !! (4 * k)%nat) (rowData !! (4 * k + 1)%nat)
       (rowData !! (4 * k + 2)%nat))
    BLANK_TOLERANCE.

(** ** Double precision

    What the code computes on doubles, on binary64 itself: the two
    comparisons whose integer form the model of isRowBlank and
    getEdgePixels uses (they are checked over the whole range of values
    that byte components and practical image heights can produce), and the
    quotient that calculatePixelDifference returns. *)

Module Double.
Import PrimFloat.

(** The double that holds the integer [z]; exact below [2^53]. *)
Definition dbl (z : Z) : float := of_uint63 (Uint63.of_Z z).

Fixpoint all_from (P : Z -> bool) (z : Z) (count : nat) : bool :=
  match count with
  | O => true
  | S count' => P z && all_from P (z + 1) count'
  end.

(** [Math.sqrt(s) > BLANK_TOLERANCE] on doubles. *)
Definition sqrt_gt_tolerance (s : Z) : bool :=
  ltb (dbl BLANK_TOLERANCE) (sqrt (dbl s)).

(** [k <= height * 0.1 < k + 1] on doubles, that is
    [Math.floor(height * 0.1) = k]. *)
#[warnings="-inexact-float"] Definition floor_tenth_is (height k : Z) : bool :=
  let x := mul (dbl height) 0.1%float in
  leb (dbl k) x && ltb x (dbl (k + 1)).

(** [totalDiff / len]: both operands are integers held exactly, the
    quotient is rounded to the nearest double; [0 / 0] is [NaN]. *)
Definition div_len (totalDiff : Z) (len : nat) : float :=
  div (dbl totalDiff) (dbl (Z.of_nat len)).

(** calculatePixelDifference of the analysis module, as the double it
    returns. *)
Definition calculatePixelDifference (pixels1 pixels2 : list Z) : float :=
  let len := Nat.min (length pixels1) (length pixels2) in
  let totalDiff := squaredDiffLoop pixels1 pixels2 len in
  div_len totalDiff len.

(** The inline copy of content.js, as the double it returns. *)
Module ContentJs.

Definition calculatePixelDifference (pixels1 pixels2 : list Z) : float :=
  let len := Nat.min (length pixels1) (length pixels2) in
  let totalDiff := ContentJs.absDiffLoop pixels1 pixels2 len in
  div_len totalDiff len.

End ContentJs.

End Double.

(** ** Sign of a double

    The doubles that the scoring produces have a clear sign bit and are
    not [NaN]: [+0], a positive number or [+Infinity].  [unsigned] says so
    of the IEEE 754 datum, [nonneg] of the primitive number. *)

Module Binary64.

Definition unsigned (x : SpecFloat.spec_float) : Prop :=
  match x with
  | SpecFloat.S754_zero s
  | SpecFloat.S754_infinity s
  | SpecFloat.S754_finite s _ _ => s = false
  | SpecFloat.S754_nan => False
  end.

Definition nonneg (x : float) : Prop := unsigned (FloatOps.Prim2SF x).

End Binary64.

(** ** getEdgePixels *)

(** What the analysis reads of an image element: its natural size and, for
    a row [y], the bytes [ctx.getImageData(0, y, width, 1).data] (RGBA,
    four per pixel). *)
Record Image : Type := mkImage {
  naturalWidth : Z;
  naturalHeight : Z;
  getImageData : Z -> list Z
}.

Record EdgeSignature : Type := mkEdge {
  topPixels : list Z;
  bottomPixels : list Z;
  topY : Z;
  bottomY : Z;
  hasBlankTop : bool;
  hasBlankBottom : bool
}.

(** [Math.min(Math.floor(height * 0.1), 50)]; for a height that is a
    non-negative integer the floor of the product is the integer quotient
    by ten. *)
Definition maxLetterboxRows (height : Z) : Z := Z.min (height / 10) 50.

(** The top scan, [count] iterations before [y] reaches the window's end:
    a non-blank row is recorded and ends the loop, a blank one moves
    [topY] past it. *)
Fixpoint scanTop (img : Image) (count : nat) (y topY : Z) : Z :=
  match count with
  | O => topY
  | S count' =>
      if negb (isRowBlank (getImageData img y)) then y
      else scanTop img count' (y + 1) (y + 1)
  end.

(** The bottom scan, going up from the last row. *)
Fixpoint scanBottom (img : Image) (count : nat) (y bottomY : Z) : Z :=
  match count with
  | O => bottomY
  | S count' =>
      if negb (isRowBlank (getImageData img y)) then y
      else scanBottom img count' (y - 1) (y - 1)
  end.

(** Sampling: [for (i = 0; i < data.length; i += 40)] pushes the three
    colour components found at [i]. *)
Equations samplePixels_from (rowData : list Z) (i : nat) : list Z
    by wf (length rowData - i)%nat lt :=
  samplePixels_from rowData i with decide (i < length rowData)%nat := {
    | left _ =>
        [rowData !!! i; rowData !!! (i + 1)%nat; rowData !!! (i + 2)%nat]
          ++ samplePixels_from rowData (i + 40)%nat;
    | right _ => [] }.
Next Obligation. lia. Qed.

Definition samplePixels (rowData : list Z) : list Z :=
  samplePixels_from rowData 0.

Definition getEdgePixels (img : Image) : EdgeSignature :=
  let height := naturalHeight img in
  let maxRows := maxLetterboxRows height in
  let topY := scanTop img (Z.to_nat maxRows) 0 0 in
  let hasBlankTop := 0 <? topY in
  let bottomY := scanBottom img (Z.to_nat maxRows) (height - 1) (height - 1) in
  let hasBlankBottom := bottomY <? height - 1 in
  {| topPixels := samplePixels (getImageData img topY);
     bottomPixels := samplePixels (getImageData img bottomY);
     topY := topY;
     bottomY := bottomY;
     hasBlankTop := hasBlankTop;
     hasBlankBottom := hasBlankBottom |}.

(** ** getPermutations *)

Section Permutations.
Context {A : Type}.

(** [arr.slice(0, i).concat(arr.slice(i + 1))] *)
Definition removeAt (arr : list A) (i : nat) : list A :=
  take i arr ++ drop (S i) arr.

(** The recursion is on a shorter array each time; [fuel] bounds its
    depth and [getPermutations] supplies the length of the array, which
    is never used up (lemma [getPermutations_fuel_enough]). *)
Fixpoint getPermutations_fuel (fuel : nat) (arr : list A) : list (list A) :=
  if (length arr <=? 1)%nat then [arr]
  else
    match fuel with
    | O => [arr]
    | S fuel' =>
        foldl
          (fun result i =>
             match arr !! i with
             | Some current =>
                 let remaining := removeAt arr i in
                 let remainingPerms := getPermutations_fuel fuel' remaining in
                 foldl (fun result perm => result ++ [current :: perm])
                   result remainingPerms
             | None => result
             end)
          [] (seq 0 (length arr))
    end.

Definition getPermutations (arr : list A) : list (list A) :=
  getPermutations_fuel (length arr) arr.

(** What one iteration of the outer loop appends to [result]. *)
Definition branch (fuel : nat) (arr : list A) (i : nat) : list (list A) :=
  match arr !! i with
  | Some current => map (cons current) (getPermutations_fuel fuel (removeAt arr i))
  | None => []
  end.
End Permutations.

(** ** findOptimalOrder *)

(** State of the classification loop. *)
Record Classification : Type := mkClass {
  firstIdx : Z;
  lastIdx : Z;
  floatingIndices : list Z
}.

(** [edgeData[i]]: [None] stands for [undefined], whose property reads
    throw. *)
Definition edgeAt (edgeData : list EdgeSignature) (i : Z) : option EdgeSignature :=
  if i <? 0 then None else edgeData !! Z.to_nat i.

Definition classifyStep (edgeData : list EdgeSignature)
    (st : option Classification) (i : Z) : option Classification :=
  c ← st;
  e ← edgeAt edgeData i;
  let hasBlankTop := hasBlankTop e in
  let hasBlankBottom := hasBlankBottom e in
  Some
    (if hasBlankTop && hasBlankBottom then
       mkClass (firstIdx c) (lastIdx c) (floatingIndices c ++ [i])
     else if hasBlankTop && negb hasBlankBottom then
       mkClass i (lastIdx c) (floatingIndices c)
     else if hasBlankBottom && negb hasBlankTop then
       mkClass (firstIdx c) i (floatingIndices c)
     else c).

Definition classify (edgeData : list EdgeSignature) : option Classification :=
  foldl (classifyStep edgeData) (Some (mkClass (-1) (-1) []))
    (seqZ 0 (Z.of_nat (length edgeData))).

(** [calculatePixelDifference(edgeData[i].bottomPixels, edgeData[j].topPixels)] *)
Definition pairDifference (edgeData : list EdgeSignature) (i j : Z) : option float :=
  ei ← edgeAt edgeData i;
  ej ← edgeAt edgeData j;
  Some (Double.calculatePixelDifference (bottomPixels ei) (topPixels ej)).

(** [floatingIndices.indexOf(i) === -1] *)
Definition notFloating (floating : list Z) (i : Z) : bool :=
  bool_decide (i ∉ floating).

Definition middleIndicesOf (n : nat) (c : Classification) : list Z :=
  foldl
    (fun middleIndices i =>
       if negb (i =? firstIdx c) && negb (i =? lastIdx c)
          && notFloating (floatingIndices c) i
       then middleIndices ++ [i] else middleIndices)
    [] (seqZ 0 (Z.of_nat n)).

Definition anchoredBaseOrder (edgeData : list EdgeSignature)
    (c : Classification) : option (list Z) :=
  let firstIdx := firstIdx c in
  let lastIdx := lastIdx c in
  let middleIndices := middleIndicesOf (length edgeData) c in
  match middleIndices with
  | [] => Some [firstIdx; lastIdx]
  | [m] => Some [firstIdx; m; lastIdx]
  | m0 :: m1 :: _ =>
      a1 ← pairDifference edgeData firstIdx m0;
      a2 ← pairDifference edgeData m0 m1;
      a3 ← pairDifference edgeData m1 lastIdx;
      let score1 := (a1 + a2 + a3)%float in
      b1 ← pairDifference edgeData firstIdx m1;
      b2 ← pairDifference edgeData m1 m0;
      b3 ← pairDifference edgeData m0 lastIdx;
      let score2 := (b1 + b2 + b3)%float in
      Some (if (score1 <=? score2)%float
            then [firstIdx; m0; m1; lastIdx]
            else [firstIdx; m1; m0; lastIdx])
  end.

Definition nonFloatingIndices (n : nat) (floating : list Z) : list Z :=
  foldl
    (fun indices i => if notFloating floating i then indices ++ [i] else indices)
    [] (seqZ 0 (Z.of_nat n)).

(** The inner loop [for (i = 0; i < perm.length - 1; i++)]. *)
Definition permutationScore (edgeData : list EdgeSignature) (perm : list Z)
    : option float :=
  foldl
    (fun totalDiff i =>
       t ← totalDiff;
       currentIdx ← perm !! Z.to_nat i;
       nextIdx ← perm !! Z.to_nat (i + 1);
       diff ← pairDifference edgeData currentIdx nextIdx;
       Some (t + diff)%float)
    (Some PrimFloat.zero) (seqZ 0 (Z.of_nat (length perm) - 1)).

(** The outer loop over the permutations, on the pair
    [(bestPermutation, bestScore)]. *)
Definition searchStep (edgeData : list EdgeSignature)
    (st : option (list Z * float)) (perm : list Z) : option (list Z * float) :=
  '(bestPermutation, bestScore) ← st;
  totalDiff ← permutationScore edgeData perm;
  Some (if (totalDiff <? bestScore)%float then (perm, totalDiff)
        else (bestPermutation, bestScore)).

Definition searchBest (edgeData : list EdgeSignature) (indices : list Z)
    : option (list Z * float) :=
  foldl (searchStep edgeData) (Some (indices, PrimFloat.infinity))
    (getPermutations indices).

(** Whether the anchored branch is entered. *)
Definition anchored (c : Classification) : bool :=
  negb (firstIdx c =? -1) && negb (lastIdx c =? -1)
  && negb (firstIdx c =? lastIdx c).

(** [finalOrder], computed from the edge data of the images. *)
Definition finalOrder (edgeData : list EdgeSignature) : option (list Z) :=
  c ← classify edgeData;
  if anchored c then
    baseOrder ← anchoredBaseOrder edgeData c;
    Some (baseOrder ++ floatingIndices c)
  else
    let indices := nonFloatingIndices (length edgeData) (floatingIndices c) in
    '(bestPermutation, _) ← searchBest edgeData indices;
    Some (bestPermutation ++ floatingIndices c).

(** [findOptimalOrder]: the images rearranged by [finalOrder]; an index
    outside the array would give [undefined] ([None]). *)
Definition findOptimalOrder (imageElements : list Image)
    : option (list (option Image)) :=
  let edgeData := map getEdgePixels imageElements in
  order ← finalOrder edgeData;
  Some (map (fun i => if i <? 0 then None else imageElements !! Z.to_nat i) order).



(** ** The classes of the specification

    FLOATING: blank on both edges; FIRST-candidate: blank top only;
    LAST-candidate: blank bottom only; MIDDLE: neither. *)

Definition isFloating (e : EdgeSignature) : bool :=
  hasBlankTop e && hasBlankBottom e.

Definition isFirstCandidate (e : EdgeSignature) : bool :=
  hasBlankTop e && negb (hasBlankBottom e).

Definition isLastCandidate (e : EdgeSignature) : bool :=
  negb (hasBlankTop e) && hasBlankBottom e.

(** The class test [f] applied to the signature at index [i]. *)
Definition flagAt (f : EdgeSignature -> bool) (edgeData : list EdgeSignature)
    (i : Z) : bool :=
  match edgeAt edgeData i with
  | Some e => f e
  | None => false
  end.

(** [idx] is the largest index below [k] that satisfies [q], or [-1] when
    there is none. *)
Definition latest (q : Z -> bool) (k idx : Z) : Prop :=
  (idx = -1 /\ forall i, 0 <= i < k -> q i = false)
  \/ (0 <= idx < k /\ q idx = true /\ forall i, idx < i < k -> q i = false).

(** ** The score of an order, as the specification words it

    The sum, over the consecutive pairs of the order taken from left to
    right, of the difference between the bottom fingerprint of the left
    image and the top fingerprint of the right one, in double precision;
    [None] when an index is outside the array. *)
Definition spec_totalScore (edgeData : list EdgeSignature) (order : list Z)
    : option float :=
  foldl
    (fun total pair =>
       t ← total;
       d ← pairDifference edgeData pair.1 pair.2;
       Some (t + d)%float)
    (Some PrimFloat.zero) (zip order (tail order)).

(** The score as a number, for orders on which no read fails. *)
Definition totalScore (edgeData : list EdgeSignature) (order : list Z) : float :=
  match permutationScore edgeData order with
  | Some s => s
  | None => PrimFloat.nan
  end.

(** The update of [(bestPermutation, bestScore)] for a scoring function
    [f] that cannot fail. *)
Definition bestStep (f : list Z -> float) (st : list Z * float) (perm : list Z)
    : list Z * float :=
  if (f perm <? st.2)%float then (perm, f perm) else st.

(** Both fingerprints of a signature hold at least one component. *)
Definition nonEmptyFingerprints (e : EdgeSignature) : Prop :=
  topPixels e <> [] /\ bottomPixels e <> [].

(** A fingerprint as it is sampled from a row of at least one pixel: it
    holds a component and, being a JavaScript array, fewer than [2^53] of
    them. *)
Definition properFingerprint (pixels : list Z) : Prop :=
  pixels <> [] /\ Z.of_nat (length pixels) < 2 ^ 53.

(** Every difference between two of the indices [indices] is a number:
    it is defined and is not [NaN]. *)
Definition numericDifferences (edgeData : list EdgeSignature) (indices : list Z)
    : Prop :=
  forall i j, i ∈ indices -> j ∈ indices ->
    exists d, pairDifference edgeData i j = Some d /\ PrimFloat.is_nan d = false.

(** ** Sample inputs *)

(** Two pixels whose colours are at distance exactly 35. *)
Definition rowAtTolerance : list Z := [10; 10; 10; 255; 10; 45; 10; 255].

(** A 20-row image, two pixels wide, whose first and last rows are of one
    colour and whose other rows are not. *)
Definition letterboxed : Image :=
  mkImage 2 20
    (fun y => if (y =? 0) || (y =? 19)
              then [0; 0; 0; 255; 0; 0; 0; 255]
              else [0; 0; 0; 255; 255; 255; 255; 255]).

(** Four signatures of which two qualify as first and two as last. *)
Definition twoFirstsTwoLasts : list EdgeSignature :=
  [ mkEdge [1; 1; 1] [2; 2; 2] 3 9 true false;
    mkEdge [3; 3; 3] [4; 4; 4] 2 9 true false;
    mkEdge [5; 5; 5] [6; 6; 6] 0 7 false true;
    mkEdge [7; 7; 7] [8; 8; 8] 0 5 false true ].

(** A signature with the given blank flags and fingerprints. *)
Definition signature (blankTop blankBottom : bool) (top bottom : list Z)
    : EdgeSignature :=
  mkEdge top bottom 0 0 blankTop blankBottom.

(** Scenario A: blank top only, no blank edge, blank bottom only. *)
Definition scenarioA : list EdgeSignature :=
  [ signature true false [9; 9; 9] [1; 2; 3];
    signature false false [1; 2; 3] [4; 5; 6];
    signature false true [4; 5; 6] [9; 9; 9] ].

(** Four images without blank edges whose best chain is 0, 3, 1, 2. *)
Definition scenarioB : list EdgeSignature :=
  [ signature false false [10; 10; 10] [20; 20; 20];
    signature false false [30; 30; 30] [40; 40; 40];
    signature false false [40; 40; 40] [90; 90; 90];
    signature false false [20; 20; 20] [30; 30; 30] ].

(** Scenario C: anchors at 0 and 2, floating images at 1 and 3. *)
Definition scenarioC : list EdgeSignature :=
  [ signature true false [9; 9; 9] [1; 2; 3];
    signature true true [1; 2; 3] [1; 2; 3];
    signature false true [1; 2; 3] [9; 9; 9];
    signature true true [7; 7; 7] [7; 7; 7] ].

(** Anchors at 0 and 3 with two middle images that chain better in the
    order 2, 1. *)
Definition twoMiddles : list EdgeSignature :=
  [ signature true false [9; 9; 9] [1; 1; 1];
    signature false false [2; 2; 2] [3; 3; 3];
    signature false false [1; 1; 1] [2; 2; 2];
    signature false true [3; 3; 3] [9; 9; 9] ].

(** Anchors at 0 and 4 with three middle images. *)
Definition threeMiddles : list EdgeSignature :=
  [ signature true false [9; 9; 9] [1; 1; 1];
    signature false false [1; 1; 1] [2; 2; 2];
    signature false false [2; 2; 2] [3; 3; 3];
    signature false false [3; 3; 3] [4; 4; 4];
    signature false true [4; 4; 4] [9; 9; 9] ].

(** Two images without blank edges, the first with empty fingerprints (an
    image of width zero and of height below ten). *)
Definition emptyFingerprint : list EdgeSignature :=
  [ signature false false [] [];
    signature false false [3; 3; 3] [4; 4; 4] ].

(** ** Further notions and sample inputs *)

(** Two rows that differ at most in their alpha bytes. *)
Definition sameColours (row1 row2 : list Z) : Prop :=
  length row1 = length row2
  /\ forall j, (j mod 4 <> 3)%nat -> row1 !! j = row2 !! j.

(** A row of eleven pixels whose pixel [k] has the colour [(k, k, k)]. *)
Definition elevenPixels : list Z :=
  flat_map (fun k => [Z.of_nat k; Z.of_nat k; Z.of_nat k; 255]) (seq 0 11).

(** A 30-row image, one pixel wide: every row is blank. *)
Definition blankStrip : Image := mkImage 1 30 (fun _ => [7; 7; 7; 255]).

(** A 9-row image whose rows are all of one colour. *)
Definition shortStrip : Image := mkImage 2 9 (fun _ => [0; 0; 0; 255; 0; 0; 0; 255]).

(** ** The inline analysis of content.js

    The older content script carries its own getEdgePixels (first and last
    row, no letterbox scan) and findOptimalOrder (exhaustive search over
    all indices, scored with the inline calculatePixelDifference).  Its
    sampling loop and its getPermutations are the same text as the
    module's. *)

Module Inline.

Record EdgePixels : Type := mkEdgePixels {
  topPixels : list Z;
  bottomPixels : list Z
}.

Definition getEdgePixels (img : Image) : EdgePixels :=
  let height := naturalHeight img in
  {| topPixels := samplePixels (getImageData img 0);
     bottomPixels := samplePixels (getImageData img (height - 1)) |}.

(** [edgeData[i]] *)
Definition edgeAt (edgeData : list EdgePixels) (i : Z) : option EdgePixels :=
  if i <? 0 then None else edgeData !! Z.to_nat i.

Definition pairDifference (edgeData : list EdgePixels) (i j : Z) : option float :=
  ei ← edgeAt edgeData i;
  ej ← edgeAt edgeData j;
  Some (Double.ContentJs.calculatePixelDifference (bottomPixels ei) (topPixels ej)).

(** [for (i = 0; i < imageElements.length; i++) indices.push(i)] *)
Definition allIndices (n : nat) : list Z :=
  foldl (fun indices i => indices ++ [i]) [] (seqZ 0 (Z.of_nat n)).

Definition permutationScore (edgeData : list EdgePixels) (perm : list Z)
    : option float :=
  foldl
    (fun totalDiff i =>
       t ← totalDiff;
       currentIdx ← perm !! Z.to_nat i;
       nextIdx ← perm !! Z.to_nat (i + 1);
       diff ← pairDifference edgeData currentIdx nextIdx;
       Some (t + diff)%float)
    (Some PrimFloat.zero) (seqZ 0 (Z.of_nat (length perm) - 1)).

Definition searchStep (edgeData : list EdgePixels)
    (st : option (list Z * float)) (perm : list Z) : option (list Z * float) :=
  '(bestPermutation, bestScore) ← st;
  totalDiff ← permutationScore edgeData perm;
  Some (if (totalDiff <? bestScore)%float then (perm, totalDiff)
        else (bestPermutation, bestScore)).

(** [bestPermutation] after the loop over all permutations. *)
Definition bestPermutation (edgeData : list EdgePixels) : option (list Z) :=
  let indices := allIndices (length edgeData) in
  '(best, _) ← foldl (searchStep edgeData) (Some (indices, PrimFloat.infinity))
                 (getPermutations indices);
  Some best.

Definition findOptimalOrder (imageElements : list Image)
    : option (list (option Image)) :=
  let edgeData := map getEdgePixels imageElements in
  best ← bestPermutation edgeData;
  Some (map (fun i => if i <? 0 then None else imageElements !! Z.to_nat i) best).

(** The score of an order as a number, for orders on which no read
    fails. *)
Definition totalScore (edgeData : list EdgePixels) (order : list Z) : float :=
  match permutationScore edgeData order with
  | Some s => s
  | None => PrimFloat.nan
  end.

(** The sum, from left to right and in double precision, of the inline
    differences over the consecutive pairs. *)
Definition spec_totalScore (edgeData : list EdgePixels) (order : list Z)
    : option float :=
  foldl
    (fun total pair =>
       t ← total;
       d ← pairDifference edgeData pair.1 pair.2;
       Some (t + d)%float)
    (Some PrimFloat.zero) (zip order (tail order)).

(** Every difference between two of the indices [indices] is a number. *)
Definition numericDifferences (edgeData : list EdgePixels) (indices : list Z)
    : Prop :=
  forall i j, i ∈ indices -> j ∈ indices ->
    exists d, pairDifference edgeData i j = Some d /\ PrimFloat.is_nan d = false.

End Inline.

(** Four inline fingerprints whose best chain is 0, 3, 1, 2. *)
Definition inlineChain : list Inline.EdgePixels :=
  [ Inline.mkEdgePixels [10; 10; 10] [20; 20; 20];
    Inline.mkEdgePixels [30; 30; 30] [40; 40; 40];
    Inline.mkEdgePixels [40; 40; 40] [90; 90; 90];
    Inline.mkEdgePixels [20; 20; 20] [30; 30; 30] ].

(** Anchors at 0 and 5 with four middle images. *)
Definition fourMiddles : list EdgeSignature :=
  [ signature true false [9; 9; 9] [1; 1; 1];
    signature false false [1; 1; 1] [2; 2; 2];
    signature false false [2; 2; 2] [3; 3; 3];
    signature false false [3; 3; 3] [4; 4; 4];
    signature false false [4; 4; 4] [5; 5; 5];
    signature false true [5; 5; 5] [9; 9; 9] ].

(** Three images without blank edges and with the same fingerprints, and
    one floating image. *)
Definition lookAlikes : list EdgeSignature :=
  [ signature false false [1; 2; 3] [4; 5; 6];
    signature true true [0; 0; 0] [0; 0; 0];
    signature false false [1; 2; 3] [4; 5; 6];
    signature false false [1; 2; 3] [4; 5; 6] ].

(** Four two-pixel-wide images of 20 rows: the first is blank at the top, the
    last at the bottom, the two in between nowhere. *)
Definition fourImages : list Image :=
  [ mkImage 2 20 (fun y => if y =? 0 then [0; 0; 0; 255; 0; 0; 0; 255]
                           else [0; 0; 0; 255; 90; 90; 90; 255]);
    mkImage 2 20 (fun _ => [0; 0; 0; 255; 90; 90; 90; 255]);
    mkImage 2 20 (fun _ => [5; 5; 5; 255; 95; 95; 95; 255]);
    mkImage 2 20 (fun y => if y =? 19 then [0; 0; 0; 255; 0; 0; 0; 255]
                           else [0; 0; 0; 255; 90; 90; 90; 255]) ].

(** Anchors at 0 and 3 and two middle images.  The exact sums of the
    two candidate orders are both 23/3; as doubles the first is
    [3 + 3 + 5/3 = 7.666666666666667] and the second
    [11/3 + 1 + 3 = 7.666666666666666]. *)
Definition roundedAnchors : list EdgeSignature :=
  [ signature true false [2; 2; 0] [0; 1; 0];
    signature false false [1; 3; 2] [0; 2; 1];
    signature false false [1; 0; 3] [2; 4; 1];
    signature false true [2; 3; 3] [4; 4; 4] ].

(** Three images without blank edges.  The orders 0, 2, 1 and 1, 2, 0 and
    2, 0, 1 all have the exact sum 47/3; as doubles the first is
    [15.666666666666668] and the other two are [15.666666666666666]. *)
Definition roundedChain : list EdgeSignature :=
  [ signature false false [5; 6; 0] [3; 3; 6];
    signature false false [4; 6; 2] [4; 2; 5];
    signature false false [3; 2; 0] [1; 5; 2] ].

(** Three inline fingerprints.  The orders 0, 1, 2 and 1, 0, 2 both have
    the exact sum 7/3; as doubles the first is [2.3333333333333335] and
    the second [2.333333333333333]. *)
Definition inlineRounded : list Inline.EdgePixels :=
  [ Inline.mkEdgePixels [4; 5; 1] [5; 0; 3];
    Inline.mkEdgePixels [5; 5; 2] [4; 2; 1];
    Inline.mkEdgePixels [4; 1; 1] [2; 2; 0] ].

(** ** The image address rewritten by combineImages

    [src.includes(p)], [src.split(p)[0]] for a non-empty [p], and the
    rewriting of the address to the large rendition. *)

Module Url.
Import Ascii String.
#[local] Open Scope string_scope.

Fixpoint includes (searchString s : string) : bool :=
  prefix searchString s
  || match s with
     | EmptyString => false
     | String _ s' => includes searchString s'
     end.

(** [s.split(separator)[0]]: what comes before the first occurrence of
    the separator, the whole string when there is none. *)
Fixpoint splitHead (separator s : string) : string :=
  if prefix separator s then EmptyString
  else match s with
       | EmptyString => EmptyString
       | String ch s' => String ch (splitHead separator s')
       end.

Definition largeImageUrl (src : string) : string :=
  if includes "&name=" src then
    splitHead "&name=" src ++ "&name=large"
  else if includes "?format=" src then
    splitHead "?" src ++ "?format=jpg&name=large"
  else src.

(** The character [ch] occurs in [s]. *)
Fixpoint occurs (ch : ascii) (s : string) : bool :=
  match s with
  | EmptyString => false
  | String x s' => if ascii_dec x ch then true else occurs ch s'
  end.

Definition smallAddress : string :=
  "https://pbs.twimg.com/media/Abc?format=jpg&name=small".

Definition formatOnlyAddress : string :=
  "https://pbs.twimg.com/media/Abc?format=png".

End Url.
(** * Properties *)

(** ** The pairwise difference metric *)

Section LoopSums.
Variables (g : Z -> Z -> Z) (a b : list Z).

Let loop (len : nat) : Z :=
  fold_left (fun acc i => acc + g (a !!! i) (b !!! i)) (seq 0 len) 0.

Let aligned (n : nat) : Z :=
  foldr Z.add 0 (zip_with g (take n a) (take n b)).

Lemma foldr_add_snoc (l : list Z) (x : Z) :
  foldr Z.add 0 (l ++ [x]) = foldr Z.add 0 l + x.
Proof. induction l as [|y l IH]; simpl; lia. Qed.

Lemma loop_aligned (n : nat) :
  (n <= length a)%nat -> (n <= length b)%nat -> loop n = aligned n.
Proof.
  subst loop aligned. induction n as [|n IH]; intros Ha Hb; [reflexivity|].
  destruct (lookup_lt_is_Some_2 a n) as [x Hx]; [lia|].
  destruct (lookup_lt_is_Some_2 b n) as [y Hy]; [lia|].
  rewrite seq_S, fold_left_app. simpl.
  rewrite IH by lia.
  rewrite (take_S_r a n x), (take_S_r b n y) by assumption.
  rewrite zip_with_app by (rewrite !length_take; lia).
  simpl. rewrite foldr_add_snoc.
  rewrite (list_lookup_total_correct a n x), (list_lookup_total_correct b n y)
    by assumption.
  reflexivity.
Qed.
End LoopSums.

Lemma squaredDiffLoop_spec (a b : list Z) (n : nat) :
  (n <= length a)%nat -> (n <= length b)%nat ->
  squaredDiffLoop a b n = spec_sumSquares n a b.
Proof.
  intros Ha Hb. unfold squaredDiffLoop, spec_sumSquares.
  exact (loop_aligned (fun x y => (x - y) * (x - y)) a b n Ha Hb).
Qed.

Lemma absDiffLoop_spec (a b : list Z) (n : nat) :
  (n <= length a)%nat -> (n <= length b)%nat ->
  ContentJs.absDiffLoop a b n = spec_sumAbs n a b.
Proof.
  intros Ha Hb. unfold ContentJs.absDiffLoop, spec_sumAbs.
  exact (loop_aligned (fun x y => Z.abs (x - y)) a b n Ha Hb).
Qed.

(** C8, corrected statement: with [n = min(len a, len b) > 0], calculatePixelDifference
    is the sum of the squared differences of the first [n] aligned
    components divided by [n], whereas the inline copy of content.js is the
    sum of their absolute differences divided by [n]. *)
Theorem calculatePixelDifference_mean (a b : list Z) :
  let n := Nat.min (length a) (length b) in
  (0 < n)%nat ->
  calculatePixelDifference a b = Fin (spec_sumSquares n a b # Pos.of_nat n)
  /\ ContentJs.calculatePixelDifference a b
     = Fin (spec_sumAbs n a b # Pos.of_nat n).
Proof.
  intros n Hn.
  unfold calculatePixelDifference, ContentJs.calculatePixelDifference.
  fold n.
  rewrite squaredDiffLoop_spec, absDiffLoop_spec by (subst n; lia).
  destruct n; [lia|]. split; reflexivity.
Qed.

Lemma calculatePixelDifference_mean_witness :
  calculatePixelDifference [10; 20; 30] [13; 20; 26; 7] = Fin (25 # 3)
  /\ ContentJs.calculatePixelDifference [10; 20; 30] [13; 20; 26; 7] = Fin (7 # 3).
Proof.
  apply (calculatePixelDifference_mean [10; 20; 30] [13; 20; 26; 7]).
  simpl. lia.
Defined.

(** Counterexample to C8 as the specification has it: on one component
    differing by two, the module returns 4 and the inline copy 2. *)
Lemma inline_copy_differs :
  calculatePixelDifference [0] [2] = Fin (4 # 1)
  /\ ContentJs.calculatePixelDifference [0] [2] = Fin (2 # 1)
  /\ ContentJs.calculatePixelDifference [0] [2] <> calculatePixelDifference [0] [2]
  /\ ltb (ContentJs.calculatePixelDifference [0] [2])
         (calculatePixelDifference [0] [2]) = true.
Proof. repeat split; try reflexivity. discriminate. Qed.

(** C9, corrected statement: when one of the two arrays is empty the function
    divides zero by zero and returns [NaN]; there is no guard. *)
Theorem calculatePixelDifference_empty (a b : list Z) :
  Nat.min (length a) (length b) = 0%nat ->
  calculatePixelDifference a b = NaN
  /\ calculatePixelDifference a b = div_len 0 0.
Proof.
  intros Hn. unfold calculatePixelDifference. rewrite Hn. split; reflexivity.
Qed.

Lemma calculatePixelDifference_empty_witness :
  calculatePixelDifference [] [255; 0; 0] = NaN
  /\ calculatePixelDifference [] [255; 0; 0] = div_len 0 0.
Proof. apply (calculatePixelDifference_empty [] [255; 0; 0]). reflexivity. Defined.

(** Counterexample to C9 as the specification has it: the score of an empty fingerprint against
    a non-empty one is the quotient [0 / 0], which is [NaN], compares
    false with everything and is equal to no score. *)
Lemma empty_fingerprint_is_nan :
  is_nan (calculatePixelDifference [] [255; 0; 0]) = true
  /\ ~ finite (calculatePixelDifference [] [255; 0; 0])
  /\ leb (calculatePixelDifference [] [255; 0; 0])
         (calculatePixelDifference [] [255; 0; 0]) = false.
Proof. repeat split. intros H. exact H. Qed.

(** ** The blank-row test *)

Lemma root_gtb_real (s t : Z) :
  0 <= s -> 0 <= t ->
  root_gtb (Root s) t = true <-> (IZR t < sqrt (IZR s))%R.
Proof.
  intros Hs Ht. unfold root_gtb.
  destruct (Z.ltb_spec t 0) as [Hneg|_]; [lia|].
  assert (Hsq : sqrt (IZR (t * t)) = IZR t).
  { rewrite mult_IZR. apply sqrt_square. apply IZR_le. assumption. }
  rewrite Z.ltb_lt. split.
  - intros Hlt. rewrite <- Hsq. apply sqrt_lt_1_alt. split.
    + apply IZR_le. nia.
    + apply IZR_lt. assumption.
  - intros Hlt. rewrite <- Hsq in Hlt. apply sqrt_lt_0_alt in Hlt.
    apply lt_IZR. assumption.
Qed.

Lemma squaredDistance_nonneg (p q : Z * Z * Z) : 0 <= squaredDistance p q.
Proof.
  destruct p as [[r1 g1] b1], q as [[r2 g2] b2]. unfold squaredDistance.
  pose proof (Z.square_nonneg (r1 - r2)).
  pose proof (Z.square_nonneg (g1 - g2)).
  pose proof (Z.square_nonneg (b1 - b2)).
  lia.
Qed.

(** On a row of [w] whole pixels every read of the loop is inside the
    array and the distance is the one between pixel [0] and pixel [k]. *)
Lemma colorDistance_pixels (rowData : list Z) (w k : nat) :
  length rowData = (4 * w)%nat -> (k < w)%nat ->
  colorDistance (rowData !! 0%nat) (rowData !! 1%nat) (rowData !! 2%nat)
    (rowData !! (4 * k)%nat) (rowData !! (4 * k + 1)%nat)
    (rowData !! (4 * k + 2)%nat)
  = Root (squaredDistance (pixelAt rowData 0) (pixelAt rowData k)).
Proof.
  intros Hlen Hk. unfold pixelAt.
  assert (Hin : forall j, (j < 4 * w)%nat ->
            rowData !! j = Some (rowData !!! j)).
  { intros j Hj. apply list_lookup_lookup_total_lt. lia. }
  rewrite !Hin by lia. simpl. reflexivity.
Qed.

Lemma isRowBlank_from_forallb (rowData : list Z) (w n k0 : nat) :
  length rowData = (4 * w)%nat -> (k0 + n = w)%nat ->
  isRowBlank_from rowData (rowData !! 0%nat) (rowData !! 1%nat)
    (rowData !! 2%nat) (4 * k0)
  = forallb (fun k => negb (exceeds rowData k)) (seq k0 n).
Proof.
  intros Hlen. revert k0. induction n as [|n IH]; intros k0 Hk.
  - simp isRowBlank_from.
    destruct (decide (4 * k0 < length rowData)%nat) as [Hlt|Hge]; [lia|].
    reflexivity.
  - simp isRowBlank_from.
    destruct (decide (4 * k0 < length rowData)%nat) as [Hlt|Hge]; [|lia].
    change (seq k0 (S n)) with (k0 :: seq (S k0) n).
    cbn [forallb isRowBlank_from_unfold_clause_1]. unfold exceeds at 1.
    destruct (root_gtb _ BLANK_TOLERANCE); cbn [negb andb]; [reflexivity|].
    replace (4 * k0 + 4)%nat with (4 * S k0)%nat by lia.
    apply IH. lia.
Qed.

Lemma isRowBlank_forallb (rowData : list Z) (w : nat) :
  length rowData = (4 * w)%nat ->
  isRowBlank rowData = forallb (fun k => negb (exceeds rowData k)) (seq 1 (w - 1)).
Proof.
  intros Hlen. unfold isRowBlank.
  destruct w as [|w].
  - simp isRowBlank_from.
    destruct (decide (4 < length rowData)%nat) as [Hlt|Hge]; [lia|reflexivity].
  - change 4%nat with (4 * 1)%nat at 1.
    apply (isRowBlank_from_forallb rowData (S w)); [assumption|lia].
Qed.

Lemma exceeds_real (rowData : list Z) (w k : nat) :
  length rowData = (4 * w)%nat -> (k < w)%nat ->
  exceeds rowData k = true
  <-> (IZR BLANK_TOLERANCE
       < spec_distance (pixelAt rowData 0) (pixelAt rowData k))%R.
Proof.
  intros Hlen Hk. unfold exceeds, spec_distance.
  rewrite (colorDistance_pixels rowData w k Hlen Hk).
  apply root_gtb_real; [apply squaredDistance_nonneg | unfold BLANK_TOLERANCE; lia].
Qed.

Lemma spec_distance_self (p : Z * Z * Z) : spec_distance p p = 0%R.
Proof.
  unfold spec_distance. destruct p as [[r g] b]. simpl.
  replace ((r - r) * (r - r) + (g - g) * (g - g) + (b - b) * (b - b)) with 0
    by lia.
  apply sqrt_0.
Qed.

(** The row is blank exactly when no pixel is further than the tolerance
    from the first one. *)
Lemma isRowBlank_true_iff (rowData : list Z) (w : nat) :
  length rowData = (4 * w)%nat ->
  isRowBlank rowData = true
  <-> forall k, (k < w)%nat ->
      (spec_distance (pixelAt rowData 0) (pixelAt rowData k) <= 35)%R.
Proof.
  intros Hlen. rewrite (isRowBlank_forallb rowData w Hlen), forallb_forall. split.
  - intros Hall k Hk.
    destruct (Nat.eq_dec k 0%nat) as [->|Hk0].
    { rewrite spec_distance_self. lra. }
    apply Rnot_lt_le. intros Hgt.
    apply (exceeds_real rowData w k Hlen Hk) in Hgt.
    specialize (Hall k). rewrite Hgt in Hall.
    assert (Hin : In k (seq 1 (w - 1))) by (apply in_seq; lia).
    specialize (Hall Hin). discriminate.
  - intros Hall k Hin. apply in_seq in Hin.
    destruct (exceeds rowData k) eqn:Hex; [|reflexivity].
    apply (exceeds_real rowData w k Hlen) in Hex; [|lia].
    specialize (Hall k ltac:(lia)). unfold BLANK_TOLERANCE in Hex. lra.
Qed.

(** C7: on a row of [w] RGBA pixels, isRowBlank answers true exactly when
    every pixel is at Euclidean distance at most 35 from the first one, and
    false exactly when some pixel is at distance strictly above 35; so a
    pixel at distance exactly 35 does not break the test. *)
Theorem isRowBlank_iff (rowData : list Z) (w : nat) :
  length rowData = (4 * w)%nat ->
  (isRowBlank rowData = true
   <-> forall k, (k < w)%nat ->
       (spec_distance (pixelAt rowData 0) (pixelAt rowData k) <= 35)%R)
  /\ (isRowBlank rowData = false
      <-> exists k, (k < w)%nat /\
          (35 < spec_distance (pixelAt rowData 0) (pixelAt rowData k))%R).
Proof.
  intros Hlen. split; [apply (isRowBlank_true_iff rowData w Hlen)|].
  rewrite (isRowBlank_forallb rowData w Hlen).
  rewrite <- Bool.not_true_iff_false, forallb_forall. split.
  - intros Hnot.
    destruct (existsb (exceeds rowData) (seq 1 (w - 1))) eqn:Hex.
    + apply existsb_exists in Hex. destruct Hex as (k & Hin & Hk).
      apply in_seq in Hin. exists k. split; [lia|].
      apply (exceeds_real rowData w k Hlen) in Hk; [|lia]. exact Hk.
    + exfalso. apply Hnot. intros k Hin.
      destruct (exceeds rowData k) eqn:Hk; [|reflexivity].
      assert (existsb (exceeds rowData) (seq 1 (w - 1)) = true) as Habs.
      { apply existsb_exists. exists k. split; assumption. }
      congruence.
  - intros (k & Hk & Hgt) Hall.
    destruct (Nat.eq_dec k 0%nat) as [->|Hk0].
    { rewrite spec_distance_self in Hgt. lra. }
    apply (exceeds_real rowData w k Hlen Hk) in Hgt.
    specialize (Hall k). rewrite Hgt in Hall.
    assert (Hin : In k (seq 1 (w - 1))) by (apply in_seq; lia).
    specialize (Hall Hin). discriminate.
Qed.

Lemma isRowBlank_iff_witness :
  (isRowBlank rowAtTolerance = true
   <-> forall k, (k < 2)%nat ->
       (spec_distance (pixelAt rowAtTolerance 0)
          (pixelAt rowAtTolerance k) <= 35)%R)
  /\ (isRowBlank rowAtTolerance = false
      <-> exists k, (k < 2)%nat /\
          (35 < spec_distance (pixelAt rowAtTolerance 0)
                  (pixelAt rowAtTolerance k))%R).
Proof. apply (isRowBlank_iff rowAtTolerance 2). reflexivity. Defined.

(** The boundary: squared distance 1225 (distance exactly 35) is blank,
    squared distance 1226 is not. *)
Example isRowBlank_at_tolerance :
  isRowBlank rowAtTolerance = true.
Proof. reflexivity. Qed.

Example isRowBlank_above_tolerance :
  isRowBlank [0; 0; 0; 255; 35; 1; 0; 255] = false.
Proof. reflexivity. Qed.

(** X24: a row of identical pixels is blank, whatever its width and its
    colour. *)
Lemma isRowBlank_uniform (r g b a : Z) (w : nat) :
  isRowBlank (concat (replicate w [r; g; b; a])) = true.
Proof.
  set (rowData := concat (replicate w [r; g; b; a])).
  assert (Hlen : length rowData = (4 * w)%nat).
  { subst rowData. induction w as [|w IH]; simpl in *; [reflexivity|].
    rewrite IH. lia. }
  assert (Hpix : forall k, (k < w)%nat -> pixelAt rowData k = (r, g, b)).
  { subst rowData. clear Hlen. induction w as [|w IH]; intros k Hk; [lia|].
    destruct k as [|k]; [reflexivity|].
    unfold pixelAt in *. specialize (IH k ltac:(lia)).
    replace (4 * S k)%nat with (S (S (S (S (4 * k))))) by lia.
    simpl replicate. simpl concat. simpl.
    replace (k + (k + (k + (k + 0))))%nat with (4 * k)%nat by lia.
    exact IH. }
  apply (isRowBlank_true_iff rowData w Hlen). intros k Hk.
  rewrite (Hpix k Hk).
  destruct w as [|w]; [lia|]. rewrite (Hpix 0%nat) by lia.
  rewrite spec_distance_self. lra.
Qed.

(** ** Doubles agree with the integer model *)

Lemma all_from_spec (P : Z -> bool) (count : nat) :
  forall z, Double.all_from P z count = true ->
  forall x, z <= x < z + Z.of_nat count -> P x = true.
Proof.
  induction count as [|count IH]; intros z Hall x Hx; [lia|].
  simpl in Hall. apply andb_true_iff in Hall. destruct Hall as [Hz Hrest].
  destruct (Z.eq_dec x z) as [->|Hne]; [assumption|].
  apply (IH (z + 1) Hrest). lia.
Qed.

(** X25: for every radicand that three byte differences can produce, the test
    [Math.sqrt(s) > 35] evaluated in binary64 is the integer test
    [35 * 35 < s]. *)
Lemma double_sqrt_threshold (s : Z) :
  0 <= s <= 3 * (255 * 255) ->
  Double.sqrt_gt_tolerance s = root_gtb (Root s) BLANK_TOLERANCE.
Proof.
  intros Hs. apply Bool.eqb_prop.
  apply (all_from_spec
           (fun s => Bool.eqb (Double.sqrt_gt_tolerance s)
                       (root_gtb (Root s) BLANK_TOLERANCE))
           (Z.to_nat 195076) 0); [vm_compute; reflexivity | lia].
Qed.

(** For every height below 100000, [Math.floor(height * 0.1)] evaluated in
    binary64 is the integer quotient [height / 10]. *)
Lemma double_floor_tenth (height : Z) :
  0 <= height < 100000 ->
  Double.floor_tenth_is height (height / 10) = true.
Proof.
  intros Hh.
  apply (all_from_spec (fun h => Double.floor_tenth_is h (h / 10))
           (Z.to_nat 100000) 0); [vm_compute; reflexivity | lia].
Qed.

(** ** The letterbox scan *)

Section Scan.
Variable img : Image.

Let blank (y : Z) : bool := isRowBlank (getImageData img y).

Lemma scanTop_spec (count : nat) :
  forall y,
    let r := scanTop img count y y in
    y <= r <= y + Z.of_nat count
    /\ (forall y', y <= y' < r -> blank y' = true)
    /\ (r < y + Z.of_nat count -> blank r = false).
Proof.
  induction count as [|count IH]; intros y; cbn zeta.
  - simpl. repeat split; intros; lia.
  - cbn [scanTop]. fold (blank y).
    destruct (blank y) eqn:Hy; cbn [negb].
    + destruct (IH (y + 1)) as (Hr & Hbl & Hnb).
      split; [lia|]. split.
      * intros y' Hy'. destruct (Z.eq_dec y' y) as [->|Hne]; [assumption|].
        apply Hbl. lia.
      * intros Hlt. apply Hnb. lia.
    + split; [lia|]. split; [intros; lia | intros _; assumption].
Qed.

Lemma scanBottom_spec (count : nat) :
  forall y,
    let r := scanBottom img count y y in
    y - Z.of_nat count <= r <= y
    /\ (forall y', r < y' <= y -> blank y' = true)
    /\ (y - Z.of_nat count < r -> blank r = false).
Proof.
  induction count as [|count IH]; intros y; cbn zeta.
  - simpl. repeat split; intros; lia.
  - cbn [scanBottom]. fold (blank y).
    destruct (blank y) eqn:Hy; cbn [negb].
    + destruct (IH (y - 1)) as (Hr & Hbl & Hnb).
      split; [lia|]. split.
      * intros y' Hy'. destruct (Z.eq_dec y' y) as [->|Hne]; [assumption|].
        apply Hbl. lia.
      * intros Hlt. apply Hnb. lia.
    + split; [lia|]. split; [intros; lia | intros _; assumption].
Qed.
End Scan.

Lemma maxLetterboxRows_bounds (height : Z) :
  0 <= height ->
  0 <= maxLetterboxRows height <= 50 /\ 10 * maxLetterboxRows height <= height.
Proof.
  intros Hh. unfold maxLetterboxRows.
  pose proof (Z.div_pos height 10 Hh ltac:(lia)).
  pose proof (Z.mul_div_le height 10 ltac:(lia)).
  lia.
Qed.

(** C6: for an image of height [h >= 1] and window [W = min(h / 10, 50)]
    (the quotient [h / 10] being what [Math.floor(h * 0.1)] gives on
    doubles),
    the content-top row is the first non-blank row of rows [0 .. W-1], or
    [W] when they are all blank; the content-bottom row is the highest
    non-blank row of rows [h-W .. h-1], or [h-1-W] when they are all
    blank; hasBlankTop says that the content-top row is above 0 and
    hasBlankBottom that the content-bottom row is below [h-1]. *)
Theorem getEdgePixels_scan (img : Image) :
  1 <= naturalHeight img ->
  let h := naturalHeight img in
  let W := Z.min (h / 10) 50 in
  let blank := fun y => isRowBlank (getImageData img y) in
  let e := getEdgePixels img in
  maxLetterboxRows h = W
  /\ (h < 100000 -> Double.floor_tenth_is h (h / 10) = true)
  /\ (forall y, 0 <= y < W -> blank y = false ->
        (forall y', 0 <= y' < y -> blank y' = true) -> topY e = y)
  /\ ((forall y, 0 <= y < W -> blank y = true) -> topY e = W)
  /\ (forall y, h - W <= y <= h - 1 -> blank y = false ->
        (forall y', y < y' <= h - 1 -> blank y' = true) -> bottomY e = y)
  /\ ((forall y, h - W <= y <= h - 1 -> blank y = true) -> bottomY e = h - 1 - W)
  /\ (hasBlankTop e = true <-> 0 < topY e)
  /\ (hasBlankBottom e = true <-> bottomY e < h - 1).
Proof.
  intros Hh h W blank e.
  destruct (maxLetterboxRows_bounds h ltac:(subst h; lia)) as [HW _].
  fold W in HW. change (maxLetterboxRows h) with W in HW.
  assert (Hcount : Z.of_nat (Z.to_nat W) = W) by lia.
  pose proof (scanTop_spec img (Z.to_nat W) 0) as Htop.
  pose proof (scanBottom_spec img (Z.to_nat W) (h - 1)) as Hbot.
  cbn zeta in Htop, Hbot. rewrite Hcount in Htop, Hbot.
  change (scanTop img (Z.to_nat W) 0 0) with (topY e) in Htop.
  change (scanBottom img (Z.to_nat W) (h - 1) (h - 1)) with (bottomY e) in Hbot.
  destruct Htop as (Ht1 & Ht2 & Ht3). destruct Hbot as (Hb1 & Hb2 & Hb3).
  split; [reflexivity|].
  split; [intros Hbig; apply double_floor_tenth; subst h; lia|].
  split; [|split; [|split; [|split; [|split]]]].
  - intros y Hy Hnb Hbefore.
    destruct (Z.lt_trichotomy (topY e) y) as [Hlt|[Heq|Hgt]]; [|assumption|].
    + specialize (Ht3 ltac:(lia)). specialize (Hbefore (topY e) ltac:(lia)).
      fold (blank (topY e)) in Ht3. congruence.
    + specialize (Ht2 y ltac:(lia)). fold (blank y) in Ht2. congruence.
  - intros Hall.
    destruct (Z.eq_dec (topY e) W) as [Heq|Hne]; [assumption|].
    specialize (Ht3 ltac:(lia)). specialize (Hall (topY e) ltac:(lia)).
    fold (blank (topY e)) in Ht3. congruence.
  - intros y Hy Hnb Hafter.
    destruct (Z.lt_trichotomy (bottomY e) y) as [Hlt|[Heq|Hgt]]; [|assumption|].
    + specialize (Hb2 y ltac:(lia)). fold (blank y) in Hb2. congruence.
    + specialize (Hb3 ltac:(lia)). specialize (Hafter (bottomY e) ltac:(lia)).
      fold (blank (bottomY e)) in Hb3. congruence.
  - intros Hall.
    destruct (Z.eq_dec (bottomY e) (h - 1 - W)) as [Heq|Hne]; [assumption|].
    specialize (Hb3 ltac:(lia)). specialize (Hall (bottomY e) ltac:(lia)).
    fold (blank (bottomY e)) in Hb3. congruence.
  - subst e. unfold getEdgePixels. cbn [hasBlankTop topY]. apply Z.ltb_lt.
  - subst e. unfold getEdgePixels. cbn [hasBlankBottom bottomY]. apply Z.ltb_lt.
Qed.

Lemma getEdgePixels_scan_witness :
  topY (getEdgePixels letterboxed) = 1
  /\ bottomY (getEdgePixels letterboxed) = 18
  /\ hasBlankTop (getEdgePixels letterboxed) = true
  /\ hasBlankBottom (getEdgePixels letterboxed) = true.
Proof.
  destruct (getEdgePixels_scan letterboxed ltac:(simpl; lia))
    as (_ & _ & Htop & _ & Hbot & _ & Hbt & Hbb).
  assert (H1 : topY (getEdgePixels letterboxed) = 1).
  { apply Htop; [vm_compute; split; congruence | reflexivity |].
    intros y' Hy'. assert (y' = 0) as -> by lia. reflexivity. }
  assert (H2 : bottomY (getEdgePixels letterboxed) = 18).
  { apply Hbot; [vm_compute; split; congruence | reflexivity |].
    intros y' Hy'. assert (y' = 19) as -> by (simpl in Hy'; lia). reflexivity. }
  split; [exact H1|]. split; [exact H2|]. split.
  - apply Hbt. rewrite H1. lia.
  - apply Hbb. rewrite H2. simpl. lia.
Defined.

(** ** The row sampler *)

(** A row that holds at least one byte gives a fingerprint that is not
    empty; so an empty fingerprint can only come from an image of width
    zero. *)
Lemma samplePixels_nonempty (rowData : list Z) :
  rowData <> [] -> samplePixels rowData <> [].
Proof.
  intros Hne. unfold samplePixels. simp samplePixels_from.
  destruct (decide (0 < length rowData)%nat) as [Hlt|Hge].
  - cbn [samplePixels_from_unfold_clause_1 app]. discriminate.
  - destruct rowData; [contradiction | simpl in Hge; lia].
Qed.

Lemma samplePixels_empty : samplePixels [] = [].
Proof. reflexivity. Qed.

Lemma getEdgePixels_nonEmptyFingerprints (img : Image) :
  (forall y, getImageData img y <> []) ->
  nonEmptyFingerprints (getEdgePixels img).
Proof.
  intros Hrows. unfold nonEmptyFingerprints, getEdgePixels.
  cbn [topPixels bottomPixels]. split; apply samplePixels_nonempty, Hrows.
Qed.

(** ** Loops that push onto an array *)

Lemma foldl_ext_fun {A B : Type} (f g : A -> B -> A) (l : list B) :
  (forall a b, f a b = g a b) -> forall a, foldl f a l = foldl g a l.
Proof.
  intros Hfg. induction l as [|x l IH]; intros a; simpl; [reflexivity|].
  rewrite Hfg. apply IH.
Qed.

Lemma foldl_push_map {A B : Type} (g : B -> A) (l : list B) :
  forall acc, foldl (fun result x => result ++ [g x]) acc l = acc ++ map g l.
Proof.
  induction l as [|x l IH]; intros acc; simpl.
  - rewrite app_nil_r. reflexivity.
  - rewrite IH, <- app_assoc. reflexivity.
Qed.

Lemma foldl_push_flat_map {A B : Type} (h : B -> list A) (l : list B) :
  forall acc, foldl (fun result x => result ++ h x) acc l = acc ++ flat_map h l.
Proof.
  induction l as [|x l IH]; intros acc; simpl.
  - rewrite app_nil_r. reflexivity.
  - rewrite IH, <- app_assoc. reflexivity.
Qed.

Lemma foldl_push_filter {A : Type} (keep : A -> bool) (l : list A) :
  forall acc,
    foldl (fun result x => if keep x then result ++ [x] else result) acc l
    = acc ++ filter (fun x => keep x = true) l.
Proof.
  induction l as [|x l IH]; intros acc; simpl.
  - rewrite app_nil_r. reflexivity.
  - rewrite IH, filter_cons. destruct (keep x) eqn:Hx.
    + rewrite decide_True by reflexivity. rewrite <- app_assoc. reflexivity.
    + rewrite decide_False by discriminate. reflexivity.
Qed.

(** ** getPermutations *)

Section PermutationFacts.
Context {A : Type}.
Implicit Types (arr p : list A).

Lemma getPermutations_fuel_small fuel arr :
  (length arr <= 1)%nat -> getPermutations_fuel fuel arr = [arr].
Proof.
  intros Hlen. destruct fuel; simpl;
    destruct (Nat.leb_spec (length arr) 1); (reflexivity || lia).
Qed.

Lemma getPermutations_fuel_step fuel arr :
  (1 < length arr)%nat ->
  getPermutations_fuel (S fuel) arr
  = flat_map (branch fuel arr) (seq 0 (length arr)).
Proof.
  intros Hlen. cbn [getPermutations_fuel].
  destruct (Nat.leb_spec (length arr) 1) as [Hle|_]; [lia|].
  rewrite <- (app_nil_l (flat_map _ _)), <- foldl_push_flat_map.
  apply foldl_ext_fun. intros result i. unfold branch.
  destruct (arr !! i) as [current|]; [|rewrite app_nil_r; reflexivity].
  apply foldl_push_map.
Qed.

Lemma removeAt_length arr i :
  (i < length arr)%nat -> length (removeAt arr i) = (length arr - 1)%nat.
Proof.
  intros Hi. unfold removeAt.
  rewrite length_app, length_take, length_drop. lia.
Qed.

Lemma removeAt_perm arr i x :
  arr !! i = Some x -> arr ≡ₚ x :: removeAt arr i.
Proof.
  intros Hx. unfold removeAt.
  rewrite <- (take_drop_middle arr i x Hx) at 1.
  symmetry. apply Permutation_middle.
Qed.

(** The recursion never runs out of fuel: any two amounts that cover the
    length of the array give the same result. *)
Lemma getPermutations_fuel_enough fuel1 :
  forall fuel2 arr,
    (length arr <= fuel1)%nat -> (length arr <= fuel2)%nat ->
    getPermutations_fuel fuel1 arr = getPermutations_fuel fuel2 arr.
Proof.
  induction fuel1 as [|fuel1 IH]; intros fuel2 arr H1 H2.
  - rewrite !getPermutations_fuel_small by lia. reflexivity.
  - destruct (le_lt_dec (length arr) 1) as [Hle|Hgt].
    + rewrite !getPermutations_fuel_small by lia. reflexivity.
    + destruct fuel2 as [|fuel2]; [lia|].
      rewrite !getPermutations_fuel_step by assumption.
      apply flat_map_ext. intros i. unfold branch.
      destruct (arr !! i) as [current|] eqn:Hi; [|reflexivity].
      apply lookup_lt_Some in Hi.
      f_equal. apply IH; rewrite removeAt_length by assumption; lia.
Qed.

(** Hence the function satisfies the recursive equation of the source:
    for each index in turn, the element there in front of every
    permutation of the others. *)
Lemma getPermutations_unfold arr :
  (1 < length arr)%nat ->
  getPermutations arr
  = flat_map
      (fun i =>
         match arr !! i with
         | Some current => map (cons current) (getPermutations (removeAt arr i))
         | None => []
         end)
      (seq 0 (length arr)).
Proof.
  intros Hlen. unfold getPermutations.
  destruct (length arr) as [|n] eqn:Hn; [lia|].
  rewrite getPermutations_fuel_step by lia. rewrite Hn.
  apply flat_map_ext. intros i. unfold branch.
  destruct (arr !! i) as [current|] eqn:Hi; [|reflexivity].
  apply lookup_lt_Some in Hi. f_equal.
  apply getPermutations_fuel_enough; rewrite removeAt_length by lia; lia.
Qed.

Lemma getPermutations_small arr :
  (length arr <= 1)%nat -> getPermutations arr = [arr].
Proof. apply getPermutations_fuel_small. Qed.

Lemma getPermutations_fuel_length fuel :
  forall arr, (length arr <= fuel)%nat ->
  length (getPermutations_fuel fuel arr) = fact (length arr).
Proof.
  induction fuel as [|fuel IH]; intros arr Hfuel.
  - rewrite getPermutations_fuel_small by lia.
    destruct arr as [|x [|y arr]]; simpl in *; (reflexivity || lia).
  - destruct (le_lt_dec (length arr) 1) as [Hle|Hgt].
    + rewrite getPermutations_fuel_small by lia.
      destruct arr as [|x [|y arr]]; simpl in *; (reflexivity || lia).
    + rewrite getPermutations_fuel_step by assumption.
      rewrite flat_map_constant_length with (c := fact (length arr - 1)).
      * rewrite length_seq.
        destruct (length arr) as [|n]; [lia|].
        replace (S n - 1)%nat with n by lia. simpl. lia.
      * intros i Hi. apply in_seq in Hi. unfold branch.
        destruct (lookup_lt_is_Some_2 arr i ltac:(lia)) as [x Hx].
        rewrite Hx, length_map, IH by (rewrite removeAt_length; lia).
        rewrite removeAt_length by lia. reflexivity.
Qed.

Lemma getPermutations_fuel_head fuel :
  forall arr, (length arr <= fuel)%nat ->
  getPermutations_fuel fuel arr !! 0%nat = Some arr.
Proof.
  induction fuel as [|fuel IH]; intros arr Hfuel.
  - rewrite getPermutations_fuel_small by lia. reflexivity.
  - destruct (le_lt_dec (length arr) 1) as [Hle|Hgt].
    + rewrite getPermutations_fuel_small by lia. reflexivity.
    + rewrite getPermutations_fuel_step by assumption.
      destruct arr as [|x rest]; [simpl in Hgt; lia|].
      cbn [length seq flat_map]. unfold branch at 1. cbn [lookup list_lookup].
      change (removeAt (x :: rest) 0) with rest.
      specialize (IH rest ltac:(simpl in Hfuel; lia)).
      destruct (getPermutations_fuel fuel rest) as [|q qs]; [discriminate|].
      simpl in IH. injection IH as ->. reflexivity.
Qed.

Lemma getPermutations_fuel_sound fuel :
  forall arr p, (length arr <= fuel)%nat ->
  p ∈ getPermutations_fuel fuel arr -> p ≡ₚ arr.
Proof.
  induction fuel as [|fuel IH]; intros arr p Hfuel Hin.
  - rewrite getPermutations_fuel_small in Hin by lia.
    apply list_elem_of_singleton in Hin. subst p. reflexivity.
  - destruct (le_lt_dec (length arr) 1) as [Hle|Hgt].
    + rewrite getPermutations_fuel_small in Hin by lia.
      apply list_elem_of_singleton in Hin. subst p. reflexivity.
    + rewrite getPermutations_fuel_step in Hin by assumption.
      apply list_elem_of_In, in_flat_map in Hin.
      destruct Hin as (i & Hi & Hp). apply in_seq in Hi. unfold branch in Hp.
      destruct (arr !! i) as [x|] eqn:Hx; [|contradiction].
      apply in_map_iff in Hp. destruct Hp as (q & <- & Hq).
      rewrite (removeAt_perm arr i x Hx). apply Permutation_cons; [reflexivity|].
      apply IH; [rewrite removeAt_length; lia | apply list_elem_of_In, Hq].
Qed.

Lemma getPermutations_fuel_complete fuel :
  forall arr p, (length arr <= fuel)%nat ->
  p ≡ₚ arr -> p ∈ getPermutations_fuel fuel arr.
Proof.
  induction fuel as [|fuel IH]; intros arr p Hfuel Hperm.
  - rewrite getPermutations_fuel_small by lia.
    pose proof (Permutation_length Hperm) as Hlen.
    destruct arr as [|x [|y arr]]; simpl in *; try lia.
    + apply Permutation_nil_r in Hperm. subst p. apply list_elem_of_here.
  - destruct (le_lt_dec (length arr) 1) as [Hle|Hgt].
    + rewrite getPermutations_fuel_small by lia.
      destruct arr as [|x [|y arr]]; simpl in *; try lia.
      * apply Permutation_nil_r in Hperm. subst p. apply list_elem_of_here.
      * apply Permutation_singleton_r in Hperm. subst p. apply list_elem_of_here.
    + rewrite getPermutations_fuel_step by assumption.
      pose proof (Permutation_length Hperm) as Hlen.
      destruct p as [|x p']; [simpl in Hlen; lia|].
      assert (Hx : x ∈ arr).
      { rewrite <- Hperm. apply list_elem_of_here. }
      apply list_elem_of_lookup in Hx. destruct Hx as [i Hi].
      pose proof (lookup_lt_Some _ _ _ Hi) as Hlt.
      apply list_elem_of_In, in_flat_map. exists i. split.
      * apply in_seq. lia.
      * unfold branch. rewrite Hi. apply in_map. apply list_elem_of_In.
        apply IH; [rewrite removeAt_length; lia|].
        apply (Permutation_cons_inv (a := x)).
        rewrite Hperm. apply removeAt_perm. assumption.
Qed.
End PermutationFacts.

(** ** Index lists *)

Lemma StronglySorted_seqZ (m n : Z) : StronglySorted Z.lt (seqZ m n).
Proof.
  destruct (Z.le_gt_cases n 0) as [Hle|Hgt].
  { rewrite seqZ_nil by assumption. constructor. }
  rewrite <- (Z2Nat.id n) by lia.
  generalize (Z.to_nat n) as k. clear. intros k. revert m.
  induction k as [|k IH]; intros m.
  - rewrite seqZ_nil by lia. constructor.
  - rewrite seqZ_cons by lia. constructor.
    + replace (Z.pred (Z.of_nat (S k))) with (Z.of_nat k) by lia. apply IH.
    + apply Forall_seqZ. intros i Hi. lia.
Qed.

Lemma StronglySorted_filter {A : Type} (R : A -> A -> Prop) (P : A -> Prop)
    `{forall x, Decision (P x)} (l : list A) :
  StronglySorted R l -> StronglySorted R (filter P l).
Proof.
  induction 1 as [|x l Hl IH Hx]; [constructor|].
  rewrite filter_cons. destruct (decide (P x)); [|assumption].
  constructor; [assumption|].
  apply Forall_forall. intros y Hy. apply list_elem_of_filter in Hy.
  rewrite Forall_forall in Hx. apply Hx. tauto.
Qed.

(** C10: getPermutations returns [n!] arrays for an array of length [n],
    each a rearrangement of the array, the first being the array itself;
    in the fallback search the array is the ascending list of the
    non-floating indices, so the identity order is generated first. *)
Theorem getPermutations_spec {A : Type} (arr : list A) :
  length (getPermutations arr) = fact (length arr)
  /\ (forall p, p ∈ getPermutations arr -> p ≡ₚ arr)
  /\ getPermutations arr !! 0%nat = Some arr
  /\ (forall (n : nat) (floating : list Z),
        StronglySorted Z.lt (nonFloatingIndices n floating)
        /\ getPermutations (nonFloatingIndices n floating) !! 0%nat
           = Some (nonFloatingIndices n floating)).
Proof.
  unfold getPermutations. split; [|split; [|split]].
  - apply getPermutations_fuel_length. lia.
  - intros p. apply getPermutations_fuel_sound. lia.
  - apply getPermutations_fuel_head. lia.
  - intros n floating. split.
    + unfold nonFloatingIndices. rewrite foldl_push_filter. simpl.
      apply StronglySorted_filter, StronglySorted_seqZ.
    + apply getPermutations_fuel_head. lia.
Qed.

(** ** The classification scan *)

Lemma edgeAt_in_range (edgeData : list EdgeSignature) (i : Z) :
  0 <= i < Z.of_nat (length edgeData) ->
  exists e, edgeAt edgeData i = Some e.
Proof.
  intros Hi. unfold edgeAt.
  destruct (Z.ltb_spec i 0) as [Hneg|_]; [lia|].
  destruct (lookup_lt_is_Some_2 edgeData (Z.to_nat i) ltac:(lia)) as [e He].
  exists e. exact He.
Qed.

Lemma latest_hit (q : Z -> bool) (k : Z) :
  0 <= k -> q k = true -> latest q (k + 1) k.
Proof.
  intros Hk Hq. right. split; [lia|]. split; [assumption|]. intros i Hi. lia.
Qed.

Lemma latest_miss (q : Z -> bool) (k idx : Z) :
  q k = false -> latest q k idx -> latest q (k + 1) idx.
Proof.
  intros Hq [[-> Hnone]|(Hr & Hidx & Hafter)].
  - left. split; [reflexivity|]. intros i Hi.
    destruct (Z.eq_dec i k) as [->|Hne]; [assumption | apply Hnone; lia].
  - right. split; [lia|]. split; [assumption|]. intros i Hi.
    destruct (Z.eq_dec i k) as [->|Hne]; [assumption | apply Hafter; lia].
Qed.

(** The state of the scan after the first [k] indices. *)
Lemma classify_prefix (edgeData : list EdgeSignature) (k : nat) :
  (k <= length edgeData)%nat ->
  exists c,
    foldl (classifyStep edgeData) (Some (mkClass (-1) (-1) []))
      (seqZ 0 (Z.of_nat k)) = Some c
    /\ floatingIndices c
       = filter (fun i => flagAt isFloating edgeData i = true) (seqZ 0 (Z.of_nat k))
    /\ latest (flagAt isFirstCandidate edgeData) (Z.of_nat k) (firstIdx c)
    /\ latest (flagAt isLastCandidate edgeData) (Z.of_nat k) (lastIdx c).
Proof.
  induction k as [|k IH]; intros Hk.
  - exists (mkClass (-1) (-1) []). split; [reflexivity|]. split; [reflexivity|].
    split; left; (split; [reflexivity | intros; lia]).
  - destruct (IH ltac:(lia)) as (c & Hfold & Hfl & Hfirst & Hlast).
    destruct (edgeAt_in_range edgeData (Z.of_nat k) ltac:(lia)) as [e He].
    rewrite seqZ_S, foldl_app, Hfold, Z.add_0_l. cbn [foldl].
    unfold classifyStep. cbn [mbind option_bind]. rewrite He. cbn [mbind option_bind].
    rewrite filter_app, filter_cons, filter_nil.
    replace (Z.of_nat (S k)) with (Z.of_nat k + 1) by lia.
    assert (Hflag : forall f, flagAt f edgeData (Z.of_nat k) = f e).
    { intros f. unfold flagAt. rewrite He. reflexivity. }
    assert (HF : flagAt isFloating edgeData (Z.of_nat k)
                 = hasBlankTop e && hasBlankBottom e) by apply Hflag.
    assert (H1 : flagAt isFirstCandidate edgeData (Z.of_nat k)
                 = hasBlankTop e && negb (hasBlankBottom e)) by apply Hflag.
    assert (H2 : flagAt isLastCandidate edgeData (Z.of_nat k)
                 = negb (hasBlankTop e) && hasBlankBottom e) by apply Hflag.
    rewrite HF.
    destruct (hasBlankTop e), (hasBlankBottom e); cbn [andb negb] in *;
      eexists; (split; [reflexivity|]); cbn [floatingIndices firstIdx lastIdx].
    + rewrite decide_True by reflexivity. rewrite Hfl.
      split; [reflexivity|]. split; apply latest_miss; assumption.
    + rewrite decide_False by discriminate. rewrite app_nil_r.
      split; [assumption|]. split.
      * apply latest_hit; [lia | assumption].
      * apply latest_miss; assumption.
    + rewrite decide_False by discriminate. rewrite app_nil_r.
      split; [assumption|]. split.
      * apply latest_miss; assumption.
      * apply latest_hit; [lia | assumption].
    + rewrite decide_False by discriminate. rewrite app_nil_r.
      split; [assumption|]. split; apply latest_miss; assumption.
Qed.

Lemma classify_spec (edgeData : list EdgeSignature) :
  let N := Z.of_nat (length edgeData) in
  exists c,
    classify edgeData = Some c
    /\ floatingIndices c
       = filter (fun i => flagAt isFloating edgeData i = true) (seqZ 0 N)
    /\ latest (flagAt isFirstCandidate edgeData) N (firstIdx c)
    /\ latest (flagAt isLastCandidate edgeData) N (lastIdx c).
Proof. apply classify_prefix. lia. Qed.

(** C5: the scan always ends, and the anchor [firstIdx] it leaves is the
    largest index whose signature is blank at the top only ([-1] when
    there is none); likewise [lastIdx] is the largest index whose
    signature is blank at the bottom only. *)
Theorem classify_last_wins (edgeData : list EdgeSignature) :
  let N := Z.of_nat (length edgeData) in
  let first := flagAt isFirstCandidate edgeData in
  let last := flagAt isLastCandidate edgeData in
  exists c,
    classify edgeData = Some c
    /\ (forall i, 0 <= i < N -> first i = true ->
          first (firstIdx c) = true /\ i <= firstIdx c < N)
    /\ ((forall i, 0 <= i < N -> first i = false) -> firstIdx c = -1)
    /\ (forall i, 0 <= i < N -> last i = true ->
          last (lastIdx c) = true /\ i <= lastIdx c < N)
    /\ ((forall i, 0 <= i < N -> last i = false) -> lastIdx c = -1).
Proof.
  intros N first last.
  destruct (classify_spec edgeData) as (c & Hc & _ & Hfirst & Hlast).
  fold N in Hfirst, Hlast. fold first in Hfirst. fold last in Hlast.
  assert (Hgen : forall q idx, latest q N idx ->
            (forall i, 0 <= i < N -> q i = true ->
               q idx = true /\ i <= idx < N)
            /\ ((forall i, 0 <= i < N -> q i = false) -> idx = -1)).
  { intros q idx [[-> Hnone]|(Hr & Hq & Hafter)].
    - split; [|reflexivity]. intros i Hi Hqi. rewrite Hnone in Hqi by lia.
      discriminate.
    - split.
      + intros i Hi Hqi. split; [assumption|].
        destruct (Z.le_gt_cases i idx) as [Hle|Hgt]; [lia|].
        rewrite Hafter in Hqi by lia. discriminate.
      + intros Hnone. rewrite Hnone in Hq by lia. discriminate. }
  exists c. split; [assumption|].
  destruct (Hgen first (firstIdx c) Hfirst) as [Ha Hb].
  destruct (Hgen last (lastIdx c) Hlast) as [Hc' Hd].
  split; [exact Ha|]. split; [exact Hb|]. split; [exact Hc'|exact Hd].
Qed.

Lemma classify_last_wins_witness :
  exists c,
    classify twoFirstsTwoLasts = Some c
    /\ firstIdx c = 1 /\ lastIdx c = 3.
Proof.
  destruct (classify_last_wins twoFirstsTwoLasts) as (c & Hc & Hf & _ & Hl & _).
  exists c. split; [exact Hc|].
  destruct (Hf 1 ltac:(simpl; lia) eq_refl) as [Hf1 Hf2].
  destruct (Hl 3 ltac:(simpl; lia) eq_refl) as [Hl1 Hl2].
  simpl in Hf2, Hl2. split; [|lia].
  destruct (Z.eq_dec (firstIdx c) 1) as [Heq|Hne]; [exact Heq|].
  assert (firstIdx c = 2 \/ firstIdx c = 3) as [Heq|Heq] by lia;
    rewrite Heq in Hf1; discriminate.
Defined.

(** ** Binary64: comparisons, and what rounding preserves

    Facts on the primitive doubles, read off their IEEE 754 specification
    ([SpecFloat]): the order that [<] and [<=] define, and the sign of
    sums and quotients of non-negative numbers. *)

Module Binary64Facts.
Import PrimFloat SpecFloat FloatOps FloatAxioms Binary64 Double.

(** *** Comparisons *)

Lemma SFcompare_refl (x : spec_float) :
  x <> S754_nan -> SFcompare x x = Some Eq.
Proof.
  destruct x as [s|s| |s m e]; intros Hx; try contradiction; simpl.
  - reflexivity.
  - destruct s; reflexivity.
  - destruct s; rewrite Z.compare_refl;
      change (Pos.compare_cont Eq m m) with (Pos.compare m m);
      rewrite Pos.compare_refl; reflexivity.
Qed.

Ltac compare_cases :=
  repeat match goal with
  | |- context [Z.compare ?a ?b] => destruct (Z.compare_spec a b)
  | H : context [Z.compare ?a ?b] |- _ => destruct (Z.compare_spec a b)
  | |- context [Pos.compare_cont Eq ?a ?b] =>
      change (Pos.compare_cont Eq a b) with (Pos.compare a b);
      destruct (Pos.compare_spec a b)
  | H : context [Pos.compare_cont Eq ?a ?b] |- _ =>
      change (Pos.compare_cont Eq a b) with (Pos.compare a b) in H;
      destruct (Pos.compare_spec a b)
  end.

Lemma SFltb_trans (x y z : spec_float) :
  SFltb x y = true -> SFltb y z = true -> SFltb x z = true.
Proof.
  unfold SFltb.
  destruct x as [sx|sx| |sx mx ex], y as [sy|sy| |sy my ey], z as [sz|sz| |sz mz ez];
    simpl; try discriminate; try reflexivity;
    repeat match goal with s : bool |- _ => destruct s end;
    simpl; try discriminate; try reflexivity;
    compare_cases; simpl; try discriminate; try reflexivity; intros; subst; lia.
Qed.

Lemma SFltb_SFleb (x y : spec_float) : SFltb x y = true -> SFleb x y = true.
Proof.
  unfold SFltb, SFleb. destruct (SFcompare x y) as [[| |]|]; (reflexivity || discriminate).
Qed.

Lemma SFcompare_antisym (x y : spec_float) :
  SFcompare y x = match SFcompare x y with
                  | Some c => Some (CompOpp c)
                  | None => None
                  end.
Proof.
  destruct x as [sx|sx| |sx mx ex], y as [sy|sy| |sy my ey]; simpl; try reflexivity;
    repeat match goal with s : bool |- _ => destruct s end; simpl; try reflexivity;
    compare_cases; simpl; try reflexivity; subst; lia.
Qed.

Lemma SFltb_SFleb_false (x y : spec_float) : SFltb y x = true -> SFleb x y = false.
Proof.
  unfold SFltb, SFleb. rewrite (SFcompare_antisym x y).
  destruct (SFcompare x y) as [[| |]|]; simpl; (reflexivity || discriminate).
Qed.

Lemma SFltb_SFleb_trans (x y z : spec_float) :
  SFltb x y = true -> SFleb y z = true -> SFltb x z = true.
Proof.
  unfold SFltb, SFleb.
  destruct x as [sx|sx| |sx mx ex], y as [sy|sy| |sy my ey], z as [sz|sz| |sz mz ez];
    simpl; try discriminate; try reflexivity;
    repeat match goal with s : bool |- _ => destruct s end;
    simpl; try discriminate; try reflexivity;
    compare_cases; simpl; try discriminate; try reflexivity; intros; subst; lia.
Qed.

Lemma SFleb_trans (x y z : spec_float) :
  SFleb x y = true -> SFleb y z = true -> SFleb x z = true.
Proof.
  unfold SFleb.
  destruct x as [sx|sx| |sx mx ex], y as [sy|sy| |sy my ey], z as [sz|sz| |sz mz ez];
    simpl; try discriminate; try reflexivity;
    repeat match goal with s : bool |- _ => destruct s end;
    simpl; try discriminate; try reflexivity;
    compare_cases; simpl; try discriminate; try reflexivity; intros; subst; lia.
Qed.

Lemma SFcompare_defined (x y : spec_float) :
  x <> S754_nan -> y <> S754_nan -> exists c, SFcompare x y = Some c.
Proof.
  destruct x as [sx|sx| |sx mx ex], y as [sy|sy| |sy my ey]; intros Hx Hy;
    try contradiction; simpl; eexists; reflexivity.
Qed.

Lemma SFltb_false_SFleb (x y : spec_float) :
  x <> S754_nan -> y <> S754_nan -> SFltb x y = false -> SFleb y x = true.
Proof.
  unfold SFltb, SFleb. intros Hx Hy. rewrite (SFcompare_antisym x y).
  destruct (SFcompare_defined x y Hx Hy) as [c ->].
  destruct c; simpl; (reflexivity || discriminate).
Qed.


(** *** Rounding never produces [NaN] *)

Lemma iter_pos_preserves {A : Type} (P : A -> Prop) (f : A -> A) :
  (forall x, P x -> P (f x)) -> forall n x, P x -> P (iter_pos f n x).
Proof.
  intros Hf. induction n as [n IH|n IH|]; intros x Hx; simpl; auto.
Qed.

Lemma shr_1_nonneg (mrs : shr_record) : 0 <= shr_m mrs -> 0 <= shr_m (shr_1 mrs).
Proof.
  destruct mrs as [m r s]. simpl. destruct m as [|[p|p|]|[p|p|]]; simpl; lia.
Qed.

Lemma shr_fexp_nonneg (m e : Z) (l : location) :
  0 <= m -> 0 <= shr_m (fst (shr_fexp prec emax m e l)).
Proof.
  intros Hm. unfold shr_fexp, shr.
  assert (H0 : 0 <= shr_m (shr_record_of_loc m l)).
  { destruct l as [|[| |]]; simpl; exact Hm. }
  destruct (fexp prec emax (Zdigits2 m + e) - e) as [|p|p]; simpl; try exact H0.
  apply (iter_pos_preserves (fun mrs => 0 <= shr_m mrs)); [apply shr_1_nonneg | exact H0].
Qed.

Lemma round_nearest_even_nonneg (m : Z) (l : location) :
  0 <= m -> 0 <= round_nearest_even m l.
Proof.
  intros Hm. destruct l as [|[| |]]; simpl; try lia.
  destruct (Z.even m); lia.
Qed.

Lemma binary_round_aux_unsigned (m e : Z) (l : location) :
  0 <= m -> unsigned (binary_round_aux prec emax false m e l).
Proof.
  intros Hm. unfold binary_round_aux.
  pose proof (shr_fexp_nonneg m e l Hm) as H1.
  destruct (shr_fexp prec emax m e l) as [mrs1 e1]. simpl in H1.
  pose proof (shr_fexp_nonneg
                (round_nearest_even (shr_m mrs1) (loc_of_shr_record mrs1)) e1 loc_Exact
                (round_nearest_even_nonneg _ _ H1)) as H2.
  destruct (shr_fexp prec emax _ e1 loc_Exact) as [mrs2 e2]. simpl in H2.
  destruct (shr_m mrs2) as [|p|p]; [reflexivity | | lia].
  destruct (e2 <=? emax - prec); reflexivity.
Qed.

Lemma binary_normalize_unsigned (m e : Z) :
  0 <= m -> unsigned (binary_normalize prec emax m e false).
Proof.
  intros Hm. destruct m as [|p|p]; [reflexivity | | lia].
  unfold binary_normalize, binary_round.
  destruct (shl_align p e _) as [mz ez]. apply binary_round_aux_unsigned. lia.
Qed.

Lemma SFadd_unsigned (x y : spec_float) :
  unsigned x -> unsigned y -> unsigned (SFadd prec emax x y).
Proof.
  destruct x as [sx|sx| |sx mx ex], y as [sy|sy| |sy my ey]; simpl;
    intros Hx Hy; subst; try contradiction; try reflexivity.
  apply binary_normalize_unsigned. unfold cond_Zopp. lia.
Qed.

Lemma SFdiv_unsigned (x y : spec_float) :
  unsigned x -> unsigned y ->
  unsigned (SFdiv prec emax x y) \/ SFdiv prec emax x y = S754_nan.
Proof.
  destruct x as [sx|sx| |sx mx ex], y as [sy|sy| |sy my ey]; simpl;
    intros Hx Hy; subst; try contradiction; auto.
  left. unfold SFdiv_core_binary.
  match goal with |- context [Z.div_eucl ?a ?b] =>
    pose proof (Z_div_mod a b eq_refl) as Hdiv;
    assert (Ha : 0 <= a);
    [| destruct (Z.div_eucl a b) as [q r] eqn:E ] end.
  { match goal with |- 0 <= match ?s with _ => _ end => destruct s as [|p|p] eqn:Es end.
    - lia.
    - apply Z.shiftl_nonneg. lia.
    - lia. }
  simpl. apply binary_round_aux_unsigned.
  destruct Hdiv as [Hq Hr]. nia.
Qed.


Lemma SFdiv_by_positive (x : spec_float) (m : positive) (e : Z) :
  unsigned x -> unsigned (SFdiv prec emax x (S754_finite false m e)).
Proof.
  destruct x as [sx|sx| |sx mx ex]; simpl; intros Hx; subst;
    try contradiction; try reflexivity.
  unfold SFdiv_core_binary.
  match goal with |- context [Z.div_eucl ?a ?b] =>
    pose proof (Z_div_mod a b eq_refl) as Hdiv;
    assert (Ha : 0 <= a);
    [| destruct (Z.div_eucl a b) as [q r] eqn:E ] end.
  { match goal with |- 0 <= match ?s with _ => _ end => destruct s as [|p|p] eqn:Es end.
    - lia.
    - apply Z.shiftl_nonneg. lia.
    - lia. }
  simpl. apply binary_round_aux_unsigned.
  destruct Hdiv as [Hq Hr]. nia.
Qed.

(** *** A canonical number is its own rounding *)

Lemma binary_round_aux_canonical (s : bool) (m : positive) (e : Z) :
  bounded prec emax m e = true ->
  binary_round_aux prec emax s (Zpos m) e loc_Exact = S754_finite s m e.
Proof.
  unfold bounded, canonical_mantissa. intros Hb.
  apply andb_true_iff in Hb. destruct Hb as [Hc He].
  apply Z.eqb_eq in Hc.
  unfold binary_round_aux, shr_fexp. cbn [Zdigits2 shr_record_of_loc].
  rewrite Hc, Z.sub_diag. cbn [shr shr_m loc_of_shr_record round_nearest_even Zdigits2
                              shr_record_of_loc].
  rewrite Hc, Z.sub_diag. cbn [shr shr_m]. rewrite He. reflexivity.
Qed.

Lemma digits2_pos_iter (k p : positive) :
  digits2_pos (Pos.iter xO p k) = (digits2_pos p + k)%positive.
Proof.
  induction k as [|k IH] using Pos.peano_ind.
  - simpl. lia.
  - rewrite Pos.iter_succ. simpl. rewrite IH. lia.
Qed.

Lemma digits2_pos_bound (k : nat) :
  forall p, Zpos p < 2 ^ Z.of_nat k -> Zpos (digits2_pos p) <= Z.of_nat k.
Proof.
  induction k as [|k IH]; intros p Hp.
  - simpl in Hp. lia.
  - rewrite Nat2Z.inj_succ, Z.pow_succ_r in Hp by lia.
    destruct p as [p|p|]; simpl.
    + specialize (IH p). lia.
    + specialize (IH p). lia.
    + lia.
Qed.

(** An integer of at most 53 bits is converted without rounding. *)
Lemma binary_round_integer (p : positive) :
  Zpos p < 2 ^ 53 ->
  exists m e, binary_round prec emax false p 0 = S754_finite false m e.
Proof.
  intros Hp. pose proof (digits2_pos_bound 53 p Hp) as Hd.
  change (Z.of_nat 53) with 53 in Hd.
  unfold binary_round, shl_align.
  set (d := digits2_pos p) in *.
  assert (Hf : fexp prec emax (Zpos d + 0) = Zpos d - 53).
  { unfold fexp, SpecFloat.emin, prec, emax. lia. }
  rewrite Hf.
  destruct (Zpos d - 53 - 0) as [|q|q] eqn:Hq; try lia.
  - exists p, 0. apply binary_round_aux_canonical.
    unfold bounded, canonical_mantissa. fold d. rewrite Hf.
    apply andb_true_iff. split; [apply Z.eqb_eq; lia | reflexivity].
  - exists (Pos.iter xO p q), (Zpos d - 53). apply binary_round_aux_canonical.
    unfold bounded, canonical_mantissa. rewrite digits2_pos_iter. fold d.
    apply andb_true_iff. split.
    + apply Z.eqb_eq. unfold fexp, SpecFloat.emin, prec, emax. lia.
    + apply Z.leb_le. unfold prec, emax. lia.
Qed.

(** *** The same facts on primitive floats *)

Lemma is_nan_spec (x : float) : is_nan x = true <-> Prim2SF x = S754_nan.
Proof.
  unfold is_nan. rewrite eqb_spec, negb_true_iff. unfold SFeqb.
  destruct (Prim2SF x) as [s|s| |s m e] eqn:E.
  - simpl. split; discriminate.
  - destruct s; simpl; split; discriminate.
  - simpl. split; reflexivity.
  - rewrite SFcompare_refl by discriminate. split; discriminate.
Qed.

Lemma is_nan_false (x : float) : is_nan x = false <-> Prim2SF x <> S754_nan.
Proof.
  rewrite <- is_nan_spec. destruct (is_nan x); split; congruence.
Qed.

Lemma ltb_trans (x y z : float) :
  ltb x y = true -> ltb y z = true -> ltb x z = true.
Proof. rewrite !ltb_spec. apply SFltb_trans. Qed.

Lemma ltb_irrefl (x : float) : ltb x x = false.
Proof.
  rewrite ltb_spec. unfold SFltb.
  destruct (Prim2SF x) as [s|s| |s m e] eqn:E; try reflexivity.
  - destruct s; reflexivity.
  - rewrite SFcompare_refl by discriminate. reflexivity.
Qed.

Lemma ltb_leb (x y : float) : ltb x y = true -> leb x y = true.
Proof. rewrite ltb_spec, leb_spec. apply SFltb_SFleb. Qed.

Lemma ltb_leb_false (x y : float) : ltb y x = true -> leb x y = false.
Proof. rewrite ltb_spec, leb_spec. apply SFltb_SFleb_false. Qed.

Lemma ltb_leb_trans (x y z : float) :
  ltb x y = true -> leb y z = true -> ltb x z = true.
Proof. rewrite !ltb_spec, leb_spec. apply SFltb_SFleb_trans. Qed.

Lemma leb_trans (x y z : float) :
  leb x y = true -> leb y z = true -> leb x z = true.
Proof. rewrite !leb_spec. apply SFleb_trans. Qed.

Lemma not_ltb_leb (x y : float) :
  is_nan x = false -> is_nan y = false -> ltb x y = false -> leb y x = true.
Proof.
  rewrite !is_nan_false, ltb_spec, leb_spec. apply SFltb_false_SFleb.
Qed.

Lemma leb_refl (x : float) : is_nan x = false -> leb x x = true.
Proof.
  rewrite is_nan_false, leb_spec. intros Hx. unfold SFleb.
  rewrite SFcompare_refl by exact Hx. reflexivity.
Qed.

Lemma leb_nan_l (x y : float) : is_nan x = true -> leb x y = false.
Proof. rewrite is_nan_spec, leb_spec. intros ->. reflexivity. Qed.

Lemma leb_nan_r (x y : float) : is_nan y = true -> leb x y = false.
Proof.
  rewrite is_nan_spec, leb_spec. intros ->. unfold SFleb.
  destruct (Prim2SF x); reflexivity.
Qed.

Lemma eqb_leb (x y : float) : eqb x y = true -> leb x y = true.
Proof.
  rewrite eqb_spec, leb_spec. unfold SFeqb, SFleb.
  destruct (SFcompare _ _) as [[| |]|]; (reflexivity || discriminate).
Qed.

Lemma ltb_number (x y : float) :
  ltb x y = true -> is_nan x = false /\ is_nan y = false.
Proof.
  rewrite !is_nan_false, ltb_spec. unfold SFltb.
  destruct (Prim2SF x) as [sx|sx| |sx mx ex], (Prim2SF y) as [sy|sy| |sy my ey];
    simpl; intros H; try discriminate; split; discriminate.
Qed.

Lemma is_nan_infinity : is_nan infinity = false.
Proof. reflexivity. Qed.

Lemma leb_infinity (x : float) : is_nan x = false -> leb x infinity = true.
Proof.
  rewrite is_nan_false, leb_spec. change (Prim2SF infinity) with (S754_infinity false).
  destruct (Prim2SF x) as [s|s| |s m e]; intros Hx; try contradiction;
    try destruct s; reflexivity.
Qed.

Lemma nonneg_number (x : float) : nonneg x -> is_nan x = false.
Proof.
  unfold nonneg. rewrite is_nan_false. intros Hx E. rewrite E in Hx. exact Hx.
Qed.

Lemma nonneg_leb_zero (x : float) : nonneg x -> leb zero x = true.
Proof.
  unfold nonneg. rewrite leb_spec. change (Prim2SF zero) with (S754_zero false).
  destruct (Prim2SF x) as [s|s| |s m e]; simpl; intros Hx; subst;
    (reflexivity || contradiction).
Qed.

Lemma nonneg_zero : nonneg zero.
Proof. reflexivity. Qed.

Lemma nonneg_add (x y : float) : nonneg x -> nonneg y -> nonneg (add x y).
Proof. unfold nonneg. rewrite add_spec. apply SFadd_unsigned. Qed.

Lemma nonneg_dbl (z : Z) : nonneg (dbl z).
Proof.
  unfold nonneg, dbl. rewrite of_uint63_spec. apply binary_normalize_unsigned.
  apply Uint63.to_Z_bounded.
Qed.

Lemma nonneg_div (x y : float) :
  nonneg x -> nonneg y -> is_nan (div x y) = false -> nonneg (div x y).
Proof.
  unfold nonneg. rewrite is_nan_false, div_spec. intros Hx Hy Hn.
  destruct (SFdiv_unsigned _ _ Hx Hy) as [H|H]; [exact H | contradiction].
Qed.

(** A positive integer below [2^53] is a positive double. *)
Lemma dbl_positive (n : Z) :
  0 < n < 2 ^ 53 -> exists m e, Prim2SF (dbl n) = S754_finite false m e.
Proof.
  intros Hn. unfold dbl. rewrite of_uint63_spec, Uint63.of_Z_spec.
  rewrite Z.mod_small by (change Uint63.wB with (2 ^ 63); lia).
  destruct n as [|p|p]; try lia. apply binary_round_integer. lia.
Qed.

(** Dividing a non-negative number by a positive one gives a number. *)
Lemma div_by_positive (x y : float) (m : positive) (e : Z) :
  nonneg x -> Prim2SF y = S754_finite false m e -> nonneg (div x y).
Proof.
  unfold nonneg. rewrite div_spec. intros Hx Hy. rewrite Hy.
  apply SFdiv_by_positive. exact Hx.
Qed.

End Binary64Facts.

(** ** Scores of orders *)

(** The double that calculatePixelDifference returns has a clear sign bit
    as soon as it is not [NaN]. *)
Lemma div_len_nonneg (totalDiff : Z) (len : nat) :
  PrimFloat.is_nan (Double.div_len totalDiff len) = false ->
  Binary64.nonneg (Double.div_len totalDiff len).
Proof.
  apply Binary64Facts.nonneg_div; apply Binary64Facts.nonneg_dbl.
Qed.

(** It is a number whenever the divisor is a positive integer below
    [2^53]. *)
Lemma div_len_number (totalDiff : Z) (len : nat) :
  (0 < len)%nat -> Z.of_nat len < 2 ^ 53 ->
  Binary64.nonneg (Double.div_len totalDiff len).
Proof.
  intros Hpos Hlt.
  destruct (Binary64Facts.dbl_positive (Z.of_nat len) ltac:(lia)) as (m & e & Hlen).
  apply (Binary64Facts.div_by_positive _ _ m e);
    [apply Binary64Facts.nonneg_dbl | exact Hlen].
Qed.

Lemma pairDifference_in_range (edgeData : list EdgeSignature) (i j : Z) :
  0 <= i < Z.of_nat (length edgeData) ->
  0 <= j < Z.of_nat (length edgeData) ->
  exists ei ej,
    edgeAt edgeData i = Some ei /\ edgeAt edgeData j = Some ej
    /\ pairDifference edgeData i j
       = Some (Double.calculatePixelDifference (bottomPixels ei) (topPixels ej)).
Proof.
  intros Hi Hj.
  destruct (edgeAt_in_range edgeData i Hi) as [ei Hei].
  destruct (edgeAt_in_range edgeData j Hj) as [ej Hej].
  exists ei, ej. unfold pairDifference. rewrite Hei, Hej. auto.
Qed.

Lemma edgeAt_Some_range (edgeData : list EdgeSignature) (i : Z) (e : EdgeSignature) :
  edgeAt edgeData i = Some e -> 0 <= i < Z.of_nat (length edgeData).
Proof.
  unfold edgeAt. destruct (Z.ltb_spec i 0) as [Hneg|Hpos]; [discriminate|].
  intros He. apply lookup_lt_Some in He. lia.
Qed.


Lemma elem_of_tail {A : Type} (x : A) (l : list A) : x ∈ tail l -> x ∈ l.
Proof. destruct l; simpl; [trivial | apply list_elem_of_further]. Qed.

Lemma Forall_consecutive {A : Type} (P : A -> Prop) (order : list A) :
  Forall P order ->
  Forall (fun pair => P pair.1 /\ P pair.2) (zip order (tail order)).
Proof.
  intros Hall. apply Forall_forall. intros [i j] Hin.
  rewrite Forall_forall in Hall. split; apply Hall; simpl.
  - apply (elem_of_zip_l _ _ _ _ Hin).
  - apply elem_of_tail, (elem_of_zip_r _ _ _ _ Hin).
Qed.

(** The loops that add up a score, for any way [diff] of taking the
    difference of two indices: the one of the analysis module and the one
    of content.js are both of this form. *)
Section ScoreLoop.
Variable diff : Z -> Z -> option float.

(** The index loop of the score visits the consecutive pairs in order. *)
Lemma score_loop_pairs (rest : list Z) :
  forall (done : list Z) (total : option float),
    foldl
      (fun totalDiff i =>
         t ← totalDiff;
         currentIdx ← (done ++ rest) !! Z.to_nat i;
         nextIdx ← (done ++ rest) !! Z.to_nat (i + 1);
         d ← diff currentIdx nextIdx;
         Some (t + d)%float)
      total (seqZ (Z.of_nat (length done)) (Z.of_nat (length rest) - 1))
    = foldl
        (fun total pair =>
           t ← total;
           d ← diff pair.1 pair.2;
           Some (t + d)%float)
        total (zip rest (tail rest)).
Proof.
  induction rest as [|x rest IH]; intros done total.
  - rewrite seqZ_nil by (simpl; lia). reflexivity.
  - destruct rest as [|y rest].
    + rewrite seqZ_nil by (simpl; lia). reflexivity.
    + rewrite seqZ_cons by (simpl; lia).
      cbn [tail zip zip_with foldl fst snd].
      specialize (IH (done ++ [x])).
      rewrite <- app_assoc in IH. cbn [app] in IH.
      rewrite length_app in IH. cbn [length] in IH.
      replace (Z.succ (Z.of_nat (length done)))
        with (Z.of_nat (length done + 1)) by lia.
      replace (Z.pred (Z.of_nat (length (x :: y :: rest)) - 1))
        with (Z.of_nat (length (y :: rest)) - 1) by (simpl; lia).
      rewrite IH. f_equal.
      destruct total as [t|]; [|reflexivity]. cbn [mbind option_bind].
      rewrite Nat2Z.id.
      replace (Z.to_nat (Z.of_nat (length done) + 1)) with (S (length done)) by lia.
      rewrite (list_lookup_middle done (y :: rest) x (length done) eq_refl).
      rewrite (lookup_app_r done) by lia.
      replace (S (length done) - length done)%nat with 1%nat by lia.
      reflexivity.
Qed.

Lemma score_fold_defined (pairs : list (Z * Z)) :
  Forall (fun pair => is_Some (diff pair.1 pair.2)) pairs ->
  forall t, exists s,
    foldl
      (fun total pair =>
         t ← total;
         d ← diff pair.1 pair.2;
         Some (t + d)%float)
      (Some t) pairs = Some s.
Proof.
  induction 1 as [|[i j] pairs [d Hd] _ IH]; intros t.
  - exists t. reflexivity.
  - cbn [foldl fst snd mbind option_bind] in *.
    rewrite Hd. cbn [mbind option_bind]. apply IH.
Qed.

(** A sum of non-negative numbers is a non-negative number: no addition
    meets [NaN] or two infinities of opposite signs. *)
Lemma score_fold_nonneg (pairs : list (Z * Z)) :
  Forall (fun pair => exists d, diff pair.1 pair.2 = Some d /\ Binary64.nonneg d)
    pairs ->
  forall t s,
    Binary64.nonneg t ->
    foldl
      (fun total pair =>
         t ← total;
         d ← diff pair.1 pair.2;
         Some (t + d)%float)
      (Some t) pairs = Some s ->
    Binary64.nonneg s.
Proof.
  induction 1 as [|[i j] pairs (d & Hd & Hnn) _ IH]; intros t s Ht.
  - cbn [foldl]. intros [= <-]. assumption.
  - cbn [foldl fst snd mbind option_bind] in *.
    rewrite Hd. cbn [mbind option_bind]. apply IH.
    apply Binary64Facts.nonneg_add; assumption.
Qed.

Lemma score_fold_constant (d : float) (pairs : list (Z * Z)) :
  Forall (fun pair => diff pair.1 pair.2 = Some d) pairs ->
  forall t,
    foldl
      (fun total pair =>
         t ← total;
         d ← diff pair.1 pair.2;
         Some (t + d)%float)
      (Some t) pairs
    = Some (Nat.iter (length pairs) (fun x => (x + d)%float) t).
Proof.
  induction 1 as [|pair pairs Hd _ IH]; intros t; [reflexivity|].
  cbn [foldl mbind option_bind]. rewrite Hd. cbn [mbind option_bind].
  rewrite IH. cbn [length]. rewrite Nat.iter_succ_r. reflexivity.
Qed.
End ScoreLoop.

Lemma permutationScore_spec (edgeData : list EdgeSignature) (perm : list Z) :
  permutationScore edgeData perm = spec_totalScore edgeData perm.
Proof.
  exact (score_loop_pairs (pairDifference edgeData) perm [] (Some PrimFloat.zero)).
Qed.

(** On indices of the array the score is defined. *)
Lemma totalScore_spec (edgeData : list EdgeSignature) (order : list Z) :
  Forall (fun i => 0 <= i < Z.of_nat (length edgeData)) order ->
  permutationScore edgeData order = Some (totalScore edgeData order)
  /\ spec_totalScore edgeData order = Some (totalScore edgeData order).
Proof.
  intros Hvalid.
  destruct (score_fold_defined (pairDifference edgeData) (zip order (tail order)))
    with (t := PrimFloat.zero) as (s & Hs).
  { eapply Forall_impl; [apply (Forall_consecutive _ order Hvalid)|].
    intros [i j] [Hi Hj]. cbn [fst snd] in *.
    destruct (pairDifference_in_range edgeData i j Hi Hj) as (? & ? & _ & _ & Hd).
    rewrite Hd. eexists. reflexivity. }
  unfold totalScore. rewrite permutationScore_spec. unfold spec_totalScore.
  rewrite Hs. auto.
Qed.


(** ** The search for the best permutation *)

Section Search.
Variable f : list Z -> float.

Lemma bestStep_snoc (perms : list (list Z)) (p : list Z) (st : list Z * float) :
  foldl (bestStep f) st (perms ++ [p])
  = bestStep f (foldl (bestStep f) st perms) p.
Proof. rewrite foldl_app. reflexivity. Qed.

(** Whatever the scores are, [NaN] included, the loop ends on its
    initial state or on one of the permutations with its score, and no
    permutation scores strictly below the score it ends on. *)
Lemma search_no_lower (start : list Z) (perms : list (list Z)) :
  let st := foldl (bestStep f) (start, PrimFloat.infinity) perms in
  (st = (start, PrimFloat.infinity) \/ (st.1 ∈ perms /\ st.2 = f st.1))
  /\ (forall p, p ∈ perms -> (f p <? st.2)%float = false).
Proof.
  induction perms as [|p perms IH] using rev_ind; cbn zeta.
  - split; [left; reflexivity|]. intros p Hp. inversion Hp.
  - rewrite bestStep_snoc. cbn zeta in IH.
    destruct (foldl (bestStep f) (start, PrimFloat.infinity) perms) as [bp bs].
    destruct IH as [Hst Hlow]. unfold bestStep. cbn [fst snd] in *.
    destruct (f p <? bs)%float eqn:Hlt; cbn [fst snd].
    + split.
      * right. split; [|reflexivity]. apply elem_of_app. right.
        apply list_elem_of_here.
      * intros q Hq. apply elem_of_app in Hq. destruct Hq as [Hq|Hq].
        -- destruct (f q <? f p)%float eqn:Hqp; [|reflexivity].
           rewrite <- (Hlow q Hq). symmetry.
           apply (Binary64Facts.ltb_trans (f q) (f p) bs); assumption.
        -- apply list_elem_of_singleton in Hq. subst q.
           apply Binary64Facts.ltb_irrefl.
    + split.
      * destruct Hst as [Hst|[Hin Hs]]; [left; assumption|].
        right. split; [|assumption]. apply elem_of_app. left. assumption.
      * intros q Hq. apply elem_of_app in Hq. destruct Hq as [Hq|Hq].
        -- apply Hlow. assumption.
        -- apply list_elem_of_singleton in Hq. subst q. assumption.
Qed.

(** No permutation scores strictly below the score of the order the loop
    ends on, when the start order is among the permutations. *)
Lemma search_no_lower_score (start : list Z) (perms : list (list Z)) :
  start ∈ perms ->
  let st := foldl (bestStep f) (start, PrimFloat.infinity) perms in
  forall p, p ∈ perms -> (f p <? f st.1)%float = false.
Proof.
  intros Hstart st p Hp.
  destruct (search_no_lower start perms) as [Hend Hlow]. fold st in Hend, Hlow.
  destruct Hend as [Hend|[_ Hscore]].
  - rewrite Hend in *. cbn [fst snd] in *.
    destruct (f p <? f start)%float eqn:Hlt; [|reflexivity].
    rewrite <- (Hlow p Hp). symmetry.
    apply (Binary64Facts.ltb_leb_trans _ (f start)); [exact Hlt|].
    apply Binary64Facts.leb_infinity, (Binary64Facts.ltb_number _ _ Hlt).
  - rewrite <- Hscore. apply Hlow, Hp.
Qed.

(** When every score is a number and the start order is generated first,
    the loop ends on the first permutation of least score. *)
Lemma search_minimal (start : list Z) (rest : list (list Z)) :
  (forall p, p ∈ start :: rest -> PrimFloat.is_nan (f p) = false) ->
  let st := foldl (bestStep f) (start, PrimFloat.infinity) (start :: rest) in
  exists k,
    (start :: rest) !! k = Some st.1
    /\ (forall p, p ∈ start :: rest -> (f st.1 <=? f p)%float = true)
    /\ (forall j q, (j < k)%nat -> (start :: rest) !! j = Some q ->
          (f st.1 <? f q)%float = true).
Proof.
  intros Hnum st.
  assert (Hinv : exists k,
            (start :: rest) !! k = Some st.1
            /\ (st.2 = f st.1 \/ (st.2 = PrimFloat.infinity /\ k = 0%nat))
            /\ (forall p, p ∈ start :: rest -> (st.2 <=? f p)%float = true)
            /\ (forall j q, (j < k)%nat -> (start :: rest) !! j = Some q ->
                  (st.2 <? f q)%float = true)).
  { subst st. revert Hnum.
    induction rest as [|p rest IH] using rev_ind; intros Hnum.
    - cbn [foldl]. unfold bestStep. cbn [snd].
      pose proof (Hnum start (list_elem_of_here _ _)) as Hs.
      exists 0%nat. destruct (f start <? PrimFloat.infinity)%float eqn:Hlt;
        cbn [fst snd]; (split; [reflexivity|]).
      + split; [left; reflexivity|]. split; [|intros j q Hj; lia].
        intros q Hq. apply list_elem_of_singleton in Hq. subst q.
        apply Binary64Facts.leb_refl, Hs.
      + split; [right; split; reflexivity|]. split; [|intros j q Hj; lia].
        intros q Hq. apply list_elem_of_singleton in Hq. subst q.
        apply Binary64Facts.not_ltb_leb;
          [exact Hs | apply Binary64Facts.is_nan_infinity | exact Hlt].
    - rewrite app_comm_cons, bestStep_snoc.
      destruct IH as (k & Hk & Hscore & Hmin & Hearlier).
      { intros q Hq. apply Hnum. rewrite app_comm_cons. apply elem_of_app.
        left. exact Hq. }
      assert (Hp : PrimFloat.is_nan (f p) = false).
      { apply Hnum. rewrite app_comm_cons. apply elem_of_app. right.
        apply list_elem_of_here. }
      destruct (foldl (bestStep f) (start, PrimFloat.infinity) (start :: rest))
        as [bp bs].
      cbn [fst snd] in *. unfold bestStep. cbn [snd].
      pose proof (lookup_lt_Some _ _ _ Hk) as Hklt.
      assert (Hbs : PrimFloat.is_nan bs = false).
      { destruct Hscore as [->|[-> _]]; [|apply Binary64Facts.is_nan_infinity].
        apply Hnum. rewrite app_comm_cons. apply elem_of_app. left.
        apply (list_elem_of_lookup_2 _ _ _ Hk). }
      destruct (f p <? bs)%float eqn:Hlt; cbn [fst snd].
      + exists (length (start :: rest)).
        split; [apply list_lookup_middle; reflexivity|].
        split; [left; reflexivity|]. split.
        * intros q Hq. apply elem_of_app in Hq. destruct Hq as [Hq|Hq].
          -- apply Binary64Facts.ltb_leb, (Binary64Facts.ltb_leb_trans _ bs);
               [assumption | apply Hmin, Hq].
          -- apply list_elem_of_singleton in Hq. subst q.
             apply Binary64Facts.leb_refl, Hp.
        * intros j q Hj Hq. rewrite lookup_app_l in Hq by assumption.
          apply (Binary64Facts.ltb_leb_trans _ bs); [assumption|].
          apply Hmin, (list_elem_of_lookup_2 _ _ _ Hq).
      + exists k. split; [rewrite lookup_app_l by assumption; exact Hk|].
        split; [exact Hscore|]. split.
        * intros q Hq. apply elem_of_app in Hq. destruct Hq as [Hq|Hq].
          -- apply Hmin, Hq.
          -- apply list_elem_of_singleton in Hq. subst q.
             apply Binary64Facts.not_ltb_leb; assumption.
        * intros j q Hj Hq. rewrite lookup_app_l in Hq by lia.
          apply (Hearlier j q Hj Hq). }
  destruct Hinv as (k & Hk & Hscore & Hmin & Hearlier).
  exists k. split; [exact Hk|].
  destruct Hscore as [Hscore|[Hinf ->]].
  - rewrite Hscore in Hmin, Hearlier. split; assumption.
  - split; [|intros j q Hj; lia].
    intros p Hp. apply (Binary64Facts.leb_trans _ PrimFloat.infinity).
    + apply Binary64Facts.leb_infinity, Hnum, (list_elem_of_lookup_2 _ _ _ Hk).
    + rewrite <- Hinf. apply Hmin, Hp.
Qed.

(** When every permutation has the same score the search keeps the order
    it started from, provided that order is generated first. *)
Lemma search_constant (v : float) (start : list Z) (rest : list (list Z)) :
  (forall p, p ∈ start :: rest -> f p = v) ->
  (foldl (bestStep f) (start, PrimFloat.infinity) (start :: rest)).1 = start.
Proof.
  intros Hconst. cbn [foldl].
  assert (Hkeep : forall (l : list (list Z)) (st : list Z * float),
            (forall p, p ∈ l -> f p = v) -> (v <? st.2)%float = false ->
            foldl (bestStep f) st l = st).
  { induction l as [|p l IH]; intros st Hl Hst; [reflexivity|].
    cbn [foldl]. unfold bestStep at 2.
    rewrite (Hl p (list_elem_of_here p l)), Hst.
    apply IH; [|exact Hst]. intros q Hq. apply Hl, list_elem_of_further, Hq. }
  rewrite Hkeep.
  - unfold bestStep. cbn [snd].
    destruct (f start <? PrimFloat.infinity)%float; reflexivity.
  - intros p Hp. apply Hconst, list_elem_of_further, Hp.
  - unfold bestStep. cbn [snd]. rewrite (Hconst start (list_elem_of_here _ _)).
    destruct (v <? PrimFloat.infinity)%float eqn:Hv; cbn [snd];
      [apply Binary64Facts.ltb_irrefl | exact Hv].
Qed.
End Search.

(** The loop on fallible scores is the loop on their values as long as no
    score fails. *)
Lemma searchStep_total (edgeData : list EdgeSignature) (perms : list (list Z)) :
  (forall p, p ∈ perms ->
     permutationScore edgeData p = Some (totalScore edgeData p)) ->
  forall st,
    foldl (searchStep edgeData) (Some st) perms
    = Some (foldl (bestStep (totalScore edgeData)) st perms).
Proof.
  induction perms as [|p perms IH]; intros Hsome st; [reflexivity|].
  cbn [foldl]. unfold searchStep at 2. destruct st as [bp bs].
  cbn [mbind option_bind]. rewrite (Hsome p) by apply list_elem_of_here.
  cbn [mbind option_bind]. unfold bestStep at 2. cbn [snd].
  destruct (totalScore edgeData p <? bs)%float;
    (apply IH; intros q Hq; apply Hsome, list_elem_of_further, Hq).
Qed.

(** ** Index sets of the ordering *)

Lemma filter_iff_in {A : Type} (P Q : A -> Prop)
    `{forall x, Decision (P x)} `{forall x, Decision (Q x)} (l : list A) :
  (forall x, x ∈ l -> (P x <-> Q x)) -> filter P l = filter Q l.
Proof.
  induction l as [|a l IH]; intros Hpq; [reflexivity|].
  rewrite !filter_cons.
  pose proof (Hpq a (list_elem_of_here a l)) as Ha.
  rewrite IH by (intros x Hx; apply Hpq, list_elem_of_further, Hx).
  destruct (decide (P a)), (decide (Q a)); tauto.
Qed.

Lemma notFloating_true (floating : list Z) (i : Z) :
  notFloating floating i = true <-> i ∉ floating.
Proof. unfold notFloating. apply bool_decide_eq_true. Qed.

Lemma nonFloatingIndices_filter (n : nat) (floating : list Z) :
  nonFloatingIndices n floating
  = filter (fun i => i ∉ floating) (seqZ 0 (Z.of_nat n)).
Proof.
  unfold nonFloatingIndices. rewrite foldl_push_filter. cbn [app].
  apply list_filter_iff. intros i. apply notFloating_true.
Qed.

Lemma middleIndicesOf_filter (n : nat) (c : Classification) :
  middleIndicesOf n c
  = filter (fun i => i <> firstIdx c /\ i <> lastIdx c /\ i ∉ floatingIndices c)
      (seqZ 0 (Z.of_nat n)).
Proof.
  unfold middleIndicesOf. rewrite foldl_push_filter. cbn [app].
  apply list_filter_iff. intros i.
  rewrite !andb_true_iff, !negb_true_iff, !Z.eqb_neq, notFloating_true. tauto.
Qed.

Lemma anchored_true_iff (c : Classification) :
  anchored c = true
  <-> firstIdx c <> -1 /\ lastIdx c <> -1 /\ firstIdx c <> lastIdx c.
Proof.
  unfold anchored. rewrite !andb_true_iff, !negb_true_iff, !Z.eqb_neq. tauto.
Qed.

Lemma candidate_not_floating (edgeData : list EdgeSignature) (i : Z) :
  flagAt isFirstCandidate edgeData i = true
  \/ flagAt isLastCandidate edgeData i = true ->
  flagAt isFloating edgeData i = false.
Proof.
  unfold flagAt, isFirstCandidate, isLastCandidate, isFloating.
  destruct (edgeAt edgeData i) as [e|]; [|reflexivity].
  destruct (hasBlankTop e), (hasBlankBottom e); simpl; intuition discriminate.
Qed.

Section Classified.
Variables (edgeData : list EdgeSignature) (c : Classification).
Hypothesis Hclassify : classify edgeData = Some c.

Lemma classified :
  floatingIndices c
  = filter (fun i => flagAt isFloating edgeData i = true)
      (seqZ 0 (Z.of_nat (length edgeData)))
  /\ latest (flagAt isFirstCandidate edgeData) (Z.of_nat (length edgeData)) (firstIdx c)
  /\ latest (flagAt isLastCandidate edgeData) (Z.of_nat (length edgeData)) (lastIdx c).
Proof.
  destruct (classify_spec edgeData) as (c' & Hc' & Hrest).
  rewrite Hclassify in Hc'. injection Hc' as <-. exact Hrest.
Qed.

Lemma elem_of_floating (i : Z) :
  i ∈ floatingIndices c
  <-> 0 <= i < Z.of_nat (length edgeData) /\ flagAt isFloating edgeData i = true.
Proof.
  destruct classified as (-> & _). rewrite list_elem_of_filter, elem_of_seqZ.
  split; intros [H1 H2]; (split; [assumption || lia | assumption || lia]).
Qed.

Lemma floating_sorted : StronglySorted Z.lt (floatingIndices c).
Proof.
  destruct classified as (-> & _). apply StronglySorted_filter, StronglySorted_seqZ.
Qed.

(** The indices that the fallback search permutes are the indices whose
    signature is not floating, in ascending order. *)
Lemma nonFloatingIndices_spec :
  nonFloatingIndices (length edgeData) (floatingIndices c)
  = filter (fun i => flagAt isFloating edgeData i = false)
      (seqZ 0 (Z.of_nat (length edgeData))).
Proof.
  rewrite nonFloatingIndices_filter. apply filter_iff_in. intros i Hi.
  apply elem_of_seqZ in Hi. rewrite elem_of_floating.
  destruct (flagAt isFloating edgeData i); intuition (discriminate || lia).
Qed.

Lemma elem_of_nonFloating (i : Z) :
  i ∈ nonFloatingIndices (length edgeData) (floatingIndices c)
  <-> 0 <= i < Z.of_nat (length edgeData) /\ flagAt isFloating edgeData i = false.
Proof.
  rewrite nonFloatingIndices_spec, list_elem_of_filter, elem_of_seqZ.
  split; intros [H1 H2]; (split; [assumption || lia | assumption || lia]).
Qed.

Lemma nonFloating_floating_perm :
  nonFloatingIndices (length edgeData) (floatingIndices c) ++ floatingIndices c
  ≡ₚ seqZ 0 (Z.of_nat (length edgeData)).
Proof.
  rewrite nonFloatingIndices_spec. destruct classified as (-> & _).
  rewrite Permutation_app_comm.
  rewrite <- (filter_app_complement
                (fun i => flagAt isFloating edgeData i = true)
                (seqZ 0 (Z.of_nat (length edgeData)))) at 3.
  apply Permutation_app; [reflexivity|].
  assert (Heq : filter (fun i => flagAt isFloating edgeData i = false)
                  (seqZ 0 (Z.of_nat (length edgeData)))
                = filter (fun i => ~ flagAt isFloating edgeData i = true)
                    (seqZ 0 (Z.of_nat (length edgeData)))).
  { apply list_filter_iff. intros i.
    destruct (flagAt isFloating edgeData i); naive_solver. }
  rewrite Heq. reflexivity.
Qed.

(** On the anchored path both anchors are indices of the array, the first
    blank at the top only and the last blank at the bottom only. *)
Lemma anchors_spec :
  anchored c = true ->
  0 <= firstIdx c < Z.of_nat (length edgeData)
  /\ flagAt isFirstCandidate edgeData (firstIdx c) = true
  /\ 0 <= lastIdx c < Z.of_nat (length edgeData)
  /\ flagAt isLastCandidate edgeData (lastIdx c) = true
  /\ firstIdx c <> lastIdx c.
Proof.
  intros Ha. apply anchored_true_iff in Ha. destruct Ha as (Hf & Hl & Hne).
  destruct classified as (_ & Hfirst & Hlast).
  destruct Hfirst as [[Hf' _]|(Hfr & Hfq & _)]; [contradiction|].
  destruct Hlast as [[Hl' _]|(Hlr & Hlq & _)]; [contradiction|].
  auto.
Qed.

Lemma elem_of_middle (i : Z) :
  i ∈ middleIndicesOf (length edgeData) c
  <-> 0 <= i < Z.of_nat (length edgeData)
      /\ i <> firstIdx c /\ i <> lastIdx c
      /\ flagAt isFloating edgeData i = false.
Proof.
  rewrite middleIndicesOf_filter, list_elem_of_filter, elem_of_seqZ, elem_of_floating.
  destruct (flagAt isFloating edgeData i); intuition (discriminate || lia).
Qed.

Lemma middle_sorted : StronglySorted Z.lt (middleIndicesOf (length edgeData) c).
Proof.
  rewrite middleIndicesOf_filter. apply StronglySorted_filter, StronglySorted_seqZ.
Qed.

(** First, last and the middle indices together are the non-floating
    indices. *)
Lemma anchors_middle_perm :
  anchored c = true ->
  firstIdx c :: lastIdx c :: middleIndicesOf (length edgeData) c
  ≡ₚ nonFloatingIndices (length edgeData) (floatingIndices c).
Proof.
  intros Ha. destruct (anchors_spec Ha) as (Hfr & Hfq & Hlr & Hlq & Hne).
  pose proof (candidate_not_floating edgeData (firstIdx c) (or_introl Hfq)) as Hfn.
  pose proof (candidate_not_floating edgeData (lastIdx c) (or_intror Hlq)) as Hln.
  apply NoDup_Permutation.
  - apply NoDup_cons. split.
    + rewrite elem_of_cons, elem_of_middle. intuition congruence.
    + apply NoDup_cons. split.
      * rewrite elem_of_middle. intuition congruence.
      * rewrite middleIndicesOf_filter. apply NoDup_filter, NoDup_seqZ.
  - rewrite nonFloatingIndices_filter. apply NoDup_filter, NoDup_seqZ.
  - intros i. rewrite !elem_of_cons, elem_of_middle, elem_of_nonFloating.
    destruct (Z.eq_dec i (firstIdx c)) as [->|Hif];
      [intuition lia|].
    destruct (Z.eq_dec i (lastIdx c)) as [->|Hil]; intuition lia.
Qed.
End Classified.

(** ** The two paths of findOptimalOrder *)

Lemma finalOrder_anchored (edgeData : list EdgeSignature) (c : Classification)
    (baseOrder : list Z) :
  classify edgeData = Some c -> anchored c = true ->
  anchoredBaseOrder edgeData c = Some baseOrder ->
  finalOrder edgeData = Some (baseOrder ++ floatingIndices c).
Proof.
  intros Hc Ha Hb. unfold finalOrder. rewrite Hc. cbn [mbind option_bind].
  rewrite Ha, Hb. reflexivity.
Qed.

Lemma finalOrder_fallback (edgeData : list EdgeSignature) (c : Classification)
    (st : list Z * float) :
  classify edgeData = Some c -> anchored c = false ->
  searchBest edgeData (nonFloatingIndices (length edgeData) (floatingIndices c))
  = Some st ->
  finalOrder edgeData = Some (st.1 ++ floatingIndices c).
Proof.
  intros Hc Ha Hs. unfold finalOrder. rewrite Hc. cbn [mbind option_bind].
  rewrite Ha, Hs. destruct st. reflexivity.
Qed.

(** The base order of the anchored path, by the number of middle
    indices. *)
Lemma anchoredBaseOrder_cases (edgeData : list EdgeSignature) (c : Classification) :
  classify edgeData = Some c -> anchored c = true ->
  match middleIndicesOf (length edgeData) c with
  | [] => anchoredBaseOrder edgeData c = Some [firstIdx c; lastIdx c]
  | [m] => anchoredBaseOrder edgeData c = Some [firstIdx c; m; lastIdx c]
  | m0 :: m1 :: _ =>
      exists a1 a2 a3 b1 b2 b3,
        pairDifference edgeData (firstIdx c) m0 = Some a1
        /\ pairDifference edgeData m0 m1 = Some a2
        /\ pairDifference edgeData m1 (lastIdx c) = Some a3
        /\ pairDifference edgeData (firstIdx c) m1 = Some b1
        /\ pairDifference edgeData m1 m0 = Some b2
        /\ pairDifference edgeData m0 (lastIdx c) = Some b3
        /\ anchoredBaseOrder edgeData c
           = Some (if (a1 + a2 + a3 <=? b1 + b2 + b3)%float
                   then [firstIdx c; m0; m1; lastIdx c]
                   else [firstIdx c; m1; m0; lastIdx c])
  end.
Proof.
  intros Hc Ha.
  destruct (anchors_spec edgeData c Hc Ha) as (Hf & _ & Hl & _ & _).
  pose proof (elem_of_middle edgeData c Hc) as Hmid.
  unfold anchoredBaseOrder.
  destruct (middleIndicesOf (length edgeData) c) as [|m0 [|m1 rest]];
    [reflexivity | reflexivity |].
  assert (H0 : 0 <= m0 < Z.of_nat (length edgeData)).
  { apply Hmid, list_elem_of_here. }
  assert (H1 : 0 <= m1 < Z.of_nat (length edgeData)).
  { apply Hmid, list_elem_of_further, list_elem_of_here. }
  destruct (pairDifference_in_range edgeData (firstIdx c) m0 Hf H0)
    as (? & ? & _ & _ & E1).
  destruct (pairDifference_in_range edgeData m0 m1 H0 H1) as (? & ? & _ & _ & E2).
  destruct (pairDifference_in_range edgeData m1 (lastIdx c) H1 Hl)
    as (? & ? & _ & _ & E3).
  destruct (pairDifference_in_range edgeData (firstIdx c) m1 Hf H1)
    as (? & ? & _ & _ & E4).
  destruct (pairDifference_in_range edgeData m1 m0 H1 H0) as (? & ? & _ & _ & E5).
  destruct (pairDifference_in_range edgeData m0 (lastIdx c) H0 Hl)
    as (? & ? & _ & _ & E6).
  rewrite E1, E2, E3, E4, E5, E6.
  do 6 eexists. repeat (split; [reflexivity|]). reflexivity.
Qed.

(** The fallback search never fails and is the search on the scores as
    numbers. *)
Lemma searchBest_total (edgeData : list EdgeSignature) (c : Classification) :
  classify edgeData = Some c ->
  let indices := nonFloatingIndices (length edgeData) (floatingIndices c) in
  searchBest edgeData indices
  = Some (foldl (bestStep (totalScore edgeData)) (indices, PrimFloat.infinity)
            (getPermutations indices)).
Proof.
  intros Hc indices. unfold searchBest. apply searchStep_total.
  intros p Hp. apply totalScore_spec.
  apply getPermutations_fuel_sound in Hp; [|lia].
  rewrite Hp. apply Forall_forall. intros i Hi.
  apply (elem_of_nonFloating edgeData c Hc) in Hi. tauto.
Qed.

Lemma getPermutations_nonempty {A : Type} (arr : list A) :
  getPermutations arr <> [].
Proof.
  intros Hnil.
  pose proof (getPermutations_fuel_head (length arr) arr (le_n _)) as Hhead.
  unfold getPermutations in Hnil. rewrite Hnil in Hhead. discriminate.
Qed.

(** Membership in an explicit list, and inclusion of one explicit list in
    another. *)
Ltac elem_of_explicit :=
  repeat first [apply list_elem_of_here | apply list_elem_of_further].

Ltac incl_explicit :=
  let i := fresh "i" in
  let Hi := fresh "Hi" in
  intros i Hi;
  repeat (apply elem_of_cons in Hi; destruct Hi as [->|Hi]);
  [elem_of_explicit .. | inversion Hi].

(** The shape of the result on both paths. *)
Lemma finalOrder_shape (edgeData : list EdgeSignature) (c : Classification) :
  classify edgeData = Some c ->
  let indices := nonFloatingIndices (length edgeData) (floatingIndices c) in
  let middle := middleIndicesOf (length edgeData) c in
  exists base,
    finalOrder edgeData = Some (base ++ floatingIndices c)
    /\ (forall i, i ∈ base -> i ∈ indices)
    /\ (anchored c = false -> base ≡ₚ indices)
    /\ (anchored c = true -> (length middle <= 2)%nat -> base ≡ₚ indices).
Proof.
  intros Hc indices middle.
  destruct (anchored c) eqn:Ha.
  - pose proof (anchoredBaseOrder_cases edgeData c Hc Ha) as Hcases.
    pose proof (anchors_middle_perm edgeData c Hc Ha) as Hperm.
    fold middle in Hcases, Hperm. fold indices in Hperm.
    assert (Hsub : forall base : list Z,
              (forall i, i ∈ base -> i ∈ firstIdx c :: lastIdx c :: middle) ->
              forall i, i ∈ base -> i ∈ indices).
    { intros base Hb i Hi. rewrite <- Hperm. apply Hb, Hi. }
    destruct middle as [|m0 [|m1 rest]].
    + exists [firstIdx c; lastIdx c].
      split; [apply (finalOrder_anchored _ _ _ Hc Ha Hcases)|].
      split; [apply Hsub; incl_explicit|].
      split; [discriminate|]. intros _ _. exact Hperm.
    + exists [firstIdx c; m0; lastIdx c].
      split; [apply (finalOrder_anchored _ _ _ Hc Ha Hcases)|].
      split; [apply Hsub; incl_explicit|].
      split; [discriminate|]. intros _ _. rewrite <- Hperm.
      apply perm_skip, perm_swap.
    + destruct Hcases as (a1 & a2 & a3 & b1 & b2 & b3 & _ & _ & _ & _ & _ & _ & Hb).
      eexists. split; [apply (finalOrder_anchored _ _ _ Hc Ha Hb)|].
      split; [|split; [discriminate|]].
      * apply Hsub.
        destruct (a1 + a2 + a3 <=? b1 + b2 + b3)%float; incl_explicit.
      * intros _ Hlen. destruct rest as [|m2 rest]; [|simpl in Hlen; lia].
        rewrite <- Hperm.
        destruct (a1 + a2 + a3 <=? b1 + b2 + b3)%float.
        -- apply perm_skip. symmetry.
           apply (Permutation_cons_append [m0; m1] (lastIdx c)).
        -- apply perm_skip. transitivity (lastIdx c :: [m1; m0]).
           ++ symmetry. apply (Permutation_cons_append [m1; m0] (lastIdx c)).
           ++ apply perm_skip, perm_swap.
  - pose proof (searchBest_total edgeData c Hc) as Hs. cbn zeta in Hs.
    fold indices in Hs.
    pose proof (search_no_lower (totalScore edgeData) indices
                  (getPermutations indices)) as [Hend _].
    cbn zeta in Hend.
    remember (foldl (bestStep (totalScore edgeData)) (indices, PrimFloat.infinity)
                (getPermutations indices)) as st eqn:Hst.
    assert (Hbest : st.1 ≡ₚ indices).
    { destruct Hend as [Hend|[Hin _]].
      - rewrite Hend. reflexivity.
      - apply getPermutations_fuel_sound in Hin; [assumption | lia]. }
    exists st.1. split; [apply (finalOrder_fallback _ _ _ Hc Ha Hs)|].
    split; [intros i Hi; rewrite <- Hbest; exact Hi|].
    split; [intros _; exact Hbest | discriminate].
Qed.

Lemma edgeAt_elem_of (edgeData : list EdgeSignature) (i : Z) (e : EdgeSignature) :
  edgeAt edgeData i = Some e -> e ∈ edgeData.
Proof.
  unfold edgeAt. destruct (i <? 0); [discriminate|].
  apply list_elem_of_lookup_2.
Qed.

(** C4: on both paths the result is a base order followed by the floating
    indices; these are the indices whose signature is blank on both edges,
    in ascending order, and no index of the base order is floating.  The
    fingerprints play no part in it. *)
Theorem floating_trailing (edgeData : list EdgeSignature) :
  let N := Z.of_nat (length edgeData) in
  exists c base,
    classify edgeData = Some c
    /\ finalOrder edgeData = Some (base ++ floatingIndices c)
    /\ floatingIndices c
       = filter (fun i => flagAt isFloating edgeData i = true) (seqZ 0 N)
    /\ StronglySorted Z.lt (floatingIndices c)
    /\ (forall i, i ∈ base -> 0 <= i < N /\ flagAt isFloating edgeData i = false).
Proof.
  intros N. destruct (classify_spec edgeData) as (c & Hc & Hfl & _).
  destruct (finalOrder_shape edgeData c Hc) as (base & Horder & Hbase & _).
  exists c, base. split; [exact Hc|]. split; [exact Horder|].
  split; [exact Hfl|]. split; [exact (floating_sorted edgeData c Hc)|].
  intros i Hi. apply (elem_of_nonFloating edgeData c Hc), Hbase, Hi.
Qed.

(** Scenario A on sample fingerprints. *)
Example finalOrder_scenarioA : finalOrder scenarioA = Some [0; 1; 2].
Proof. reflexivity. Qed.

(** Scenario C: anchors first, then the floating images 1 and 3. *)
Example finalOrder_scenarioC : finalOrder scenarioC = Some [0; 2; 1; 3].
Proof. reflexivity. Qed.

(** C1, corrected statement: when the array has at most four signatures, or the
    fallback path is taken, or at most two middle indices remain on the
    anchored path, the order returned is a permutation of [0, N) and has
    length N. *)
Theorem finalOrder_permutation (edgeData : list EdgeSignature) (c : Classification) :
  classify edgeData = Some c ->
  (length edgeData <= 4)%nat
  \/ anchored c = false
  \/ (length (middleIndicesOf (length edgeData) c) <= 2)%nat ->
  exists order,
    finalOrder edgeData = Some order
    /\ order ≡ₚ seqZ 0 (Z.of_nat (length edgeData))
    /\ length order = length edgeData.
Proof.
  intros Hc Hcase.
  destruct (finalOrder_shape edgeData c Hc) as (base & Horder & _ & Hfb & Han).
  pose proof (nonFloating_floating_perm edgeData c Hc) as Hall.
  assert (Hbase : base ≡ₚ nonFloatingIndices (length edgeData) (floatingIndices c)).
  { destruct (anchored c) eqn:Ha; [|apply Hfb; reflexivity].
    apply Han; [reflexivity|].
    destruct Hcase as [Hsmall|[Hfalse|Hmid]]; [|discriminate|exact Hmid].
    pose proof (Permutation_length (anchors_middle_perm edgeData c Hc Ha)) as H1.
    pose proof (Permutation_length Hall) as H2.
    rewrite length_app, length_seqZ in H2. simpl in H1. lia. }
  exists (base ++ floatingIndices c). split; [exact Horder|].
  assert (Hperm : base ++ floatingIndices c ≡ₚ seqZ 0 (Z.of_nat (length edgeData))).
  { rewrite Hbase. exact Hall. }
  split; [exact Hperm|].
  rewrite (Permutation_length Hperm), length_seqZ. lia.
Qed.

Lemma finalOrder_permutation_witness :
  exists order,
    finalOrder twoMiddles = Some order
    /\ order ≡ₚ seqZ 0 (Z.of_nat (length twoMiddles))
    /\ length order = length twoMiddles.
Proof.
  apply (finalOrder_permutation twoMiddles (mkClass 0 3 [])).
  - reflexivity.
  - left. simpl. lia.
Defined.

(** Counterexample to C1 as the specification has it: on the anchored path with three middle
    indices: index 3 is missing from the order and the order is too
    short. *)
Lemma three_middles_truncated :
  finalOrder threeMiddles = Some [0; 1; 2; 4]
  /\ (3 ∉ [0; 1; 2; 4])
  /\ ~ ([0; 1; 2; 4] ≡ₚ seqZ 0 (Z.of_nat (length threeMiddles))).
Proof.
  split; [reflexivity|]. split.
  - intros Hin. repeat (apply elem_of_cons in Hin; destruct Hin as [Hin|Hin];
      [discriminate|]). inversion Hin.
  - intros Hperm. apply Permutation_length in Hperm. discriminate.
Qed.

(** C3: on the anchored path the base order is [first, last] without a
    middle index and [first, middle, last] with one; with two middle
    indices [m0 < m1] both orders are scored by the sum of their three
    adjacent differences, added from left to right in double precision as
    the code does; the strictly lower score wins and equal scores keep
    [first, m0, m1, last].  When a score is [NaN] neither of these holds
    and the order is [first, m1, m0, last].  Three images blank at the top
    only, on no edge, and at the bottom only are returned as [0, 1, 2]. *)
Theorem anchored_path_order :
  (forall (edgeData : list EdgeSignature) (c : Classification),
     classify edgeData = Some c ->
     firstIdx c <> -1 -> lastIdx c <> -1 -> firstIdx c <> lastIdx c ->
     let first := firstIdx c in
     let last := lastIdx c in
     let floating := floatingIndices c in
     let middle :=
       filter (fun i => i <> first /\ i <> last /\ i ∉ floating)
         (seqZ 0 (Z.of_nat (length edgeData))) in
     (middle = [] -> finalOrder edgeData = Some ([first; last] ++ floating))
     /\ (forall m, middle = [m] ->
           finalOrder edgeData = Some ([first; m; last] ++ floating))
     /\ (forall m0 m1, middle = [m0; m1] ->
           m0 < m1
           /\ exists a1 a2 a3 b1 b2 b3,
               pairDifference edgeData first m0 = Some a1
               /\ pairDifference edgeData m0 m1 = Some a2
               /\ pairDifference edgeData m1 last = Some a3
               /\ pairDifference edgeData first m1 = Some b1
               /\ pairDifference edgeData m1 m0 = Some b2
               /\ pairDifference edgeData m0 last = Some b3
               /\ let score1 := (a1 + a2 + a3)%float in
                  let score2 := (b1 + b2 + b3)%float in
                  ((score1 <? score2)%float = true ->
                     finalOrder edgeData = Some ([first; m0; m1; last] ++ floating))
                  /\ ((score2 <? score1)%float = true ->
                        finalOrder edgeData = Some ([first; m1; m0; last] ++ floating))
                  /\ ((score1 =? score2)%float = true ->
                        finalOrder edgeData = Some ([first; m0; m1; last] ++ floating))
                  /\ (PrimFloat.is_nan score1 = true \/ PrimFloat.is_nan score2 = true ->
                        finalOrder edgeData
                        = Some ([first; m1; m0; last] ++ floating))))
  /\ (forall e0 e1 e2 : EdgeSignature,
        isFirstCandidate e0 = true ->
        hasBlankTop e1 = false -> hasBlankBottom e1 = false ->
        isLastCandidate e2 = true ->
        finalOrder [e0; e1; e2] = Some [0; 1; 2]).
Proof.
  split.
  - intros edgeData c Hc Hf Hl Hne first last floating middle.
    assert (Ha : anchored c = true) by (apply anchored_true_iff; auto).
    pose proof (anchoredBaseOrder_cases edgeData c Hc Ha) as Hcases.
    pose proof (middle_sorted edgeData c) as Hsorted.
    rewrite middleIndicesOf_filter in Hcases, Hsorted.
    fold first last floating in Hcases, Hsorted. fold middle in Hcases, Hsorted.
    split; [|split].
    + intros Hmid. rewrite Hmid in Hcases.
      apply (finalOrder_anchored _ _ _ Hc Ha Hcases).
    + intros m Hmid. rewrite Hmid in Hcases.
      apply (finalOrder_anchored _ _ _ Hc Ha Hcases).
    + intros m0 m1 Hmid. rewrite Hmid in Hcases, Hsorted. split.
      * apply StronglySorted_inv in Hsorted. destruct Hsorted as [_ Hlt].
        apply Forall_cons in Hlt. tauto.
      * destruct Hcases as (a1 & a2 & a3 & b1 & b2 & b3 & E1 & E2 & E3 & E4 & E5 & E6 & Hb).
        exists a1, a2, a3, b1, b2, b3. repeat (split; [assumption|]).
        cbn zeta. pose proof (finalOrder_anchored _ _ _ Hc Ha Hb) as Horder.
        split; [|split; [|split]].
        -- intros Hlt. rewrite (Binary64Facts.ltb_leb _ _ Hlt) in Horder. exact Horder.
        -- intros Hlt. rewrite (Binary64Facts.ltb_leb_false _ _ Hlt) in Horder.
           exact Horder.
        -- intros Heq. rewrite (Binary64Facts.eqb_leb _ _ Heq) in Horder. exact Horder.
        -- intros [Hnan|Hnan].
           ++ rewrite (Binary64Facts.leb_nan_l _ _ Hnan) in Horder. exact Horder.
           ++ rewrite (Binary64Facts.leb_nan_r _ _ Hnan) in Horder. exact Horder.
  - intros [t0 b0 ty0 by0 bt0 bb0] [t1 b1 ty1 by1 bt1 bb1] [t2 b2 ty2 by2 bt2 bb2].
    unfold isFirstCandidate, isLastCandidate. cbn [hasBlankTop hasBlankBottom].
    intros H0 -> -> H2.
    apply andb_true_iff in H0. destruct H0 as [-> H0].
    apply negb_true_iff in H0. subst bb0.
    apply andb_true_iff in H2. destruct H2 as [H2 ->].
    apply negb_true_iff in H2. subst bt2.
    reflexivity.
Qed.

Lemma anchored_path_order_witness :
  exists a1 a2 a3 b1 b2 b3,
    pairDifference twoMiddles 0 1 = Some a1
    /\ pairDifference twoMiddles 1 2 = Some a2
    /\ pairDifference twoMiddles 2 3 = Some a3
    /\ pairDifference twoMiddles 0 2 = Some b1
    /\ pairDifference twoMiddles 2 1 = Some b2
    /\ pairDifference twoMiddles 1 3 = Some b3
    /\ (b1 + b2 + b3 <? a1 + a2 + a3)%float = true
    /\ finalOrder twoMiddles = Some [0; 2; 1; 3].
Proof.
  destruct (proj1 anchored_path_order twoMiddles (mkClass 0 3 []) eq_refl
              ltac:(discriminate) ltac:(discriminate) ltac:(discriminate))
    as (_ & _ & Htwo).
  destruct (Htwo 1 2 eq_refl) as (_ & a1 & a2 & a3 & b1 & b2 & b3
    & E1 & E2 & E3 & E4 & E5 & E6 & _ & Hsecond & _).
  exists a1, a2, a3, b1, b2, b3. repeat (split; [assumption|]).
  assert (Hlt : (b1 + b2 + b3 <? a1 + a2 + a3)%float = true).
  { vm_compute in E1, E2, E3, E4, E5, E6.
    injection E1 as <-. injection E2 as <-. injection E3 as <-.
    injection E4 as <-. injection E5 as <-. injection E6 as <-. reflexivity. }
  split; [exact Hlt|]. apply (Hsecond Hlt).
Defined.

(** Rounding decides between two orders whose exact sums are equal: the
    three exact differences of either order of [roundedAnchors] add up to
    23/3, the sums formed in double precision differ in the last place,
    and the second order is returned. *)
Example anchored_rounding :
  calculatePixelDifference [0; 1; 0] [1; 3; 2] = Fin (9 # 3)
  /\ calculatePixelDifference [0; 2; 1] [1; 0; 3] = Fin (9 # 3)
  /\ calculatePixelDifference [2; 4; 1] [2; 3; 3] = Fin (5 # 3)
  /\ calculatePixelDifference [0; 1; 0] [1; 0; 3] = Fin (11 # 3)
  /\ calculatePixelDifference [2; 4; 1] [1; 3; 2] = Fin (3 # 3)
  /\ calculatePixelDifference [0; 2; 1] [2; 3; 3] = Fin (9 # 3)
  /\ ((9 # 3) + (9 # 3) + (5 # 3) == (11 # 3) + (3 # 3) + (9 # 3))%Q
  /\ (totalScore roundedAnchors [0; 2; 1; 3] <? totalScore roundedAnchors [0; 1; 2; 3])%float
     = true
  /\ finalOrder roundedAnchors = Some [0; 2; 1; 3].
Proof. repeat split. Qed.

(** ** The fallback search *)

(** X22: whatever the fingerprints are, the fallback path returns a
    rearrangement of the non-floating indices, and no rearrangement of
    them has a score, as the code adds it up in double precision, that is
    strictly below the score of the one returned. *)
Lemma fallback_no_lower (edgeData : list EdgeSignature) (c : Classification) :
  classify edgeData = Some c -> anchored c = false ->
  let indices := nonFloatingIndices (length edgeData) (floatingIndices c) in
  exists best,
    finalOrder edgeData = Some (best ++ floatingIndices c)
    /\ best ≡ₚ indices
    /\ forall p, p ≡ₚ indices ->
         exists s sbest,
           spec_totalScore edgeData p = Some s
           /\ spec_totalScore edgeData best = Some sbest
           /\ (s <? sbest)%float = false.
Proof.
  intros Hc Ha indices.
  pose proof (searchBest_total edgeData c Hc) as Hs. cbn zeta in Hs.
  fold indices in Hs.
  assert (Hin : forall p, p ≡ₚ indices -> p ∈ getPermutations indices).
  { intros p Hp. apply getPermutations_fuel_complete; [lia | exact Hp]. }
  assert (Hscore : forall p, p ≡ₚ indices ->
            spec_totalScore edgeData p = Some (totalScore edgeData p)).
  { intros p Hp. apply totalScore_spec. rewrite Hp. apply Forall_forall.
    intros i Hi. apply (elem_of_nonFloating edgeData c Hc) in Hi. tauto. }
  pose proof (search_no_lower (totalScore edgeData) indices
                (getPermutations indices)) as [Hend _].
  pose proof (search_no_lower_score (totalScore edgeData) indices
                (getPermutations indices) (Hin indices (reflexivity _))) as Hlow.
  cbn zeta in Hend, Hlow.
  remember (foldl (bestStep (totalScore edgeData)) (indices, PrimFloat.infinity)
              (getPermutations indices)) as st eqn:Hst.
  assert (Hbest : st.1 ≡ₚ indices).
  { destruct Hend as [Hend|[Hbest _]].
    - rewrite Hend. reflexivity.
    - apply getPermutations_fuel_sound in Hbest; [exact Hbest | lia]. }
  exists st.1. split; [apply (finalOrder_fallback _ _ _ Hc Ha Hs)|].
  split; [exact Hbest|].
  intros p Hp. exists (totalScore edgeData p), (totalScore edgeData st.1).
  split; [apply Hscore, Hp|]. split; [apply Hscore, Hbest|].
  apply Hlow, Hin, Hp.
Qed.



(** Scenario B: the best chain 0, 3, 1, 2 is returned. *)
Example finalOrder_scenarioB : finalOrder scenarioB = Some [0; 3; 1; 2].
Proof. reflexivity. Qed.

(** Rounding decides among orders whose exact sums are equal: the orders
    0, 2, 1 and 1, 2, 0 of [roundedChain] both have the exact sum 47/3;
    the sum of the first, formed in double precision, is the greater, and
    the second is returned although it is generated later. *)
Example fallback_rounding :
  calculatePixelDifference [3; 3; 6] [3; 2; 0] = Fin (37 # 3)
  /\ calculatePixelDifference [1; 5; 2] [4; 6; 2] = Fin (10 # 3)
  /\ calculatePixelDifference [4; 2; 5] [3; 2; 0] = Fin (26 # 3)
  /\ calculatePixelDifference [1; 5; 2] [5; 6; 0] = Fin (21 # 3)
  /\ ((37 # 3) + (10 # 3) == (26 # 3) + (21 # 3))%Q
  /\ (totalScore roundedChain [1; 2; 0] <? totalScore roundedChain [0; 2; 1])%float
     = true
  /\ finalOrder roundedChain = Some [1; 2; 0].
Proof. repeat split. Qed.


(** ** The images returned *)

(** X23: findOptimalOrder never throws, and every element of the array it
    returns is one of the images passed in: the order only holds indices
    of the array. *)
Lemma findOptimalOrder_defined (imageElements : list Image) :
  exists order,
    finalOrder (map getEdgePixels imageElements) = Some order
    /\ Forall (fun i => 0 <= i < Z.of_nat (length imageElements)) order
    /\ findOptimalOrder imageElements
       = Some (map (fun i => imageElements !! Z.to_nat i) order)
    /\ Forall (fun img => is_Some img)
         (map (fun i => imageElements !! Z.to_nat i) order).
Proof.
  set (edgeData := map getEdgePixels imageElements).
  assert (Hlen : length edgeData = length imageElements).
  { subst edgeData. apply length_map. }
  destruct (classify_spec edgeData) as (c & Hc & _).
  destruct (finalOrder_shape edgeData c Hc) as (base & Horder & Hbase & _).
  assert (Hrange : Forall (fun i => 0 <= i < Z.of_nat (length imageElements))
                     (base ++ floatingIndices c)).
  { rewrite <- Hlen. apply Forall_app. split; apply Forall_forall; intros i Hi.
    - apply Hbase, (elem_of_nonFloating edgeData c Hc) in Hi. tauto.
    - apply (elem_of_floating edgeData c Hc) in Hi. tauto. }
  exists (base ++ floatingIndices c). split; [exact Horder|].
  split; [exact Hrange|]. split.
  - unfold findOptimalOrder. fold edgeData. rewrite Horder.
    cbn [mbind option_bind]. f_equal. apply map_ext_in. intros i Hi.
    rewrite Forall_forall in Hrange.
    apply list_elem_of_In, Hrange in Hi.
    destruct (Z.ltb_spec i 0) as [Hneg|_]; [lia | reflexivity].
  - apply Forall_forall. intros img Himg.
    apply list_elem_of_In, in_map_iff in Himg. destruct Himg as (i & <- & Hi).
    rewrite Forall_forall in Hrange. apply list_elem_of_In, Hrange in Hi.
    apply lookup_lt_is_Some_2. lia.
Qed.

(** * Further properties of the analysis code *)

(** ** The row sampler: which components are kept *)

Lemma ceil_tenth (w : nat) :
  (w <= 10 * ((w + 9) / 10) < w + 10)%nat.
Proof.
  pose proof (Nat.div_mod_eq (w + 9) 10) as Hdiv.
  pose proof (Nat.mod_upper_bound (w + 9) 10 ltac:(lia)) as Hmod.
  lia.
Qed.

(** From byte [40 * k0] on, the loop appends the colour of every tenth
    pixel. *)
Lemma samplePixels_from_chunks (rowData : list Z) (w n k0 : nat) :
  length rowData = (4 * w)%nat -> (k0 + n = (w + 9) / 10)%nat ->
  samplePixels_from rowData (40 * k0)
  = flat_map
      (fun k => [rowData !!! (40 * k + 0)%nat; rowData !!! (40 * k + 1)%nat;
                 rowData !!! (40 * k + 2)%nat])
      (seq k0 n).
Proof.
  intros Hlen. pose proof (ceil_tenth w) as Hceil.
  revert k0. induction n as [|n IH]; intros k0 Hk.
  - simp samplePixels_from.
    destruct (decide (40 * k0 < length rowData)%nat) as [Hlt|Hge]; [lia|].
    reflexivity.
  - simp samplePixels_from.
    destruct (decide (40 * k0 < length rowData)%nat) as [Hlt|Hge]; [|lia].
    change (seq k0 (S n)) with (k0 :: seq (S k0) n).
    cbn [flat_map samplePixels_from_unfold_clause_1].
    replace (40 * k0 + 40)%nat with (40 * S k0)%nat by lia.
    rewrite (IH (S k0)) by lia. rewrite (Nat.add_0_r (40 * k0)). reflexivity.
Qed.

Lemma chunks_lookup {A : Type} (f : nat -> nat -> A) (n : nat) :
  forall k0 j c, (j < n)%nat -> (c < 3)%nat ->
  flat_map (fun k => [f k 0%nat; f k 1%nat; f k 2%nat]) (seq k0 n)
    !! (3 * j + c)%nat
  = Some (f (k0 + j)%nat c).
Proof.
  induction n as [|n IH]; intros k0 j c Hj Hc; [lia|].
  change (seq k0 (S n)) with (k0 :: seq (S k0) n). cbn [flat_map].
  destruct j as [|j].
  - rewrite Nat.add_0_r.
    destruct c as [|[|[|c]]]; [reflexivity | reflexivity | reflexivity | lia].
  - rewrite lookup_app_r by (cbn [length]; lia). cbn [length].
    replace (3 * S j + c - 3)%nat with (3 * j + c)%nat by lia.
    rewrite (IH (S k0) j c) by lia.
    f_equal. f_equal. lia.
Qed.

Lemma chunks_length {A : Type} (f : nat -> nat -> A) (n : nat) :
  forall k0,
  length (flat_map (fun k => [f k 0%nat; f k 1%nat; f k 2%nat]) (seq k0 n))
  = (3 * n)%nat.
Proof.
  induction n as [|n IH]; intros k0; [reflexivity|].
  change (seq k0 (S n)) with (k0 :: seq (S k0) n). cbn [flat_map].
  rewrite length_app, IH. simpl. lia.
Qed.

(** X1: on a row of [w] RGBA pixels the sampler keeps the red, green and
    blue bytes of pixels 0, 10, 20, ... below [w], in that order, and
    nothing else: the fingerprint has [3 * ceil(w / 10)] components and
    component [c] of sample [k] is byte [40 * k + c] of the row. *)
Theorem samplePixels_every_tenth (rowData : list Z) (w : nat) :
  length rowData = (4 * w)%nat ->
  length (samplePixels rowData) = (3 * ((w + 9) / 10))%nat
  /\ forall k c, (k < (w + 9) / 10)%nat -> (c < 3)%nat ->
       (10 * k < w)%nat
       /\ samplePixels rowData !! (3 * k + c)%nat
          = rowData !! (40 * k + c)%nat.
Proof.
  intros Hlen. pose proof (ceil_tenth w) as Hceil. unfold samplePixels.
  change (samplePixels_from rowData 0)
    with (samplePixels_from rowData (40 * 0)).
  rewrite (samplePixels_from_chunks rowData w ((w + 9) / 10) 0 Hlen) by lia.
  split.
  - apply (chunks_length (fun k c => rowData !!! (40 * k + c)%nat)).
  - intros k c Hk Hc. split; [lia|].
    rewrite (chunks_lookup (fun k c => rowData !!! (40 * k + c)%nat)
               ((w + 9) / 10) 0 k c Hk Hc).
    cbn [plus]. symmetry. apply list_lookup_lookup_total_lt. lia.
Qed.

Lemma samplePixels_every_tenth_witness :
  length (samplePixels elevenPixels) = (3 * ((11 + 9) / 10))%nat
  /\ forall k c, (k < (11 + 9) / 10)%nat -> (c < 3)%nat ->
       (10 * k < 11)%nat
       /\ samplePixels elevenPixels !! (3 * k + c)%nat
          = elevenPixels !! (40 * k + c)%nat.
Proof. apply (samplePixels_every_tenth elevenPixels 11). reflexivity. Defined.

(** ** The difference metric: symmetry and zero *)

Lemma fold_left_ext_fun {A B : Type} (f g : A -> B -> A) (l : list B) :
  (forall a b, f a b = g a b) -> forall a, fold_left f l a = fold_left g l a.
Proof.
  intros Hfg. induction l as [|x l IH]; intros a; simpl; [reflexivity|].
  rewrite Hfg. apply IH.
Qed.

(** X2: the metric is symmetric, in the module and in the inline copy,
    for all arrays (both sides are [NaN] when one array is empty). *)
Theorem calculatePixelDifference_symmetric (a b : list Z) :
  calculatePixelDifference a b = calculatePixelDifference b a
  /\ ContentJs.calculatePixelDifference a b
     = ContentJs.calculatePixelDifference b a.
Proof.
  unfold calculatePixelDifference, ContentJs.calculatePixelDifference.
  rewrite (Nat.min_comm (length b) (length a)).
  unfold squaredDiffLoop, ContentJs.absDiffLoop. split; f_equal.
  - apply fold_left_ext_fun. intros acc i. cbn zeta. f_equal. lia.
  - apply fold_left_ext_fun. intros acc i. f_equal. lia.
Qed.

Lemma sumSquares_zero (l : list Z) :
  forall k, length l = length k ->
  0 <= foldr Z.add 0 (zip_with (fun x y => (x - y) * (x - y)) l k)
  /\ (foldr Z.add 0 (zip_with (fun x y => (x - y) * (x - y)) l k) = 0 <-> l = k).
Proof.
  induction l as [|x l IH]; intros [|y k] Hlen; try discriminate.
  - simpl. split; [lia | split; reflexivity].
  - simpl in Hlen. destruct (IH k ltac:(lia)) as [Hpos Hzero].
    cbn [zip_with foldr]. pose proof (Z.square_nonneg (x - y)) as Hsq.
    split; [lia|]. split.
    + intros Hsum.
      assert (Hx : (x - y) * (x - y) = 0) by lia.
      assert (Hrest : foldr Z.add 0 (zip_with (fun x y => (x - y) * (x - y)) l k) = 0)
        by lia.
      apply Hzero in Hrest. subst k. f_equal. nia.
    + intros [= -> ->].
      assert (Hrest : foldr Z.add 0 (zip_with (fun x y => (x - y) * (x - y)) k k) = 0)
        by (apply Hzero; reflexivity).
      rewrite Hrest. lia.
Qed.

(** X3: with [n = min(len a, len b) > 0] the difference is a non-negative
    number, and it is zero exactly when the two arrays agree on their
    first [n] components; so an array is at distance zero from itself and
    from each of its extensions. *)
Theorem calculatePixelDifference_zero (a b : list Z) :
  let n := Nat.min (length a) (length b) in
  (0 < n)%nat ->
  exists total,
    calculatePixelDifference a b = Fin (total # Pos.of_nat n)
    /\ 0 <= total
    /\ (total = 0 <-> take n a = take n b).
Proof.
  intros n Hn. exists (spec_sumSquares n a b).
  split.
  - unfold calculatePixelDifference. fold n.
    rewrite squaredDiffLoop_spec by (subst n; lia).
    destruct n; [lia | reflexivity].
  - unfold spec_sumSquares.
    apply sumSquares_zero. rewrite !length_take. subst n. lia.
Qed.

Lemma calculatePixelDifference_zero_witness :
  exists total,
    calculatePixelDifference [5; 6; 7] [5; 6; 7; 8; 9] = Fin (total # Pos.of_nat 3)
    /\ 0 <= total
    /\ (total = 0 <-> take 3 [5; 6; 7] = take 3 [5; 6; 7; 8; 9]).
Proof.
  apply (calculatePixelDifference_zero [5; 6; 7] [5; 6; 7; 8; 9]). simpl. lia.
Defined.

(** ** The blank test ignores transparency *)

Lemma exceeds_sameColours (row1 row2 : list Z) (k : nat) :
  sameColours row1 row2 -> exceeds row1 k = exceeds row2 k.
Proof.
  intros [_ Hsame]. unfold exceeds.
  rewrite !(Hsame 0%nat), !(Hsame 1%nat), !(Hsame 2%nat) by (simpl; lia).
  rewrite (Hsame (4 * k)%nat), (Hsame (4 * k + 1)%nat), (Hsame (4 * k + 2)%nat).
  - reflexivity.
  - rewrite Nat.add_comm, Nat.mul_comm, Nat.Div0.mod_add. simpl. lia.
  - rewrite Nat.add_comm, Nat.mul_comm, Nat.Div0.mod_add. simpl. lia.
  - rewrite Nat.mul_comm, Nat.Div0.mod_mul. lia.
Qed.

(** X4: two rows of whole pixels that differ only in alpha bytes get the
    same answer from isRowBlank. *)
Theorem isRowBlank_ignores_alpha (row1 row2 : list Z) (w : nat) :
  length row1 = (4 * w)%nat ->
  sameColours row1 row2 ->
  isRowBlank row1 = isRowBlank row2.
Proof.
  intros Hlen Hsame.
  assert (Hlen2 : length row2 = (4 * w)%nat) by (destruct Hsame; lia).
  rewrite (isRowBlank_forallb row1 w Hlen), (isRowBlank_forallb row2 w Hlen2).
  induction (seq 1 (w - 1)) as [|k l IH]; [reflexivity|].
  cbn [forallb]. rewrite IH, (exceeds_sameColours row1 row2 k Hsame). reflexivity.
Qed.

Lemma isRowBlank_ignores_alpha_witness :
  isRowBlank [10; 10; 10; 255; 10; 45; 10; 255]
  = isRowBlank [10; 10; 10; 0; 10; 45; 10; 128].
Proof.
  apply (isRowBlank_ignores_alpha
           [10; 10; 10; 255; 10; 45; 10; 255] [10; 10; 10; 0; 10; 45; 10; 128] 2).
  - reflexivity.
  - split; [reflexivity|]. intros j Hj.
    destruct j as [|[|[|[|[|[|[|[|j]]]]]]]]; try reflexivity;
      simpl in Hj; congruence.
Defined.

(** ** getEdgePixels: where the content rows can be *)

(** X5: for an image of height [h >= 1] both content rows are rows of the
    image and the top one is not below the bottom one; each scan skips at
    most 50 rows and at most a tenth of the height. *)
Theorem getEdgePixels_rows_in_image (img : Image) :
  1 <= naturalHeight img ->
  let h := naturalHeight img in
  let e := getEdgePixels img in
  0 <= topY e <= bottomY e
  /\ bottomY e <= h - 1
  /\ topY e <= 50 /\ 10 * topY e <= h
  /\ h - 1 - bottomY e <= 50 /\ 10 * (h - 1 - bottomY e) <= h.
Proof.
  intros Hh h e.
  destruct (maxLetterboxRows_bounds h ltac:(subst h; lia)) as [HW Hten].
  pose proof (scanTop_spec img (Z.to_nat (maxLetterboxRows h)) 0) as (Ht & _).
  pose proof (scanBottom_spec img (Z.to_nat (maxLetterboxRows h)) (h - 1)) as (Hb & _).
  change (scanTop img (Z.to_nat (maxLetterboxRows h)) 0 0) with (topY e) in Ht.
  change (scanBottom img (Z.to_nat (maxLetterboxRows h)) (h - 1) (h - 1))
    with (bottomY e) in Hb.
  rewrite Z2Nat.id in Ht, Hb by lia. lia.
Qed.

Lemma getEdgePixels_rows_in_image_witness :
  0 <= topY (getEdgePixels letterboxed) <= bottomY (getEdgePixels letterboxed)
  /\ bottomY (getEdgePixels letterboxed) <= 20 - 1
  /\ topY (getEdgePixels letterboxed) <= 50
  /\ 10 * topY (getEdgePixels letterboxed) <= 20
  /\ 20 - 1 - bottomY (getEdgePixels letterboxed) <= 50
  /\ 10 * (20 - 1 - bottomY (getEdgePixels letterboxed)) <= 20.
Proof. apply (getEdgePixels_rows_in_image letterboxed). simpl. lia. Defined.

(** X6: an image of fewer than ten rows is never letterboxed: no row is
    even tested, the content rows are the first and the last row and both
    flags are false, whatever the pixels are. *)
Theorem getEdgePixels_short_image (img : Image) :
  0 <= naturalHeight img < 10 ->
  let e := getEdgePixels img in
  topY e = 0 /\ bottomY e = naturalHeight img - 1
  /\ hasBlankTop e = false /\ hasBlankBottom e = false.
Proof.
  intros Hh e. subst e. unfold getEdgePixels, maxLetterboxRows.
  rewrite (Z.div_small (naturalHeight img) 10) by lia.
  change (Z.to_nat (Z.min 0 50)) with 0%nat.
  cbn [scanTop scanBottom topY bottomY hasBlankTop hasBlankBottom].
  rewrite !Z.ltb_irrefl. repeat split; reflexivity.
Qed.

Lemma getEdgePixels_short_image_witness :
  topY (getEdgePixels shortStrip) = 0
  /\ bottomY (getEdgePixels shortStrip) = naturalHeight shortStrip - 1
  /\ hasBlankTop (getEdgePixels shortStrip) = false
  /\ hasBlankBottom (getEdgePixels shortStrip) = false.
Proof. apply (getEdgePixels_short_image shortStrip). simpl. lia. Defined.

(** X7: an image of at least ten rows whose rows are all blank has both
    flags set, so it is classed as floating; its content rows are the
    rows just inside the two scan windows. *)
Theorem getEdgePixels_blank_image (img : Image) :
  10 <= naturalHeight img ->
  (forall y, isRowBlank (getImageData img y) = true) ->
  let h := naturalHeight img in
  let e := getEdgePixels img in
  topY e = Z.min (h / 10) 50
  /\ bottomY e = h - 1 - Z.min (h / 10) 50
  /\ isFloating e = true.
Proof.
  intros Hh Hblank h e.
  destruct (maxLetterboxRows_bounds h ltac:(subst h; lia)) as [HW Hten].
  assert (H1 : 1 <= maxLetterboxRows h).
  { unfold maxLetterboxRows.
    pose proof (Z.div_le_mono 10 h 10 ltac:(lia) ltac:(subst h; lia)) as Hdiv.
    change (10 / 10) with 1 in Hdiv. lia. }
  pose proof (scanTop_spec img (Z.to_nat (maxLetterboxRows h)) 0) as (Ht & _ & Htn).
  pose proof (scanBottom_spec img (Z.to_nat (maxLetterboxRows h)) (h - 1))
    as (Hb & _ & Hbn).
  change (scanTop img (Z.to_nat (maxLetterboxRows h)) 0 0) with (topY e) in Ht, Htn.
  change (scanBottom img (Z.to_nat (maxLetterboxRows h)) (h - 1) (h - 1))
    with (bottomY e) in Hb, Hbn.
  rewrite Z2Nat.id in Ht, Htn, Hb, Hbn by lia.
  fold (maxLetterboxRows h).
  assert (Etop : topY e = maxLetterboxRows h).
  { destruct (Z.eq_dec (topY e) (maxLetterboxRows h)) as [Heq|Hne]; [exact Heq|].
    specialize (Htn ltac:(lia)). rewrite Hblank in Htn. discriminate. }
  assert (Ebot : bottomY e = h - 1 - maxLetterboxRows h).
  { destruct (Z.eq_dec (bottomY e) (h - 1 - maxLetterboxRows h)) as [Heq|Hne];
      [exact Heq|].
    specialize (Hbn ltac:(lia)). rewrite Hblank in Hbn. discriminate. }
  split; [exact Etop|]. split; [exact Ebot|].
  unfold isFloating.
  assert (Hbt : hasBlankTop e = (0 <? topY e)) by reflexivity.
  assert (Hbb : hasBlankBottom e = (bottomY e <? h - 1)) by reflexivity.
  rewrite Hbt, Hbb, Etop, Ebot.
  apply andb_true_iff. split; apply Z.ltb_lt; lia.
Qed.

Lemma getEdgePixels_blank_image_witness :
  topY (getEdgePixels blankStrip) = Z.min (30 / 10) 50
  /\ bottomY (getEdgePixels blankStrip) = 30 - 1 - Z.min (30 / 10) 50
  /\ isFloating (getEdgePixels blankStrip) = true.
Proof.
  apply (getEdgePixels_blank_image blankStrip).
  - simpl. lia.
  - intros y. reflexivity.
Defined.

Lemma samplePixels_length (rowData : list Z) (w : nat) :
  length rowData = (4 * w)%nat ->
  length (samplePixels rowData) = (3 * ((w + 9) / 10))%nat.
Proof.
  intros Hlen. unfold samplePixels.
  change (samplePixels_from rowData 0)
    with (samplePixels_from rowData (40 * 0)).
  rewrite (samplePixels_from_chunks rowData w ((w + 9) / 10) 0 Hlen) by lia.
  apply (chunks_length (fun k c => rowData !!! (40 * k + c)%nat)).
Qed.

(** X8: when every row of an image holds [w] RGBA pixels, both
    fingerprints have [3 * ceil(w / 10)] components, in the module and in
    the inline extractor; so images of equal width are compared over
    their whole fingerprints, and a fingerprint is empty only for width
    zero. *)
Theorem getEdgePixels_fingerprint_length (img : Image) (w : nat) :
  (forall y, length (getImageData img y) = (4 * w)%nat) ->
  let n := (3 * ((w + 9) / 10))%nat in
  length (topPixels (getEdgePixels img)) = n
  /\ length (bottomPixels (getEdgePixels img)) = n
  /\ length (Inline.topPixels (Inline.getEdgePixels img)) = n
  /\ length (Inline.bottomPixels (Inline.getEdgePixels img)) = n
  /\ (n = 0%nat <-> w = 0%nat).
Proof.
  intros Hrows n. unfold getEdgePixels, Inline.getEdgePixels.
  cbn [topPixels bottomPixels Inline.topPixels Inline.bottomPixels].
  rewrite !(samplePixels_length _ w) by apply Hrows.
  repeat (split; [reflexivity|]).
  pose proof (ceil_tenth w). subst n. lia.
Qed.

Lemma getEdgePixels_fingerprint_length_witness :
  length (topPixels (getEdgePixels letterboxed)) = (3 * ((2 + 9) / 10))%nat
  /\ length (bottomPixels (getEdgePixels letterboxed)) = (3 * ((2 + 9) / 10))%nat
  /\ length (Inline.topPixels (Inline.getEdgePixels letterboxed))
     = (3 * ((2 + 9) / 10))%nat
  /\ length (Inline.bottomPixels (Inline.getEdgePixels letterboxed))
     = (3 * ((2 + 9) / 10))%nat
  /\ ((3 * ((2 + 9) / 10))%nat = 0%nat <-> 2%nat = 0%nat).
Proof.
  apply (getEdgePixels_fingerprint_length letterboxed 2).
  intros y. unfold letterboxed. cbn [getImageData].
  destruct ((y =? 0) || (y =? 19)); reflexivity.
Defined.

(** X9: on an edge that the module does not find blank, its fingerprint
    is the one the inline extractor takes (row 0 at the top, row [h-1] at
    the bottom). *)
Theorem getEdgePixels_agrees_with_inline (img : Image) :
  (hasBlankTop (getEdgePixels img) = false ->
     topPixels (getEdgePixels img) = Inline.topPixels (Inline.getEdgePixels img))
  /\ (hasBlankBottom (getEdgePixels img) = false ->
        bottomPixels (getEdgePixels img)
        = Inline.bottomPixels (Inline.getEdgePixels img)).
Proof.
  set (h := naturalHeight img).
  pose proof (scanTop_spec img (Z.to_nat (maxLetterboxRows h)) 0) as (Ht & _).
  pose proof (scanBottom_spec img (Z.to_nat (maxLetterboxRows h)) (h - 1)) as (Hb & _).
  unfold getEdgePixels, Inline.getEdgePixels. fold h.
  cbn [topPixels bottomPixels hasBlankTop hasBlankBottom
       Inline.topPixels Inline.bottomPixels].
  split; intros Hflag; apply Z.ltb_ge in Hflag; f_equal; f_equal; lia.
Qed.

(** ** getPermutations: every rearrangement, once *)

Lemma NoDup_flat_map {A B : Type} (h : A -> list B) (l : list A) :
  NoDup l ->
  (forall x, x ∈ l -> NoDup (h x)) ->
  (forall x y z, x ∈ l -> y ∈ l -> z ∈ h x -> z ∈ h y -> x = y) ->
  NoDup (flat_map h l).
Proof.
  induction l as [|a l IH]; intros Hl Hh Hdisj; [constructor|].
  apply NoDup_cons in Hl. destruct Hl as [Ha Hl].
  cbn [flat_map]. apply NoDup_app. split; [|split].
  - apply Hh, list_elem_of_here.
  - intros z Hz Hin. apply list_elem_of_In, in_flat_map in Hin.
    destruct Hin as (y & Hy & Hzy). apply list_elem_of_In in Hy, Hzy.
    assert (a = y) as ->.
    { apply (Hdisj a y z); auto using list_elem_of_here, list_elem_of_further. }
    contradiction.
  - apply IH; [assumption | |].
    + intros x Hx. apply Hh, list_elem_of_further, Hx.
    + intros x y z Hx Hy. apply Hdisj; apply list_elem_of_further; assumption.
Qed.

Lemma NoDup_map_cons {A : Type} (x : A) (ps : list (list A)) :
  NoDup ps -> NoDup (map (cons x) ps).
Proof.
  induction 1 as [|p ps Hp Hps IH]; [constructor|].
  cbn [map]. apply NoDup_cons. split; [|exact IH].
  intros Hin. apply list_elem_of_In, in_map_iff in Hin.
  destruct Hin as (q & [= <-] & Hq). apply Hp, list_elem_of_In, Hq.
Qed.

Lemma getPermutations_fuel_NoDup {A : Type} (fuel : nat) :
  forall arr : list A, (length arr <= fuel)%nat -> NoDup arr ->
  NoDup (getPermutations_fuel fuel arr).
Proof.
  induction fuel as [|fuel IH]; intros arr Hfuel Harr.
  - rewrite getPermutations_fuel_small by lia. apply NoDup_singleton.
  - destruct (le_lt_dec (length arr) 1) as [Hle|Hgt].
    + rewrite getPermutations_fuel_small by lia. apply NoDup_singleton.
    + rewrite getPermutations_fuel_step by assumption.
      apply NoDup_flat_map; [apply NoDup_seq | |].
      * intros i Hi. apply elem_of_seq in Hi. unfold branch.
        destruct (arr !! i) as [x|] eqn:Hx; [|constructor].
        apply NoDup_map_cons, IH; [rewrite removeAt_length; lia|].
        rewrite (removeAt_perm arr i x Hx) in Harr.
        apply NoDup_cons in Harr. tauto.
      * intros i j p _ _ Hpi Hpj. unfold branch in Hpi, Hpj.
        destruct (arr !! i) as [x|] eqn:Hx; [|inversion Hpi].
        destruct (arr !! j) as [y|] eqn:Hy; [|inversion Hpj].
        apply list_elem_of_In, in_map_iff in Hpi, Hpj.
        destruct Hpi as (q & <- & _). destruct Hpj as (q' & [= -> _] & _).
        apply (NoDup_lookup arr i j x Harr Hx Hy).
Qed.

(** X10: the arrays returned by getPermutations are exactly the
    rearrangements of the argument, and when the argument has no repeated
    element none of them is returned twice. *)
Theorem getPermutations_exactly_all {A : Type} (arr : list A) :
  (forall p, p ∈ getPermutations arr <-> p ≡ₚ arr)
  /\ (NoDup arr -> NoDup (getPermutations arr)).
Proof.
  unfold getPermutations. split.
  - intros p. split.
    + apply getPermutations_fuel_sound. lia.
    + apply getPermutations_fuel_complete. lia.
  - apply getPermutations_fuel_NoDup. lia.
Qed.

Lemma getPermutations_exactly_all_witness :
  NoDup (getPermutations [0; 1; 2; 3])
  /\ [2; 0; 3; 1] ∈ getPermutations [0; 1; 2; 3].
Proof.
  destruct (getPermutations_exactly_all [0; 1; 2; 3]) as [Hall Hnodup].
  split.
  - apply Hnodup. apply NoDup_ListNoDup. repeat constructor; simpl; intuition lia.
  - apply Hall. apply NoDup_Permutation.
    + apply NoDup_ListNoDup. repeat constructor; simpl; intuition lia.
    + apply NoDup_ListNoDup. repeat constructor; simpl; intuition lia.
    + intros x. rewrite !elem_of_cons. intuition lia.
Defined.

(** ** The classification: what the anchors can be *)

(** X11: after the scan each anchor is [-1] or an index of the array that
    is not floating, and two anchors that are both found are distinct: the
    third test of the anchored condition never fails once the first two
    hold. *)
Theorem classify_anchors_distinct (edgeData : list EdgeSignature) :
  let N := Z.of_nat (length edgeData) in
  exists c,
    classify edgeData = Some c
    /\ -1 <= firstIdx c < N /\ -1 <= lastIdx c < N
    /\ (firstIdx c ∉ floatingIndices c) /\ (lastIdx c ∉ floatingIndices c)
    /\ (firstIdx c <> -1 -> lastIdx c <> -1 -> firstIdx c <> lastIdx c)
    /\ anchored c = negb (firstIdx c =? -1) && negb (lastIdx c =? -1).
Proof.
  intros N. destruct (classify_spec edgeData) as (c & Hc & Hfl & Hfirst & Hlast).
  fold N in Hfl, Hfirst, Hlast.
  exists c. split; [exact Hc|].
  assert (Hf : firstIdx c = -1
               \/ (0 <= firstIdx c < N
                   /\ flagAt isFirstCandidate edgeData (firstIdx c) = true)).
  { destruct Hfirst as [[H _]|(H1 & H2 & _)]; auto. }
  assert (Hl : lastIdx c = -1
               \/ (0 <= lastIdx c < N
                   /\ flagAt isLastCandidate edgeData (lastIdx c) = true)).
  { destruct Hlast as [[H _]|(H1 & H2 & _)]; auto. }
  assert (Hnf : forall i, i = -1 \/ flagAt isFloating edgeData i = false ->
                  i ∉ floatingIndices c).
  { intros i Hi Hin. apply (elem_of_floating edgeData c Hc) in Hin.
    destruct Hin as [Hr Hflag]. destruct Hi as [->|Hi]; [lia | congruence]. }
  assert (Hdistinct : firstIdx c <> -1 -> lastIdx c <> -1 -> firstIdx c <> lastIdx c).
  { intros Hf1 Hl1 Heq.
    destruct Hf as [?|[_ Hfq]]; [contradiction|].
    destruct Hl as [?|[_ Hlq]]; [contradiction|].
    rewrite <- Heq in Hlq. unfold flagAt, isFirstCandidate, isLastCandidate in Hfq, Hlq.
    destruct (edgeAt edgeData (firstIdx c)) as [e|]; [|discriminate].
    destruct (hasBlankTop e), (hasBlankBottom e); discriminate. }
  split; [destruct Hf as [->|[? _]]; lia|].
  split; [destruct Hl as [->|[? _]]; lia|].
  split.
  { apply Hnf. destruct Hf as [?|[_ Hq]]; [auto|].
    right. apply candidate_not_floating. auto. }
  split.
  { apply Hnf. destruct Hl as [?|[_ Hq]]; [auto|].
    right. apply candidate_not_floating. auto. }
  split; [exact Hdistinct|].
  unfold anchored.
  destruct (Z.eqb_spec (firstIdx c) (-1)) as [?|Hf1]; [reflexivity|].
  destruct (Z.eqb_spec (lastIdx c) (-1)) as [?|Hl1]; [reflexivity|].
  destruct (Z.eqb_spec (firstIdx c) (lastIdx c)) as [Heq|?]; [|reflexivity].
  exfalso. exact (Hdistinct Hf1 Hl1 Heq).
Qed.

(** ** findOptimalOrder: what the order always is *)

Lemma nonFloatingIndices_NoDup (n : nat) (floating : list Z) :
  NoDup (nonFloatingIndices n floating).
Proof. rewrite nonFloatingIndices_filter. apply NoDup_filter, NoDup_seqZ. Qed.

(** The base order of the anchored path holds the two anchors and the
    first two middle indices at most. *)
Lemma anchored_base (edgeData : list EdgeSignature) (c : Classification) :
  classify edgeData = Some c -> anchored c = true ->
  exists base,
    anchoredBaseOrder edgeData c = Some base
    /\ base ≡ₚ firstIdx c :: lastIdx c :: take 2 (middleIndicesOf (length edgeData) c)
    /\ head base = Some (firstIdx c)
    /\ last base = Some (lastIdx c).
Proof.
  intros Hc Ha.
  pose proof (anchoredBaseOrder_cases edgeData c Hc Ha) as Hcases.
  destruct (middleIndicesOf (length edgeData) c) as [|m0 [|m1 rest]].
  - eexists. split; [exact Hcases|]. repeat split; reflexivity.
  - eexists. split; [exact Hcases|]. split; [|split; reflexivity].
    apply perm_skip, perm_swap.
  - destruct Hcases as (a1 & a2 & a3 & b1 & b2 & b3 & _ & _ & _ & _ & _ & _ & Hb).
    eexists. split; [exact Hb|]. simpl. rewrite take_0.
    destruct (a1 + a2 + a3 <=? b1 + b2 + b3)%float;
      (split; [|split; reflexivity]).
    + apply perm_skip. symmetry.
      apply (Permutation_cons_append [m0; m1] (lastIdx c)).
    + apply perm_skip. transitivity (lastIdx c :: [m1; m0]).
      * symmetry. apply (Permutation_cons_append [m1; m0] (lastIdx c)).
      * apply perm_skip, perm_swap.
Qed.

Lemma anchors_middle_NoDup (edgeData : list EdgeSignature) (c : Classification) :
  classify edgeData = Some c -> anchored c = true ->
  NoDup (firstIdx c :: lastIdx c :: middleIndicesOf (length edgeData) c).
Proof.
  intros Hc Ha. rewrite (anchors_middle_perm edgeData c Hc Ha).
  apply nonFloatingIndices_NoDup.
Qed.

Lemma NoDup_take_2 {A : Type} (x y : A) (l : list A) :
  NoDup (x :: y :: l) -> NoDup (x :: y :: take 2 l).
Proof.
  intros Hl. rewrite <- (take_drop 2 l) in Hl.
  change (x :: y :: take 2 l ++ drop 2 l)
    with ((x :: y :: take 2 l) ++ drop 2 l) in Hl.
  apply NoDup_app in Hl. tauto.
Qed.

(** X12: for every array of signatures findOptimalOrder returns an order
    without repeated index, whose entries are all indices of the array,
    so never longer than the array. *)
Theorem finalOrder_no_repeats (edgeData : list EdgeSignature) :
  exists order,
    finalOrder edgeData = Some order
    /\ NoDup order
    /\ (forall i, i ∈ order -> 0 <= i < Z.of_nat (length edgeData))
    /\ (length order <= length edgeData)%nat.
Proof.
  destruct (classify_spec edgeData) as (c & Hc & _).
  destruct (finalOrder_shape edgeData c Hc) as (base & Horder & Hbase & Hfb & _).
  assert (Hnodup_base : NoDup base).
  { destruct (anchored c) eqn:Ha.
    - destruct (anchored_base edgeData c Hc Ha) as (base' & Hb & Hperm & _).
      pose proof (finalOrder_anchored _ _ _ Hc Ha Hb) as Horder'.
      rewrite Horder in Horder'. injection Horder' as Heq.
      apply app_inv_tail in Heq. subst base'.
      rewrite Hperm. apply NoDup_take_2, (anchors_middle_NoDup edgeData c Hc Ha).
    - rewrite (Hfb eq_refl). apply nonFloatingIndices_NoDup. }
  assert (Hrange : forall i, i ∈ base ++ floatingIndices c ->
                     0 <= i < Z.of_nat (length edgeData)).
  { intros i Hi. apply elem_of_app in Hi. destruct Hi as [Hi|Hi].
    - apply Hbase, (elem_of_nonFloating edgeData c Hc) in Hi. tauto.
    - apply (elem_of_floating edgeData c Hc) in Hi. tauto. }
  assert (Hnodup : NoDup (base ++ floatingIndices c)).
  { apply NoDup_app. split; [exact Hnodup_base|]. split.
    - intros i Hi Hfl. apply Hbase, (elem_of_nonFloating edgeData c Hc) in Hi.
      apply (elem_of_floating edgeData c Hc) in Hfl.
      destruct Hi as [_ Hi]. destruct Hfl as [_ Hfl]. congruence.
    - destruct (classified edgeData c Hc) as (-> & _).
      apply NoDup_filter, NoDup_seqZ. }
  exists (base ++ floatingIndices c). split; [exact Horder|].
  split; [exact Hnodup|]. split; [exact Hrange|].
  assert (Hsub : base ++ floatingIndices c ⊆+ seqZ 0 (Z.of_nat (length edgeData))).
  { apply NoDup_submseteq; [exact Hnodup|].
    intros i Hi. apply elem_of_seqZ. apply Hrange in Hi. lia. }
  apply submseteq_length in Hsub. rewrite length_seqZ in Hsub. lia.
Qed.

(** X13: on the anchored path with more than two middle indices the
    order starts with the first anchor and holds the two anchors, the two
    smallest middle indices and the floating indices; every other middle
    index is absent, and the order is shorter than the array by their
    number. *)
Theorem anchored_keeps_two_middles (edgeData : list EdgeSignature)
    (c : Classification) (m0 m1 : Z) (rest : list Z) :
  classify edgeData = Some c -> anchored c = true ->
  middleIndicesOf (length edgeData) c = m0 :: m1 :: rest ->
  exists order,
    finalOrder edgeData = Some order
    /\ head order = Some (firstIdx c)
    /\ order ≡ₚ [firstIdx c; m0; m1; lastIdx c] ++ floatingIndices c
    /\ (length order + length rest = length edgeData)%nat
    /\ (forall m, m ∈ rest -> m ∉ order).
Proof.
  intros Hc Ha Hmid.
  destruct (anchored_base edgeData c Hc Ha) as (base & Hb & Hperm & Hhead & _).
  rewrite Hmid in Hperm. simpl in Hperm. rewrite take_0 in Hperm.
  pose proof (anchors_middle_NoDup edgeData c Hc Ha) as Hnodup.
  pose proof (anchors_middle_perm edgeData c Hc Ha) as Hall.
  pose proof (nonFloating_floating_perm edgeData c Hc) as Hseq.
  rewrite Hmid in Hnodup, Hall.
  exists (base ++ floatingIndices c).
  split; [apply (finalOrder_anchored _ _ _ Hc Ha Hb)|].
  split; [destruct base; [discriminate | exact Hhead]|].
  split.
  { apply Permutation_app; [|reflexivity]. rewrite Hperm.
    apply perm_skip.
    apply (Permutation_cons_append [m0; m1] (lastIdx c)). }
  split.
  { rewrite <- Hall in Hseq. apply Permutation_length in Hseq.
    apply Permutation_length in Hperm.
    rewrite length_app, length_seqZ in Hseq. rewrite length_app.
    cbn [length] in *. lia. }
  intros m Hm Hin. apply elem_of_app in Hin. destruct Hin as [Hin|Hin].
  - rewrite Hperm in Hin.
    change (firstIdx c :: lastIdx c :: m0 :: m1 :: rest)
      with ([firstIdx c; lastIdx c; m0; m1] ++ rest) in Hnodup.
    apply NoDup_app in Hnodup. destruct Hnodup as (_ & Hdisj & _).
    apply (Hdisj m Hin Hm).
  - assert (Hmmid : m ∈ middleIndicesOf (length edgeData) c).
    { rewrite Hmid. do 2 apply list_elem_of_further. exact Hm. }
    apply (elem_of_middle edgeData c Hc) in Hmmid.
    apply (elem_of_floating edgeData c Hc) in Hin.
    destruct Hmmid as (_ & _ & _ & H1). destruct Hin as [_ H2]. congruence.
Qed.

Lemma anchored_keeps_two_middles_witness :
  exists order,
    finalOrder fourMiddles = Some order
    /\ head order = Some 0
    /\ order ≡ₚ [0; 1; 2; 5] ++ []
    /\ (length order + length [3; 4] = length fourMiddles)%nat
    /\ (forall m, m ∈ [3; 4] -> m ∉ order).
Proof.
  apply (anchored_keeps_two_middles fourMiddles (mkClass 0 5 []) 1 2 [3; 4]);
    reflexivity.
Defined.

(** ** findOptimalOrder: orders that stay as they are *)

Lemma consecutive_length {A : Type} (l : list A) :
  length (zip l (tail l)) = (length l - 1)%nat.
Proof.
  rewrite length_zip_with. destruct l as [|x l]; [reflexivity|].
  cbn [tail length]. lia.
Qed.

(** X14: on the fallback path, when all the signatures that are not
    floating carry the same fingerprints (in particular when every image
    is floating, or only one is not), the images keep their original
    order: the non-floating indices ascending, then the floating ones. *)
Theorem fallback_keeps_original_order (edgeData : list EdgeSignature)
    (c : Classification) :
  classify edgeData = Some c -> anchored c = false ->
  (forall e1 e2, e1 ∈ edgeData -> e2 ∈ edgeData ->
     isFloating e1 = false -> isFloating e2 = false ->
     topPixels e1 = topPixels e2 /\ bottomPixels e1 = bottomPixels e2) ->
  finalOrder edgeData
  = Some (filter (fun i => flagAt isFloating edgeData i = false)
            (seqZ 0 (Z.of_nat (length edgeData)))
          ++ filter (fun i => flagAt isFloating edgeData i = true)
               (seqZ 0 (Z.of_nat (length edgeData)))).
Proof.
  intros Hc Ha Hsame.
  rewrite <- (nonFloatingIndices_spec edgeData c Hc).
  destruct (classified edgeData c Hc) as (Hfl & _). rewrite <- Hfl.
  set (indices := nonFloatingIndices (length edgeData) (floatingIndices c)).
  pose proof (searchBest_total edgeData c Hc) as Hs. cbn zeta in Hs.
  fold indices in Hs.
  rewrite (finalOrder_fallback _ _ _ Hc Ha Hs). f_equal. f_equal.
  assert (Hvalid : forall p, p ≡ₚ indices ->
            Forall (fun i => 0 <= i < Z.of_nat (length edgeData)) p).
  { intros p Hp. rewrite Hp. apply Forall_forall. intros i Hi.
    apply (elem_of_nonFloating edgeData c Hc) in Hi. tauto. }
  assert (Hconst : forall p, p ≡ₚ indices ->
            totalScore edgeData p = totalScore edgeData indices).
  { intros p Hp.
    destruct (totalScore_spec edgeData p (Hvalid p Hp)) as [_ Hsp].
    destruct (totalScore_spec edgeData indices (Hvalid indices (reflexivity _)))
      as [_ Hsi].
    destruct indices as [|i0 indices'] eqn:Hidx.
    { apply Permutation_nil_r in Hp. subst p. reflexivity. }
    assert (Hi0 : i0 ∈ nonFloatingIndices (length edgeData) (floatingIndices c)).
    { fold indices. rewrite Hidx. apply list_elem_of_here. }
    apply (elem_of_nonFloating edgeData c Hc) in Hi0. destruct Hi0 as [Hr0 Hf0].
    destruct (edgeAt_in_range edgeData i0 Hr0) as [e0 He0].
    set (d := Double.calculatePixelDifference (bottomPixels e0) (topPixels e0)).
    assert (Hpair : forall q, q ≡ₚ i0 :: indices' ->
              Forall (fun pair => pairDifference edgeData pair.1 pair.2 = Some d)
                (zip q (tail q))).
    { intros q Hq.
      assert (Hq' : Forall (fun i =>
                exists e, edgeAt edgeData i = Some e
                          /\ topPixels e = topPixels e0
                          /\ bottomPixels e = bottomPixels e0) q).
      { rewrite Hq, <- Hidx. apply Forall_forall. intros i Hi.
        apply (elem_of_nonFloating edgeData c Hc) in Hi. destruct Hi as [Hr Hf].
        destruct (edgeAt_in_range edgeData i Hr) as [e He].
        exists e. split; [exact He|].
        apply Hsame.
        + exact (edgeAt_elem_of _ _ _ He).
        + exact (edgeAt_elem_of _ _ _ He0).
        + unfold flagAt in Hf. rewrite He in Hf. exact Hf.
        + unfold flagAt in Hf0. rewrite He0 in Hf0. exact Hf0. }
      apply Forall_consecutive in Hq'.
      eapply Forall_impl; [exact Hq'|].
      intros [i j] [Hi Hj]. cbn [fst snd] in *.
      destruct Hi as (ei & Hei & _ & Hbi). destruct Hj as (ej & Hej & Htj & _).
      unfold pairDifference. rewrite Hei, Hej.
      cbn [mbind option_bind]. subst d. rewrite Hbi, Htj. reflexivity. }
    unfold spec_totalScore in Hsp, Hsi.
    rewrite (score_fold_constant (pairDifference edgeData) d _ (Hpair p Hp)) in Hsp.
    rewrite (score_fold_constant (pairDifference edgeData) d _
               (Hpair _ (reflexivity _))) in Hsi.
    rewrite !consecutive_length in Hsp, Hsi.
    rewrite (Permutation_length Hp) in Hsp. congruence. }
  pose proof (getPermutations_fuel_head (length indices) indices (le_n _)) as Hhead.
  fold (getPermutations indices) in Hhead.
  destruct (getPermutations indices) as [|p0 rest] eqn:Hperms; [discriminate|].
  cbn in Hhead. injection Hhead as ->.
  apply (search_constant (totalScore edgeData) (totalScore edgeData indices)).
  intros p Hp. apply Hconst. rewrite <- Hperms in Hp.
  apply getPermutations_fuel_sound in Hp; [exact Hp | lia].
Qed.

Lemma fallback_keeps_original_order_witness :
  finalOrder lookAlikes
  = Some (filter (fun i => flagAt isFloating lookAlikes i = false)
            (seqZ 0 (Z.of_nat (length lookAlikes)))
          ++ filter (fun i => flagAt isFloating lookAlikes i = true)
               (seqZ 0 (Z.of_nat (length lookAlikes)))).
Proof.
  apply (fallback_keeps_original_order lookAlikes (mkClass (-1) (-1) [1])).
  - reflexivity.
  - reflexivity.
  - intros e1 e2 H1 H2 Hf1 Hf2.
    repeat (apply elem_of_cons in H1; destruct H1 as [H1|H1]);
      try (inversion H1; fail); subst e1; try discriminate;
      repeat (apply elem_of_cons in H2; destruct H2 as [H2|H2]);
      try (inversion H2; fail); subst e2; try discriminate;
      split; reflexivity.
Defined.

(** ** findOptimalOrder on the images *)

(** With at most four signatures the order is a rearrangement of all the
    indices. *)
Lemma finalOrder_small (edgeData : list EdgeSignature) :
  (length edgeData <= 4)%nat ->
  exists order,
    finalOrder edgeData = Some order
    /\ order ≡ₚ seqZ 0 (Z.of_nat (length edgeData)).
Proof.
  intros Hsmall. destruct (classify_spec edgeData) as (c & Hc & _).
  destruct (finalOrder_shape edgeData c Hc) as (base & Horder & _ & Hfb & Han).
  pose proof (nonFloating_floating_perm edgeData c Hc) as Hall.
  exists (base ++ floatingIndices c). split; [exact Horder|].
  rewrite <- Hall. apply Permutation_app; [|reflexivity].
  destruct (anchored c) eqn:Ha; [|apply Hfb; reflexivity].
  apply Han; [reflexivity|].
  pose proof (Permutation_length (anchors_middle_perm edgeData c Hc Ha)) as H1.
  pose proof (Permutation_length Hall) as H2.
  rewrite length_app, length_seqZ in H2. simpl in H1. lia.
Qed.

(** X15: an empty array gives an empty order and a single image gives
    the order [0], whatever its flags and fingerprints are. *)
Theorem finalOrder_at_most_one (edgeData : list EdgeSignature) :
  (length edgeData <= 1)%nat ->
  finalOrder edgeData = Some (seqZ 0 (Z.of_nat (length edgeData))).
Proof.
  intros Hlen.
  destruct (finalOrder_small edgeData ltac:(lia)) as (order & Horder & Hperm).
  rewrite Horder. f_equal.
  destruct edgeData as [|e [|e' edgeData]]; [| |simpl in Hlen; lia].
  - apply Permutation_nil_r in Hperm. exact Hperm.
  - apply Permutation_singleton_r in Hperm. exact Hperm.
Qed.

Lemma finalOrder_at_most_one_witness :
  finalOrder [signature true true [] []]
  = Some (seqZ 0 (Z.of_nat (length [signature true true [] []]))).
Proof. apply (finalOrder_at_most_one [signature true true [] []]). simpl. lia. Defined.

Lemma lookup_all_indices {A : Type} (l : list A) :
  map (fun i => if i <? 0 then None else l !! Z.to_nat i)
    (seqZ 0 (Z.of_nat (length l)))
  = map Some l.
Proof.
  induction l as [|x l IH] using rev_ind; [reflexivity|].
  rewrite length_app. cbn [length].
  replace (length l + 1)%nat with (S (length l)) by lia.
  rewrite seqZ_S, !map_app, Z.add_0_l. cbn [map]. f_equal.
  - rewrite <- IH. apply map_ext_in. intros i Hi.
    apply list_elem_of_In, elem_of_seqZ in Hi.
    destruct (Z.ltb_spec i 0) as [Hneg|_]; [lia|].
    apply lookup_app_l. lia.
  - destruct (Z.ltb_spec (Z.of_nat (length l)) 0) as [Hneg|_]; [lia|].
    rewrite Nat2Z.id, (list_lookup_middle l [] x (length l) eq_refl). reflexivity.
Qed.

(** X16: given at most four images (the extension always passes four),
    findOptimalOrder returns the same images rearranged: none missing,
    none repeated, none undefined. *)
Theorem findOptimalOrder_rearranges (imageElements : list Image) :
  (length imageElements <= 4)%nat ->
  exists ordered,
    findOptimalOrder imageElements = Some ordered
    /\ ordered ≡ₚ map Some imageElements.
Proof.
  intros Hlen.
  destruct (finalOrder_small (map getEdgePixels imageElements)) as (order & Horder & Hperm).
  { rewrite length_map. exact Hlen. }
  rewrite length_map in Hperm.
  eexists. split.
  - unfold findOptimalOrder. cbn zeta. rewrite Horder. reflexivity.
  - rewrite <- lookup_all_indices. apply Permutation_map. exact Hperm.
Qed.

Lemma findOptimalOrder_rearranges_witness :
  exists ordered,
    findOptimalOrder fourImages = Some ordered
    /\ ordered ≡ₚ map Some fourImages.
Proof. apply (findOptimalOrder_rearranges fourImages). simpl. lia. Defined.

(** ** The inline search of content.js *)

Lemma inline_allIndices (n : nat) : Inline.allIndices n = seqZ 0 (Z.of_nat n).
Proof.
  unfold Inline.allIndices.
  rewrite (foldl_push_map (fun i : Z => i)). cbn [app]. apply map_id.
Qed.

Lemma inline_edgeAt_in_range (edgeData : list Inline.EdgePixels) (i : Z) :
  0 <= i < Z.of_nat (length edgeData) ->
  exists e, Inline.edgeAt edgeData i = Some e /\ e ∈ edgeData.
Proof.
  intros Hi. unfold Inline.edgeAt.
  destruct (Z.ltb_spec i 0) as [Hneg|_]; [lia|].
  destruct (lookup_lt_is_Some_2 edgeData (Z.to_nat i) ltac:(lia)) as [e He].
  exists e. split; [exact He | exact (list_elem_of_lookup_2 _ _ _ He)].
Qed.

Lemma inline_pairDifference_in_range (edgeData : list Inline.EdgePixels) (i j : Z) :
  0 <= i < Z.of_nat (length edgeData) ->
  0 <= j < Z.of_nat (length edgeData) ->
  is_Some (Inline.pairDifference edgeData i j).
Proof.
  intros Hi Hj.
  destruct (inline_edgeAt_in_range edgeData i Hi) as (ei & Hei & _).
  destruct (inline_edgeAt_in_range edgeData j Hj) as (ej & Hej & _).
  unfold Inline.pairDifference. rewrite Hei, Hej. eexists. reflexivity.
Qed.

Lemma inline_pairDifference_nonneg (edgeData : list Inline.EdgePixels) (i j : Z)
    (d : float) :
  Inline.pairDifference edgeData i j = Some d -> PrimFloat.is_nan d = false ->
  Binary64.nonneg d.
Proof.
  unfold Inline.pairDifference.
  destruct (Inline.edgeAt edgeData i) as [ei|]; [|discriminate].
  destruct (Inline.edgeAt edgeData j) as [ej|]; [|discriminate].
  cbn [mbind option_bind]. intros [= <-]. apply div_len_nonneg.
Qed.

Lemma inline_totalScore_spec (edgeData : list Inline.EdgePixels) (order : list Z) :
  Forall (fun i => 0 <= i < Z.of_nat (length edgeData)) order ->
  Inline.permutationScore edgeData order = Some (Inline.totalScore edgeData order)
  /\ Inline.spec_totalScore edgeData order = Some (Inline.totalScore edgeData order).
Proof.
  intros Hvalid.
  destruct (score_fold_defined (Inline.pairDifference edgeData)
              (zip order (tail order)))
    with (t := PrimFloat.zero) as (s & Hs).
  { eapply Forall_impl; [apply (Forall_consecutive _ order Hvalid)|].
    intros [i j] [Hi Hj]. apply inline_pairDifference_in_range; assumption. }
  assert (Hscore : Inline.permutationScore edgeData order = Some s).
  { etransitivity;
      [exact (score_loop_pairs (Inline.pairDifference edgeData) order []
                (Some PrimFloat.zero))
      | exact Hs]. }
  unfold Inline.totalScore, Inline.spec_totalScore. rewrite Hscore, Hs.
  split; reflexivity.
Qed.

Lemma inline_totalScore_number (edgeData : list Inline.EdgePixels)
    (indices order : list Z) :
  Inline.numericDifferences edgeData indices ->
  (forall i, i ∈ order -> i ∈ indices) ->
  Inline.spec_totalScore edgeData order = Some (Inline.totalScore edgeData order) ->
  PrimFloat.is_nan (Inline.totalScore edgeData order) = false.
Proof.
  intros Hnum Hsub Hspec. apply Binary64Facts.nonneg_number.
  apply (score_fold_nonneg (Inline.pairDifference edgeData) (zip order (tail order)))
    with (t := PrimFloat.zero); [|apply Binary64Facts.nonneg_zero | exact Hspec].
  assert (Hall : Forall (fun i => i ∈ indices) order).
  { apply Forall_forall. exact Hsub. }
  eapply Forall_impl; [apply (Forall_consecutive _ order Hall)|].
  intros [i j] [Hi Hj]. cbn [fst snd] in *.
  destruct (Hnum i j Hi Hj) as (d & Hd & Hnan).
  exists d. split; [exact Hd|].
  apply (inline_pairDifference_nonneg edgeData i j d Hd Hnan).
Qed.

Lemma inline_searchStep_total (edgeData : list Inline.EdgePixels)
    (perms : list (list Z)) :
  (forall p, p ∈ perms ->
     Inline.permutationScore edgeData p = Some (Inline.totalScore edgeData p)) ->
  forall st,
    foldl (Inline.searchStep edgeData) (Some st) perms
    = Some (foldl (bestStep (Inline.totalScore edgeData)) st perms).
Proof.
  induction perms as [|p perms IH]; intros Hsome st; [reflexivity|].
  cbn [foldl]. unfold Inline.searchStep at 2. destruct st as [bp bs].
  cbn [mbind option_bind]. rewrite (Hsome p) by apply list_elem_of_here.
  cbn [mbind option_bind]. unfold bestStep at 2. cbn [snd].
  destruct (Inline.totalScore edgeData p <? bs)%float;
    (apply IH; intros q Hq; apply Hsome, list_elem_of_further, Hq).
Qed.

Lemma inline_bestPermutation_total (edgeData : list Inline.EdgePixels) :
  let indices := seqZ 0 (Z.of_nat (length edgeData)) in
  Inline.bestPermutation edgeData
  = Some (foldl (bestStep (Inline.totalScore edgeData)) (indices, PrimFloat.infinity)
            (getPermutations indices)).1.
Proof.
  intros indices. unfold Inline.bestPermutation. cbn zeta.
  rewrite inline_allIndices. fold indices.
  rewrite inline_searchStep_total.
  - cbn [mbind option_bind].
    destruct (foldl (bestStep (Inline.totalScore edgeData))
                (indices, PrimFloat.infinity) (getPermutations indices)).
    reflexivity.
  - intros p Hp. apply inline_totalScore_spec.
    apply getPermutations_fuel_sound in Hp; [|lia].
    rewrite Hp. apply Forall_seqZ. intros i Hi. lia.
Qed.

(** X17: the inline findOptimalOrder never throws and, for any number of
    images, returns all of them rearranged. *)
Theorem inline_findOptimalOrder_rearranges (imageElements : list Image) :
  exists best ordered,
    Inline.bestPermutation (map Inline.getEdgePixels imageElements) = Some best
    /\ best ≡ₚ seqZ 0 (Z.of_nat (length imageElements))
    /\ Inline.findOptimalOrder imageElements = Some ordered
    /\ ordered ≡ₚ map Some imageElements.
Proof.
  set (edgeData := map Inline.getEdgePixels imageElements).
  assert (Hlen : length edgeData = length imageElements) by apply length_map.
  pose proof (inline_bestPermutation_total edgeData) as Hbest. cbn zeta in Hbest.
  rewrite Hlen in Hbest.
  set (indices := seqZ 0 (Z.of_nat (length imageElements))) in *.
  pose proof (search_no_lower (Inline.totalScore edgeData) indices
                (getPermutations indices)) as [Hend _].
  cbn zeta in Hend.
  remember (foldl (bestStep (Inline.totalScore edgeData)) (indices, PrimFloat.infinity)
              (getPermutations indices)) as st eqn:Hst.
  assert (Hperm : st.1 ≡ₚ indices).
  { destruct Hend as [Hend|[Hin _]].
    - rewrite Hend. reflexivity.
    - apply getPermutations_fuel_sound in Hin; [exact Hin | lia]. }
  exists st.1. eexists. split; [exact Hbest|]. split; [exact Hperm|]. split.
  - unfold Inline.findOptimalOrder. cbn zeta. fold edgeData. rewrite Hbest.
    reflexivity.
  - rewrite <- lookup_all_indices. apply Permutation_map. exact Hperm.
Qed.

(** X18: when every inline difference between two images is a number
    (defined and not [NaN]), the order chosen by the inline search has the
    least total of inline differences among all orders of the images, the
    totals being added up from left to right in double precision as the
    code does, and every order generated before it has a strictly greater
    total. *)
Theorem inline_search_minimal (edgeData : list Inline.EdgePixels) :
  let indices := seqZ 0 (Z.of_nat (length edgeData)) in
  Inline.numericDifferences edgeData indices ->
  exists best score k,
    Inline.bestPermutation edgeData = Some best
    /\ getPermutations indices !! k = Some best
    /\ Inline.spec_totalScore edgeData best = Some score
    /\ (forall p, p ≡ₚ indices ->
          exists s, Inline.spec_totalScore edgeData p = Some s
                    /\ (score <=? s)%float = true)
    /\ (forall j q, (j < k)%nat -> getPermutations indices !! j = Some q ->
          exists s, Inline.spec_totalScore edgeData q = Some s
                    /\ (score <? s)%float = true).
Proof.
  intros indices Hnum.
  pose proof (inline_bestPermutation_total edgeData) as Hbest. cbn zeta in Hbest.
  fold indices in Hbest.
  assert (Hsound : forall p, p ∈ getPermutations indices -> p ≡ₚ indices).
  { intros p Hp. apply getPermutations_fuel_sound in Hp; [exact Hp | lia]. }
  assert (Hscore : forall p, p ≡ₚ indices ->
            Inline.spec_totalScore edgeData p
            = Some (Inline.totalScore edgeData p)).
  { intros p Hp. apply inline_totalScore_spec. rewrite Hp.
    apply Forall_seqZ. intros i Hi. lia. }
  pose proof (getPermutations_fuel_head (length indices) indices (le_n _)) as Hhead.
  fold (getPermutations indices) in Hhead.
  destruct (getPermutations indices) as [|p0 rest] eqn:Hperms; [discriminate|].
  cbn in Hhead. injection Hhead as ->.
  destruct (search_minimal (Inline.totalScore edgeData) indices rest)
    as (k & Hk & Hmin & Hearlier).
  { intros p Hp. apply Hsound in Hp.
    apply (inline_totalScore_number edgeData indices p Hnum);
      [intros i Hi; rewrite <- Hp; exact Hi | apply Hscore, Hp]. }
  remember (foldl (bestStep (Inline.totalScore edgeData)) (indices, PrimFloat.infinity)
              (indices :: rest)) as st eqn:Hst.
  exists st.1, (Inline.totalScore edgeData st.1), k.
  split; [exact Hbest|]. split; [exact Hk|].
  split; [apply Hscore, Hsound, (list_elem_of_lookup_2 _ _ _ Hk)|].
  split.
  - intros p Hp. exists (Inline.totalScore edgeData p).
    split; [apply Hscore, Hp|].
    apply Hmin. rewrite <- Hperms.
    apply getPermutations_fuel_complete; [lia | exact Hp].
  - intros j q Hj Hq. exists (Inline.totalScore edgeData q).
    split; [apply Hscore, Hsound, (list_elem_of_lookup_2 _ _ _ Hq)|].
    apply (Hearlier j q Hj Hq).
Qed.

Lemma inline_search_minimal_witness :
  exists best score k,
    Inline.bestPermutation inlineRounded = Some best
    /\ getPermutations (seqZ 0 (Z.of_nat (length inlineRounded))) !! k = Some best
    /\ Inline.spec_totalScore inlineRounded best = Some score
    /\ (forall p, p ≡ₚ seqZ 0 (Z.of_nat (length inlineRounded)) ->
          exists s, Inline.spec_totalScore inlineRounded p = Some s
                    /\ (score <=? s)%float = true)
    /\ (forall j q, (j < k)%nat ->
          getPermutations (seqZ 0 (Z.of_nat (length inlineRounded))) !! j = Some q ->
          exists s, Inline.spec_totalScore inlineRounded q = Some s
                    /\ (score <? s)%float = true).
Proof.
  apply (inline_search_minimal inlineRounded).
  intros i j Hi Hj.
  repeat (apply elem_of_cons in Hi; destruct Hi as [->|Hi]);
    try (inversion Hi; fail);
    repeat (apply elem_of_cons in Hj; destruct Hj as [->|Hj]);
    try (inversion Hj; fail);
    (eexists; split; [reflexivity | reflexivity]).
Defined.

(** Rounding decides between the orders 0, 1, 2 and 1, 0, 2 of
    [inlineRounded]: their exact sums are both 7/3, the sum of the first,
    formed in double precision, is the greater, and the second is
    returned. *)
Example inline_rounding :
  ContentJs.calculatePixelDifference [5; 0; 3] [5; 5; 2] = Fin (6 # 3)
  /\ ContentJs.calculatePixelDifference [4; 2; 1] [4; 1; 1] = Fin (1 # 3)
  /\ ContentJs.calculatePixelDifference [4; 2; 1] [4; 5; 1] = Fin (3 # 3)
  /\ ContentJs.calculatePixelDifference [5; 0; 3] [4; 1; 1] = Fin (4 # 3)
  /\ ((6 # 3) + (1 # 3) == (3 # 3) + (4 # 3))%Q
  /\ (Inline.totalScore inlineRounded [1; 0; 2]
      <? Inline.totalScore inlineRounded [0; 1; 2])%float = true
  /\ Inline.bestPermutation inlineRounded = Some [1; 0; 2].
Proof. repeat split. Qed.

(** The chain 0, 3, 1, 2 is the one found. *)
Example inline_bestPermutation_chain :
  Inline.bestPermutation inlineChain = Some [0; 3; 1; 2].
Proof. reflexivity. Qed.

(** ** The address of the large rendition *)

Module UrlFacts.
Import Ascii String Url.
#[local] Open Scope string_scope.

Lemma append_assoc (a b c : string) : (a ++ b) ++ c = a ++ (b ++ c).
Proof. induction a as [|x a IH]; simpl; [reflexivity | rewrite IH; reflexivity]. Qed.

Lemma prefix_empty (s : string) : prefix "" s = true.
Proof. destruct s; reflexivity. Qed.

Lemma prefix_append (p r : string) : prefix p (p ++ r) = true.
Proof.
  induction p as [|x p IH]; simpl; [apply prefix_empty|].
  destruct (ascii_dec x x) as [_|Hne]; [exact IH | contradiction].
Qed.

Lemma prefix_decompose (p : string) :
  forall s, prefix p s = true -> exists rest, s = p ++ rest.
Proof.
  induction p as [|x p IH]; intros s Hs.
  - exists s. reflexivity.
  - destruct s as [|y s]; [discriminate|]. simpl in Hs.
    destruct (ascii_dec x y) as [->|_]; [|discriminate].
    destruct (IH s Hs) as [rest ->]. exists rest. reflexivity.
Qed.

(** A test for [p] at the start reads no further than [p] is long. *)
Lemma prefix_same_start (p : string) :
  forall a r r', (length p <= length a)%nat ->
  prefix p (a ++ r) = prefix p (a ++ r').
Proof.
  induction p as [|x p IH]; intros a r r' Hlen; [rewrite !prefix_empty; reflexivity|].
  destruct a as [|y a]; [simpl in Hlen; lia|]. simpl.
  destruct (ascii_dec x y); [|reflexivity].
  apply IH. simpl in Hlen. lia.
Qed.

(** Nor past a character that [p] does not hold. *)
Lemma prefix_stops_at (ch : ascii) (p : string) :
  occurs ch p = false ->
  forall a r r', prefix p (a ++ String ch r) = prefix p (a ++ String ch r').
Proof.
  induction p as [|x p IH]; intros Hocc a r r'; [rewrite !prefix_empty; reflexivity|].
  simpl in Hocc. destruct (ascii_dec x ch) as [|Hne]; [discriminate|].
  destruct a as [|y a]; simpl.
  - destruct (ascii_dec x ch); [contradiction | reflexivity].
  - destruct (ascii_dec x y); [|reflexivity]. apply IH. exact Hocc.
Qed.

Lemma prefix_extend (p : string) :
  forall u r, prefix p u = true -> prefix p (u ++ r) = true.
Proof.
  induction p as [|x p IH]; intros u r Hu; [apply prefix_empty|].
  destruct u as [|y u]; [discriminate|]. simpl in *.
  destruct (ascii_dec x y); [|discriminate]. apply IH. exact Hu.
Qed.

Lemma length_append (a b : string) : length (a ++ b) = (length a + length b)%nat.
Proof. induction a as [|x a IH]; simpl; [reflexivity | rewrite IH; reflexivity]. Qed.

Lemma splitHead_is_prefix (p s : string) : exists r, s = splitHead p s ++ r.
Proof.
  induction s as [|c s IH].
  - exists "". destruct p; reflexivity.
  - cbn [splitHead]. destruct (prefix p (String c s)).
    + exists (String c s). reflexivity.
    + destruct IH as [r Hr]. exists r. cbn [append]. rewrite <- Hr. reflexivity.
Qed.

(** When the separator occurs, the string is the head, the separator and
    a rest. *)
Lemma includes_splitHead (p s : string) :
  includes p s = true -> exists rest, s = splitHead p s ++ p ++ rest.
Proof.
  induction s as [|c s IH]; intros Hinc.
  - destruct p; [|discriminate]. exists "". reflexivity.
  - cbn [includes] in Hinc. cbn [splitHead].
    destruct (prefix p (String c s)) eqn:Hp.
    + apply (prefix_decompose p _ Hp).
    + rewrite orb_false_l in Hinc. destruct (IH Hinc) as [rest Hrest].
      exists rest. cbn [append]. rewrite <- Hrest. reflexivity.
Qed.

(** The head holds no occurrence of the separator. *)
Lemma splitHead_no_separator (p s : string) :
  p <> "" -> includes p (splitHead p s) = false.
Proof.
  intros Hp. induction s as [|c s IH].
  - destruct p; [contradiction | reflexivity].
  - cbn [splitHead]. destruct (prefix p (String c s)) eqn:E.
    + destruct p; [contradiction | reflexivity].
    + cbn [includes]. rewrite IH, orb_false_r.
      destruct (prefix p (String c (splitHead p s))) eqn:E'; [|reflexivity].
      destruct (splitHead_is_prefix p s) as [r Hr].
      apply (prefix_extend p _ r) in E'. cbn [append] in E'. rewrite <- Hr in E'.
      congruence.
Qed.

Lemma includes_at_start (p s : string) :
  prefix p s = true -> includes p s = true /\ splitHead p s = "".
Proof.
  intros Hp. destruct s; cbn [includes splitHead]; rewrite Hp; split; reflexivity.
Qed.

Lemma includes_append (p u r : string) : includes p (u ++ p ++ r) = true.
Proof.
  induction u as [|c u IH].
  - exact (proj1 (includes_at_start p (p ++ r) (prefix_append p r))).
  - cbn [append includes]. rewrite IH. apply orb_true_r.
Qed.

(** The head does not depend on what follows the first separator. *)
Lemma splitHead_stable (p : string) :
  forall u r r',
    splitHead p (u ++ p ++ r) = u -> splitHead p (u ++ p ++ r') = u.
Proof.
  induction u as [|c u IH]; intros r r' Hu.
  - exact (proj2 (includes_at_start p (p ++ r') (prefix_append p r'))).
  - cbn [append splitHead] in Hu |- *.
    destruct (prefix p (String c (u ++ p ++ r))) eqn:E; [discriminate|].
    injection Hu as Hu.
    assert (E' : prefix p (String c (u ++ p ++ r')) = false).
    { rewrite <- E.
      change (String c (u ++ p ++ r')) with (String c u ++ p ++ r').
      change (String c (u ++ p ++ r)) with (String c u ++ p ++ r).
      rewrite <- !append_assoc. apply prefix_same_start.
      rewrite length_append. simpl. lia. }
    rewrite E'. f_equal. apply (IH r r' Hu).
Qed.

Lemma includes_question (s : string) :
  includes "?format=" s = true -> includes "?" s = true.
Proof.
  induction s as [|c s IH]; [discriminate|].
  cbn [includes]. intros Hinc. apply orb_true_iff in Hinc.
  destruct Hinc as [Hpre|Hinc]; [|rewrite (IH Hinc); apply orb_true_r].
  cbn [prefix] in Hpre. cbn [prefix].
  destruct (ascii_dec "?" c); [rewrite prefix_empty; reflexivity | discriminate].
Qed.

(** X19: an address holding [&name=] keeps what precedes its first
    occurrence, which holds no [&name=], and gets [&name=large]; failing
    that, an address holding [?format=] keeps what precedes its first
    question mark and gets [?format=jpg&name=large]; any other address is
    left as it is. *)
Theorem largeImageUrl_cases (src : string) :
  (includes "&name=" src = true ->
     exists pre rest,
       src = pre ++ "&name=" ++ rest
       /\ includes "&name=" pre = false
       /\ largeImageUrl src = pre ++ "&name=large")
  /\ (includes "&name=" src = false -> includes "?format=" src = true ->
        exists pre rest,
          src = pre ++ "?" ++ rest
          /\ occurs "?" pre = false
          /\ largeImageUrl src = pre ++ "?format=jpg&name=large")
  /\ (includes "&name=" src = false -> includes "?format=" src = false ->
        largeImageUrl src = src).
Proof.
  unfold largeImageUrl. split; [|split].
  - intros Hname. rewrite Hname.
    destruct (includes_splitHead "&name=" src Hname) as [rest Hrest].
    exists (splitHead "&name=" src), rest.
    split; [exact Hrest|]. split; [|reflexivity].
    apply splitHead_no_separator. discriminate.
  - intros Hname Hformat. rewrite Hname, Hformat.
    destruct (includes_splitHead "?" src (includes_question src Hformat))
      as [rest Hrest].
    exists (splitHead "?" src), rest.
    split; [exact Hrest|]. split; [|reflexivity].
    clear. induction src as [|c src IH]; [reflexivity|].
    cbn [splitHead]. destruct (prefix "?" (String c src)) eqn:E; [reflexivity|].
    cbn [occurs]. destruct (ascii_dec c "?") as [->|_]; [|exact IH].
    cbn [prefix] in E.
    destruct (ascii_dec "?" "?"); [|contradiction].
    rewrite prefix_empty in E. discriminate.
  - intros Hname Hformat. rewrite Hname, Hformat. reflexivity.
Qed.

Lemma largeImageUrl_cases_witness :
  (exists pre rest,
     smallAddress = pre ++ "&name=" ++ rest
     /\ includes "&name=" pre = false
     /\ largeImageUrl smallAddress = pre ++ "&name=large")
  /\ (exists pre rest,
        formatOnlyAddress = pre ++ "?" ++ rest
        /\ occurs "?" pre = false
        /\ largeImageUrl formatOnlyAddress = pre ++ "?format=jpg&name=large").
Proof.
  split.
  - apply (proj1 (largeImageUrl_cases smallAddress)). reflexivity.
  - apply (proj1 (proj2 (largeImageUrl_cases formatOnlyAddress))); reflexivity.
Defined.

Example largeImageUrl_small :
  largeImageUrl smallAddress
  = "https://pbs.twimg.com/media/Abc?format=jpg&name=large".
Proof. reflexivity. Qed.

Example largeImageUrl_formatOnly :
  largeImageUrl formatOnlyAddress
  = "https://pbs.twimg.com/media/Abc?format=jpg&name=large".
Proof. reflexivity. Qed.

Lemma splitHead_after_format (base rest : string) :
  includes "&name=" (base ++ "?" ++ rest) = false ->
  splitHead "&name=" (base ++ "?format=jpg&name=large") = base ++ "?format=jpg".
Proof.
  induction base as [|c base IH]; intros Hinc; [reflexivity|].
  cbn [append includes] in Hinc. apply orb_false_iff in Hinc.
  destruct Hinc as [Hpre Hinc].
  cbn [append splitHead].
  assert (E : prefix "&name=" (String c (base ++ "?format=jpg&name=large")) = false).
  { transitivity (prefix "&name=" (String c (base ++ String "?" rest)));
      [|exact Hpre].
    apply (prefix_stops_at "?" "&name=" eq_refl (String c base)
             "format=jpg&name=large" rest). }
  rewrite E. f_equal. apply IH. exact Hinc.
Qed.

(** X20: rewriting an address that was already rewritten changes
    nothing. *)
Theorem largeImageUrl_idempotent (src : string) :
  largeImageUrl (largeImageUrl src) = largeImageUrl src.
Proof.
  destruct (includes "&name=" src) eqn:Hname.
  - destruct (includes_splitHead "&name=" src Hname) as [rest Hrest].
    set (pre := splitHead "&name=" src) in *.
    assert (Hone : largeImageUrl src = pre ++ "&name=" ++ "large").
    { unfold largeImageUrl. rewrite Hname. reflexivity. }
    assert (Hhead : splitHead "&name=" (pre ++ "&name=" ++ "large") = pre).
    { apply (splitHead_stable "&name=" pre rest "large").
      rewrite <- Hrest. reflexivity. }
    rewrite Hone. unfold largeImageUrl.
    rewrite (includes_append "&name=" pre "large"), Hhead. reflexivity.
  - destruct (includes "?format=" src) eqn:Hformat.
    + destruct (includes_splitHead "?" src (includes_question src Hformat))
        as [rest Hrest].
      set (base := splitHead "?" src) in *.
      assert (Hone : largeImageUrl src = base ++ "?format=jpg&name=large").
      { unfold largeImageUrl. rewrite Hname, Hformat. reflexivity. }
      assert (Hinc : includes "&name=" (base ++ "?format=jpg&name=large") = true).
      { change (base ++ "?format=jpg&name=large")
          with (base ++ "?format=jpg" ++ "&name=" ++ "large").
        rewrite <- append_assoc. apply includes_append. }
      rewrite Hone. unfold largeImageUrl. rewrite Hinc.
      rewrite (splitHead_after_format base rest) by (rewrite <- Hrest; exact Hname).
      rewrite append_assoc. reflexivity.
    + assert (Hone : largeImageUrl src = src).
      { unfold largeImageUrl. rewrite Hname, Hformat. reflexivity. }
      rewrite !Hone. reflexivity.
Qed.

End UrlFacts.

(** ** Bounds on the difference of byte fingerprints *)

Lemma sum_bounded (g : Z -> Z -> Z) (bound : Z) (l : list Z) :
  (forall x y, 0 <= x <= 255 -> 0 <= y <= 255 -> 0 <= g x y <= bound) ->
  Forall (fun x => 0 <= x <= 255) l ->
  forall k, Forall (fun x => 0 <= x <= 255) k ->
  0 <= foldr Z.add 0 (zip_with g l k)
    <= bound * Z.of_nat (length (zip_with g l k)).
Proof.
  intros Hg Hl. induction Hl as [|x l Hx _ IH]; intros k Hk.
  - simpl. lia.
  - destruct Hk as [|y k Hy Hk]; [simpl; lia|].
    cbn [zip_with foldr length]. specialize (IH k Hk).
    pose proof (Hg x y Hx Hy). lia.
Qed.

Lemma square_of_byte_difference (x y : Z) :
  0 <= x <= 255 -> 0 <= y <= 255 -> 0 <= (x - y) * (x - y) <= 65025.
Proof.
  intros Hx Hy.
  pose proof (Z.square_nonneg (x - y)) as Hsq.
  pose proof (Z.mul_nonneg_nonneg (255 - (x - y)) (255 + (x - y))
                ltac:(lia) ltac:(lia)) as Hprod.
  split; [exact Hsq|].
  replace ((255 - (x - y)) * (255 + (x - y)))
    with (65025 - (x - y) * (x - y)) in Hprod by ring.
  lia.
Qed.

(** X21: on arrays of bytes with [n = min(len a, len b) > 0] the sum of
    squares is at most [65025 * n] and the sum of absolute differences at
    most [255 * n]: the module's difference lies between 0 and 65025 and
    the inline one between 0 and 255. *)
Theorem calculatePixelDifference_bytes (a b : list Z) :
  Forall (fun x => 0 <= x <= 255) a ->
  Forall (fun x => 0 <= x <= 255) b ->
  let n := Nat.min (length a) (length b) in
  (0 < n)%nat ->
  exists squares absolutes,
    calculatePixelDifference a b = Fin (squares # Pos.of_nat n)
    /\ 0 <= squares <= 65025 * Z.of_nat n
    /\ ContentJs.calculatePixelDifference a b = Fin (absolutes # Pos.of_nat n)
    /\ 0 <= absolutes <= 255 * Z.of_nat n.
Proof.
  intros Ha Hb n Hn.
  exists (spec_sumSquares n a b), (spec_sumAbs n a b).
  assert (Hlen : forall g : Z -> Z -> Z,
            length (zip_with g (take n a) (take n b)) = n).
  { intros g. rewrite length_zip_with, !length_take. subst n. lia. }
  assert (Hta : Forall (fun x => 0 <= x <= 255) (take n a)) by (apply Forall_take, Ha).
  assert (Htb : Forall (fun x => 0 <= x <= 255) (take n b)) by (apply Forall_take, Hb).
  split; [|split; [|split]].
  - unfold calculatePixelDifference. fold n.
    rewrite squaredDiffLoop_spec by (subst n; lia).
    destruct n; [lia | reflexivity].
  - unfold spec_sumSquares.
    pose proof (sum_bounded (fun x y => (x - y) * (x - y)) 65025 (take n a)
                  square_of_byte_difference Hta (take n b) Htb) as Hsum.
    rewrite Hlen in Hsum. exact Hsum.
  - unfold ContentJs.calculatePixelDifference. fold n.
    rewrite absDiffLoop_spec by (subst n; lia).
    destruct n; [lia | reflexivity].
  - unfold spec_sumAbs.
    pose proof (sum_bounded (fun x y => Z.abs (x - y)) 255 (take n a)
                  ltac:(intros x y Hx Hy; lia) Hta (take n b) Htb) as Hsum.
    rewrite Hlen in Hsum. exact Hsum.
Qed.

Lemma calculatePixelDifference_bytes_witness :
  exists squares absolutes,
    calculatePixelDifference [0; 255; 7] [255; 0; 7] = Fin (squares # Pos.of_nat 3)
    /\ 0 <= squares <= 65025 * Z.of_nat 3
    /\ ContentJs.calculatePixelDifference [0; 255; 7] [255; 0; 7]
       = Fin (absolutes # Pos.of_nat 3)
    /\ 0 <= absolutes <= 255 * Z.of_nat 3.
Proof.
  apply (calculatePixelDifference_bytes [0; 255; 7] [255; 0; 7]).
  - repeat constructor; lia.
  - repeat constructor; lia.
  - simpl. lia.
Defined.

(** ** Witnesses of earlier lemmas *)

Lemma fallback_no_lower_witness :
  exists best,
    finalOrder emptyFingerprint = Some (best ++ [])
    /\ best ≡ₚ nonFloatingIndices (length emptyFingerprint) []
    /\ forall p, p ≡ₚ nonFloatingIndices (length emptyFingerprint) [] ->
         exists s sbest,
           spec_totalScore emptyFingerprint p = Some s
           /\ spec_totalScore emptyFingerprint best = Some sbest
           /\ (s <? sbest)%float = false.
Proof.
  apply (fallback_no_lower emptyFingerprint (mkClass (-1) (-1) [])); reflexivity.
Defined.

Lemma double_sqrt_threshold_witness :
  Double.sqrt_gt_tolerance 1225 = root_gtb (Root 1225) BLANK_TOLERANCE
  /\ Double.sqrt_gt_tolerance 1226 = root_gtb (Root 1226) BLANK_TOLERANCE.
Proof.
  split; [apply (double_sqrt_threshold 1225) | apply (double_sqrt_threshold 1226)];
    lia.
Defined.

Lemma double_floor_tenth_witness :
  Double.floor_tenth_is 499 (499 / 10) = true.
Proof. apply (double_floor_tenth 499). lia. Defined.

Lemma getEdgePixels_agrees_with_inline_witness :
  topPixels (getEdgePixels shortStrip)
  = Inline.topPixels (Inline.getEdgePixels shortStrip)
  /\ bottomPixels (getEdgePixels shortStrip)
     = Inline.bottomPixels (Inline.getEdgePixels shortStrip).
Proof.
  destruct (getEdgePixels_agrees_with_inline shortStrip) as [Htop Hbottom].
  split; [apply Htop | apply Hbottom]; reflexivity.
Defined.

(** ** The doubles that calculatePixelDifference returns *)

(** The double returned is the quotient, rounded once, of the same two
    integers whose exact quotient [calculatePixelDifference] is. *)
Lemma calculatePixelDifference_rounded (a b : list Z) :
  let n := Nat.min (length a) (length b) in
  Double.calculatePixelDifference a b = Double.div_len (spec_sumSquares n a b) n
  /\ Double.ContentJs.calculatePixelDifference a b
     = Double.div_len (spec_sumAbs n a b) n.
Proof.
  intros n. unfold Double.calculatePixelDifference,
    Double.ContentJs.calculatePixelDifference. cbn zeta. fold n.
  rewrite squaredDiffLoop_spec, absDiffLoop_spec by (subst n; lia).
  split; reflexivity.
Qed.

Lemma loop_over_nothing (a b : list Z) :
  squaredDiffLoop a b 0 = 0 /\ ContentJs.absDiffLoop a b 0 = 0.
Proof. split; reflexivity. Qed.

Lemma difference_nonneg (a b : list Z) :
  a <> [] -> b <> [] -> Z.of_nat (Nat.min (length a) (length b)) < 2 ^ 53 ->
  Binary64.nonneg (Double.calculatePixelDifference a b)
  /\ Binary64.nonneg (Double.ContentJs.calculatePixelDifference a b).
Proof.
  intros Ha Hb Hlen.
  assert (Hpos : (0 < Nat.min (length a) (length b))%nat).
  { destruct a; [contradiction|]. destruct b; [contradiction|]. simpl. lia. }
  split; apply div_len_number; assumption.
Qed.

(** X26: as a double, the result of calculatePixelDifference (of either
    copy) is [NaN] exactly when one of the two arrays is empty; for
    non-empty arrays it is a number that is not negative. *)
Theorem calculatePixelDifference_is_number (a b : list Z) :
  Z.of_nat (Nat.min (length a) (length b)) < 2 ^ 53 ->
  let d := Double.calculatePixelDifference a b in
  let d' := Double.ContentJs.calculatePixelDifference a b in
  (PrimFloat.is_nan d = true <-> a = [] \/ b = [])
  /\ (PrimFloat.is_nan d' = true <-> a = [] \/ b = [])
  /\ (a <> [] -> b <> [] ->
      (PrimFloat.zero <=? d)%float = true /\ (PrimFloat.zero <=? d')%float = true).
Proof.
  intros Hlen d d'. subst d d'.
  unfold Double.calculatePixelDifference, Double.ContentJs.calculatePixelDifference.
  cbn zeta.
  destruct (Nat.min (length a) (length b)) as [|n] eqn:Hmin.
  - assert (Hempty : a = [] \/ b = []).
    { destruct a; [left; reflexivity|]. destruct b; [right; reflexivity|].
      simpl in Hmin. discriminate. }
    destruct (loop_over_nothing a b) as [-> ->].
    repeat split; auto; intros; destruct Hempty; contradiction.
  - assert (Ha : a <> []) by (intros ->; discriminate).
    assert (Hb : b <> []) by (intros ->; rewrite Nat.min_0_r in Hmin; discriminate).
    rewrite <- Hmin in *.
    destruct (difference_nonneg a b Ha Hb Hlen) as [Hsq Habs].
    unfold Double.calculatePixelDifference, Double.ContentJs.calculatePixelDifference
      in Hsq, Habs. cbn zeta in Hsq, Habs.
    split; [|split].
    + rewrite (Binary64Facts.nonneg_number _ Hsq).
      split; [discriminate | intros [?|?]; contradiction].
    + rewrite (Binary64Facts.nonneg_number _ Habs).
      split; [discriminate | intros [?|?]; contradiction].
    + intros _ _. split; apply Binary64Facts.nonneg_leb_zero; assumption.
Qed.

Lemma calculatePixelDifference_is_number_witness :
  (PrimFloat.is_nan (Double.calculatePixelDifference [5; 0; 3] [4; 1; 1]) = true
   <-> [5; 0; 3] = [] \/ [4; 1; 1] = [])
  /\ (PrimFloat.zero <=? Double.calculatePixelDifference [5; 0; 3] [4; 1; 1])%float
     = true.
Proof.
  destruct (calculatePixelDifference_is_number [5; 0; 3] [4; 1; 1])
    as (Hnan & _ & Hnum); [reflexivity|].
  split; [exact Hnan|]. apply Hnum; discriminate.
Defined.

(** X27: every difference between signatures whose fingerprints are
    proper (not empty, fewer than [2^53] components) is a number, so that
    the fallback search on them meets no [NaN]. *)
Theorem proper_numericDifferences (edgeData : list EdgeSignature)
    (indices : list Z) :
  (forall i, i ∈ indices ->
     exists e, edgeAt edgeData i = Some e
               /\ properFingerprint (topPixels e)
               /\ properFingerprint (bottomPixels e)) ->
  numericDifferences edgeData indices.
Proof.
  intros Hproper i j Hi Hj.
  destruct (Hproper i Hi) as (ei & Hei & _ & Hbi & Hbl).
  destruct (Hproper j Hj) as (ej & Hej & (Htj & Htl) & _).
  unfold pairDifference. rewrite Hei, Hej. cbn [mbind option_bind].
  eexists. split; [reflexivity|].
  apply Binary64Facts.nonneg_number.
  apply (difference_nonneg (bottomPixels ei) (topPixels ej)); [assumption ..|lia].
Qed.

Lemma proper_numericDifferences_witness : numericDifferences roundedChain [0; 1; 2].
Proof.
  apply proper_numericDifferences. intros i Hi.
  repeat (apply elem_of_cons in Hi; destruct Hi as [->|Hi]);
    try (inversion Hi; fail);
    (eexists; split; [reflexivity|]; split; split; (discriminate || reflexivity)).
Defined.
